(** * Amortized 2D noise (Tobler): a shallow embedding and its properties

    The development follows the C++ sources of directory
    "2 Generate with Amortized Noise":

    - [Common.h]                      the macros [lerp], [s_curve], [s_curve2];
    - [ExponentialHash.cpp]           [UniformHash], the two [ExpHash];
    - [InfiniteAmortizedNoise2D.cpp]  the class [CInfiniteAmortizedNoise2D];
    - [TerrainGenerator.cpp]          the derived class [CTerrainGenerator];
    - [main.cpp]                      the callers, down to the numbers written
                                      to the elevation file.

    How the code is read:

    - [float] is an abstract scalar type with the operations the sources
      use.  It has two instances: IEEE-754 binary32 (what the machine
      runs, with the C library's [cosf], [sinf] and [logf] as parameters)
      and the real numbers (what the comments of the sources reason in).
      What is proved "in every arithmetic" holds for both; bounds and
      closed forms are proved in real arithmetic.
    - [int] and [unsigned int] are [Z]; the conversion to [unsigned int]
      is [mod 2^32], which also makes a two's complement wrap of the
      signed sums passed to the hash unobservable.
    - Arrays are lists, the object is a record of its fields, and every
      function that writes returns the new state.  The function-local
      static of [ExpHash] is part of that state.
    - MurmurHash3 is a parameter. *)

From Stdlib Require Import ZArith Reals Lra Lia Psatz Bool.
From Stdlib Require Import Floats.SpecFloat.
From stdpp Require Import base tactics option list list_numbers.

#[local] Open Scope Z_scope.

(** ** Scalars *)

(** The operations the sources apply to [float] values.  [of_int] is the
    conversion [(float)i] (also used for integer-valued literals such as
    [10.0f]); [cosf], [sinf] and [logf] are the C library's. *)
Class Scalar (F : Type) : Type := {
  of_int : Z -> F;
  half : F;
  sqrt2 : F;
  fadd : F -> F -> F;
  fsub : F -> F -> F;
  fmul : F -> F -> F;
  fdiv : F -> F -> F;
  fneg : F -> F;
  fltb : F -> F -> bool;
  cosf : F -> F;
  sinf : F -> F;
  logf : F -> F
}.

Declare Scope fl_scope.
Delimit Scope fl_scope with fl.
Infix "⊕" := fadd (at level 50, left associativity) : fl_scope.
Infix "⊖" := fsub (at level 50, left associativity) : fl_scope.
Infix "⊗" := fmul (at level 40, left associativity) : fl_scope.
Infix "⊘" := fdiv (at level 40, left associativity) : fl_scope.
Notation "# z" := (of_int z) (at level 5, format "# z") : fl_scope.

(** *** Real arithmetic *)

Definition Rltb (a b : R) : bool := if Rlt_dec a b then true else false.

#[export] Instance real_scalar : Scalar R := {|
  of_int := IZR;
  half := (/ 2)%R;
  sqrt2 := sqrt 2;
  fadd := Rplus;
  fsub := Rminus;
  fmul := Rmult;
  fdiv := Rdiv;
  fneg := Ropp;
  fltb := Rltb;
  cosf := cos;
  sinf := sin;
  logf := ln
|}.

(** *** IEEE-754 binary32 *)

Module Binary32.

Definition prec : Z := 24.
Definition emax : Z := 128.

Definition float32 : Type := spec_float.

Definition of_Z (z : Z) : float32 := binary_normalize prec emax z 0 false.

(** [0.5f] and [(float)M_SQRT2 = 0x3FB504F3]. *)
Definition half32 : float32 := S754_finite false 8388608 (-24).
Definition sqrt2_32 : float32 := S754_finite false 11863283 (-23).

Section Libm.
(** The C library functions are not part of the repository. *)
Variables cosf32 sinf32 logf32 : float32 -> float32.

Definition scalar : Scalar float32 := {|
  of_int := of_Z;
  half := half32;
  sqrt2 := sqrt2_32;
  fadd := SFadd prec emax;
  fsub := SFsub prec emax;
  fmul := SFmul prec emax;
  fdiv := SFdiv prec emax;
  fneg := SFopp;
  fltb := SFltb;
  cosf := cosf32;
  sinf := sinf32;
  logf := logf32
|}.
End Libm.

End Binary32.

(** ** Arrays and loops *)

(** C arrays are lists.  An access outside the array is undefined behaviour
    in C++; here a read outside yields [d] and a write outside is dropped. *)
Definition rd {A} (d : A) (t : list A) (i : Z) : A :=
  if i <? 0 then d else default d (t !! Z.to_nat i).

Definition wr {A} (t : list A) (i : Z) (v : A) : list A :=
  if i <? 0 then t else <[Z.to_nat i := v]> t.

(** [float** cell]: an array of rows. *)
Definition rd2 {A} (d : A) (cell : list (list A)) (i j : Z) : A :=
  rd d (rd [] cell i) j.

Definition wr2 {A} (cell : list (list A)) (i j : Z) (v : A) : list (list A) :=
  if i <? 0 then cell else alter (fun row => wr row j v) (Z.to_nat i) cell.

(** [for (int i = lo; i < hi; i++) s = body i s]. *)
Definition for_up {S} (lo hi : Z) (body : Z -> S -> S) (s : S) : S :=
  foldl (fun s i => body i s) s (seqZ lo (hi - lo)).

(** [for (int i = hi; i >= lo; i--) s = body i s]. *)
Definition for_down {S} (hi lo : Z) (body : Z -> S -> S) (s : S) : S :=
  foldl (fun s i => body i s) s (reverse (seqZ lo (hi - lo + 1))).

(** A square buffer of side [N]. *)
Definition square {A} (N : Z) (cell : list (list A)) : Prop :=
  Z.of_nat (length cell) = N /\
  forall i row, cell !! i = Some row -> Z.of_nat (length row) = N.

(** ** The hash *)

(** [MurmurHash3_x86_32 (key, len, seed, out)] of the MurmurHash3 library,
    which is not part of the sources: from the key, its length in bytes and
    the seed to the value stored in [*out]. *)
Class Murmur : Type := MurmurHash3_32 : Z -> Z -> Z -> Z.

(** ** Common.h *)

Section Code.
Context {F : Type} {ops : Scalar F} {hash : Murmur}.
#[local] Open Scope fl_scope.


Definition lerp (t a b : F) : F := a ⊕ t ⊗ (b ⊖ a).

Definition s_curve2 (t : F) : F :=
  t ⊗ t ⊗ t ⊗ (#10 ⊕ #3 ⊗ t ⊗ (#2 ⊗ t ⊖ #5)).

(** The cubic spline of the same header; the amortized generator uses the
    quintic one. *)
Definition s_curve (t : F) : F := t ⊗ t ⊗ (#3 ⊖ #2 ⊗ t).

(** ** ExponentialHash.cpp *)

(** [std::max] and [std::min], as the macro [clip] uses them. *)
Definition fmax (a b : F) : F := if fltb a b then b else a.
Definition fmin (a b : F) : F := if fltb b a then b else a.
Definition clip (x a b : F) : F := fmin (fmax x a) b.

Definition UniformHash (x max : Z) : F := (#x ⊕ #1) ⊘ (#max ⊕ #2).

(** The value the function-local [static const float scale] of the
    two-argument [ExpHash] gets when its initialiser runs with [max]. *)
Definition ExpHash_scale_init (max : Z) : F :=
  #1 ⊘ logf (half ⊗ (#max ⊕ #2)).

(** The static is initialised by the first call that reaches it and keeps
    that value for the rest of the process: [None] is "not yet
    initialised".  This is the value a call uses. *)
Definition static_scale (st : option F) (max : Z) : F :=
  match st with
  | Some s => s
  | None => ExpHash_scale_init max
  end.

(** [ExpHash(x, max)]: the result and the static after the call. *)
Definition ExpHash2 (st : option F) (x max : Z) : F * option F :=
  let scale := static_scale st max in
  (fneg scale ⊗ logf (half ⊗ #x ⊕ #1) ⊕ #1, Some scale).

(** [ExpHash(x, y, m, omega)]. *)
Definition ExpHash (st : option F) (x y m : Z) (omega : F) : F * option F :=
  let omega := clip omega #0 #1 in
  if fltb (UniformHash y m) omega then (UniformHash x m, st)
  else ExpHash2 st x m.

(** ** The generator object *)

(** Which [initEdgeTables] the object dispatches to: the one of the base
    class, or the override of [CTerrainGenerator] with its fields. *)
Inductive Model : Type :=
| UnitModel
| TerrainModel (seed1 seed2 : Z) (omega : F).

(** The fields of [CInfiniteAmortizedNoise2D] (and, through [model], of
    [CTerrainGenerator]); [exp_scale] carries the static of [ExpHash],
    which lives outside the object but changes with its calls. *)
Record Generator : Type := mkGenerator {
  uax : list F; vax : list F;
  ubx : list F; vbx : list F;
  uay : list F; uby : list F;
  vay : list F; vby : list F;
  spline : list F;
  seed : Z;
  model : Model;
  exp_scale : option F
}.

Definition uint32 (x : Z) : Z := x mod 2 ^ 32.

(** The constructors.  [new float[n]] leaves the contents indeterminate:
    [junk] stands for whatever the tables hold. *)
Definition CInfiniteAmortizedNoise2D (junk : F) (n s : Z) : Generator :=
  let t := replicate (Z.to_nat n) junk in
  mkGenerator t t t t t t t t t (uint32 s) UnitModel None.

Definition CTerrainGenerator (junk : F) (n s : Z) (tail : F) : Generator :=
  let t := replicate (Z.to_nat n) junk in
  mkGenerator t t t t t t t t t (uint32 s)
    (TerrainModel (uint32 (s + 9999)) (uint32 (s + 314159)) tail) None.

(** ** InfiniteAmortizedNoise2D.cpp *)

Definition FillUp (t : list F) (s : F) (n : Z) : list F :=
  let d := s ⊘ #n in
  let t := wr t 0 #0 in
  for_up 1 n (fun i t => wr t i (rd #0 t (i - 1) ⊕ d)) t.

Definition FillDn (t : list F) (s : F) (n : Z) : list F :=
  let d := fneg s ⊘ #n in
  let t := wr t (n - 1) d in
  for_down (n - 2) 0 (fun i t => wr t i (rd #0 t (i + 1) ⊕ d)) t.

(** [h]: both arguments are converted to [unsigned int]; the result is
    stored in an [unsigned int]. *)
Definition hash2 (sd : Z) (x y : Z) : Z :=
  let key := Z.lor (Z.shiftl (uint32 x) 32) (uint32 y) in
  uint32 (MurmurHash3_32 key 8 sd).

Definition h (g : Generator) (x y : Z) : Z := hash2 (seed g) x y.

(** The 64-bit key that [h] hands to MurmurHash3: [x] in the high word,
    [y] in the low word. *)
Definition hash_key (x y : Z) : Z := Z.lor (Z.shiftl (uint32 x) 32) (uint32 y).

Definition set_edge_tables (g : Generator)
    (uax' vax' ubx' vbx' uay' vay' uby' vby' : list F) (st : option F) : Generator :=
  {| uax := uax'; vax := vax'; ubx := ubx'; vbx := vbx';
     uay := uay'; uby := uby'; vay := vay'; vby := vby';
     spline := spline g; seed := seed g; model := model g; exp_scale := st |}.

(** [CInfiniteAmortizedNoise2D::initEdgeTables]. *)
Definition initEdgeTables_unit (g : Generator) (x0 y0 n : Z) : Generator :=
  let b00 := h g x0 y0 in
  let b01 := h g x0 (y0 + 1) in
  let b10 := h g (x0 + 1) y0 in
  let b11 := h g (x0 + 1) (y0 + 1) in
  set_edge_tables g
    (FillUp (uax g) (cosf #b00) n) (FillDn (vax g) (cosf #b01) n)
    (FillUp (ubx g) (cosf #b10) n) (FillDn (vbx g) (cosf #b11) n)
    (FillUp (uay g) (sinf #b00) n) (FillUp (vay g) (sinf #b01) n)
    (FillDn (uby g) (sinf #b10) n) (FillDn (vby g) (sinf #b11) n)
    (exp_scale g).

(** [CTerrainGenerator::initEdgeTables]. *)
Definition initEdgeTables_terrain (g : Generator) (seed1 seed2 : Z) (omega : F)
    (x0 y0 n : Z) : Generator :=
  let b00 := h g x0 y0 in
  let b01 := h g x0 (y0 + 1) in
  let b10 := h g (x0 + 1) y0 in
  let b11 := h g (x0 + 1) (y0 + 1) in
  let max := 4294967295 in
  let '(m00, st) :=
    ExpHash (exp_scale g) (hash2 seed1 x0 y0) (hash2 seed2 x0 y0) max omega in
  let '(m01, st) :=
    ExpHash st (hash2 seed1 x0 (y0 + 1)) (hash2 seed2 x0 (y0 + 1)) max omega in
  let '(m10, st) :=
    ExpHash st (hash2 seed1 (x0 + 1) y0) (hash2 seed2 (x0 + 1) y0) max omega in
  let '(m11, st) :=
    ExpHash st (hash2 seed1 (x0 + 1) (y0 + 1)) (hash2 seed2 (x0 + 1) (y0 + 1)) max omega in
  set_edge_tables g
    (FillUp (uax g) (m00 ⊗ cosf #b00) n) (FillDn (vax g) (m01 ⊗ cosf #b01) n)
    (FillUp (ubx g) (m10 ⊗ cosf #b10) n) (FillDn (vbx g) (m11 ⊗ cosf #b11) n)
    (FillUp (uay g) (m00 ⊗ sinf #b00) n) (FillUp (vay g) (m01 ⊗ sinf #b01) n)
    (FillDn (uby g) (m10 ⊗ sinf #b10) n) (FillDn (vby g) (m11 ⊗ sinf #b11) n)
    st.

(** The virtual call. *)
Definition initEdgeTables (g : Generator) (x0 y0 n : Z) : Generator :=
  match model g with
  | UnitModel => initEdgeTables_unit g x0 y0 n
  | TerrainModel seed1 seed2 omega => initEdgeTables_terrain g seed1 seed2 omega x0 y0 n
  end.

Definition initSplineTable (g : Generator) (n : Z) : Generator :=
  let sp := for_up 0 n (fun i sp => let t := #i ⊘ #n in wr sp i (s_curve2 t)) (spline g) in
  {| uax := uax g; vax := vax g; ubx := ubx g; vbx := vbx g;
     uay := uay g; uby := uby g; vay := vay g; vby := vby g;
     spline := sp; seed := seed g; model := model g; exp_scale := exp_scale g |}.

(** [getNoise(i, j)]: one point. *)
Definition getNoise (g : Generator) (i j : Z) : F :=
  let u := rd #0 (uax g) j ⊕ rd #0 (uay g) i in
  let v := rd #0 (vax g) j ⊕ rd #0 (vay g) i in
  let a := lerp (rd #0 (spline g) j) u v in
  let u := rd #0 (ubx g) j ⊕ rd #0 (uby g) i in
  let v := rd #0 (vbx g) j ⊕ rd #0 (vby g) i in
  let b := lerp (rd #0 (spline g) j) u v in
  lerp (rd #0 (spline g) i) a b.

Definition Cell : Type := list (list F).

(** [getNoise(n, i0, j0, cell)]: one octave copied into a subcell. *)
Definition getNoise_cell (g : Generator) (n i0 j0 : Z) (cell : Cell) : Cell :=
  for_up 0 n (fun i =>
    for_up 0 n (fun j cell =>
      wr2 cell (i0 + i) (j0 + j) (getNoise g i j))) cell.

(** [addNoise]: one octave added into a subcell. *)
Definition addNoise (g : Generator) (n i0 j0 : Z) (scale : F) (cell : Cell) : Cell :=
  for_up 0 n (fun i =>
    for_up 0 n (fun j cell =>
      wr2 cell (i0 + i) (j0 + j)
        (rd2 #0 cell (i0 + i) (j0 + j) ⊕ scale ⊗ getNoise g i j))) cell.

(** The skip loop of [generate]: [n] and [r] when it ends.  The [int r] of
    the source holds the [r] computed here as long as [m0 <= 31]
    ([r <= 2^30]); beyond that it overflows, but [generate] then returns
    before using it, an [int n] halved 31 times being 0. *)
Definition skip_octaves (m0 n : Z) : Z * Z :=
  for_up 1 m0 (fun _ '(n, r) => (n ÷ 2, r + r)) (n, 1).

(** The two loops over the subcells of the first generated octave. *)
Definition first_octave (g : Generator) (x y n r : Z) (cell : Cell) : Generator * Cell :=
  for_up 0 r (fun i0 =>
    for_up 0 r (fun j0 '(g, cell) =>
      let g := initEdgeTables g (x + i0) (y + j0) n in
      (g, getNoise_cell g n (i0 * n) (j0 * n) cell))) (g, cell).

(** The two loops over the subcells of a later octave. *)
Definition next_octave (g : Generator) (x y n r : Z) (scale : F) (cell : Cell)
    : Generator * Cell :=
  for_up 0 r (fun i0 =>
    for_up 0 r (fun j0 '(g, cell) =>
      let g := initEdgeTables g (x + i0) (y + j0) n in
      (g, addNoise g n (i0 * n) (j0 * n) scale cell))) (g, cell).

(** [for (int k = m0; k < m1 && n >= 2; k++)], with [todo] the number of
    values of [k] left, [m1 - k]. *)
Fixpoint octave_loop (todo : nat) (g : Generator) (x y n r : Z) (scale : F)
    (cell : Cell) : Generator * Cell * F :=
  match todo with
  | O => (g, cell, scale)
  | S todo =>
      if 2 <=? n then
        let n := n ÷ 2 in
        let r := r + r in
        let x := x + x in
        let y := y + y in
        let scale := scale ⊗ half in
        let g := initSplineTable g n in
        let '(g, cell) := next_octave g x y n r scale cell in
        octave_loop todo g x y n r scale cell
      else (g, cell, scale)
  end.

(** [generate]: the object and the cell after the call, and the value
    returned. *)
Definition generate (g : Generator) (x y m0 m1 n : Z) (cell : Cell)
    : Generator * Cell * F :=
  let '(n, r) := skip_octaves m0 n in
  if n <? 2 then (g, cell, #1)
  else
    let g := initSplineTable g n in
    let '(g, cell) := first_octave g x y n r cell in
    let '(g, cell, scale) := octave_loop (Z.to_nat (m1 - m0)) g x y n r #1 cell in
    (g, cell, sqrt2 ⊘ (#2 ⊖ scale)).

(** ** main.cpp *)

(** The number [SaveDEMFile] prints for an entry holding [c]:
    [altitude * (1.0f + c * scale)/2.0f]. *)
Definition elevation (altitude scale c : F) : F :=
  altitude ⊗ (#1 ⊕ c ⊗ scale) ⊘ #2.

(** What [SaveDEMFile] writes to the file, as the numbers handed to
    [fprintf] (their rendering as text is not modelled): [nrows], [ncols]
    and the elevations, one list per line of the file. *)
Record DEM : Type := mkDEM {
  nrows : Z;
  ncols : Z;
  elevations : list (list F)
}.

(** [SaveDEMFile]; [opened] tells whether [fopen] succeeded.  Nothing is
    written when it did not. *)
Definition SaveDEMFile (opened : bool) (cell : Cell) (n : Z) (scale altitude : F)
    : option DEM :=
  if opened then
    Some (mkDEM n n
      (for_up 0 n (fun i lines =>
         lines ++ [for_up 0 n (fun j line =>
                     line ++ [elevation altitude scale (rd2 #0 cell i j)]) []]) []))
  else None.

(** [Generate2DNoise], for the generator [g] that the global pointer
    refers to: the arguments [x] and [y] change places in the call. *)
Definition Generate2DNoise (g : Generator) (cell : Cell) (x y m0 m1 n : Z)
    : Generator * Cell * F :=
  generate g y x m0 m1 n cell.

(** [GenerateAndSave2DNoise]: the generator after the call and what was
    written.  [fresh] is the [n] by [n] cell as [new] returns it, its
    contents indeterminate.  The products of the first loop reach the hash
    only after conversion to [unsigned int]. *)
Definition GenerateAndSave2DNoise (g : Generator) (fresh : Cell) (opened : bool)
    (nRow nCol m0 m1 : Z) (altitude : F) (n : Z) : Generator * option DEM :=
  let '(nCol, nRow) :=
    for_up 1 m0 (fun _ '(nCol, nRow) => (nCol * 2, nRow * 2)) (nCol, nRow) in
  let '(g, cell, scale) := Generate2DNoise g fresh nCol nRow m0 m1 n in
  (g, SaveDEMFile opened cell n scale altitude).

(** [main], from the three values read from the input: a generator for
    cells of side 4096 and one tile of octaves 5 to 12. *)
Definition main (junk : F) (fresh : Cell) (opened : bool) (seed : Z)
    (omega altitude : F) : Generator * option DEM :=
  let cellsize := 4096 in
  let g := CTerrainGenerator junk cellsize seed omega in
  GenerateAndSave2DNoise g fresh opened 9999 7777 5 12 altitude cellsize.

(** ** Closed forms of what the tables hold *)

(** Entry [i] of a table filled by [FillUp t s n]: [i] constant increments
    from zero. *)
Definition ramp_up (s : F) (n i : Z) : F :=
  Nat.iter (Z.to_nat i) (fun v => v ⊕ s ⊘ #n) #0.

(** Entry [i] of a table filled by [FillDn t s n]. *)
Definition ramp_dn (s : F) (n i : Z) : F :=
  Nat.iter (Z.to_nat (n - 1 - i)) (fun v => v ⊕ fneg s ⊘ #n) (fneg s ⊘ #n).

(** The tables were allocated with at least [n] entries. *)
Definition tables_fit (g : Generator) (n : Z) : Prop :=
  n <= Z.of_nat (length (uax g)) /\ n <= Z.of_nat (length (vax g)) /\
  n <= Z.of_nat (length (ubx g)) /\ n <= Z.of_nat (length (vbx g)) /\
  n <= Z.of_nat (length (uay g)) /\ n <= Z.of_nat (length (vay g)) /\
  n <= Z.of_nat (length (uby g)) /\ n <= Z.of_nat (length (vby g)) /\
  n <= Z.of_nat (length (spline g)).

(** The eight edge tables of the object, in the order of their
    declaration. *)
Definition edge_tables (g : Generator) : list (list F) :=
  [uax g; vax g; ubx g; vbx g; uay g; vay g; uby g; vby g].

(** The only [max] the generator passes to [ExpHash]: [0xFFFFFFFF]. *)
Definition hash_max : Z := 4294967295.

(** What [ExpHash(x, y, m, omega)] returns when the static holds [scale]
    (or is about to be initialised to it). *)
Definition ExpHash_value (scale : F) (x y m : Z) (omega : F) : F :=
  if fltb (UniformHash y m) (clip omega #0 #1) then UniformHash x m
  else fneg scale ⊗ logf (half ⊗ #x ⊕ #1) ⊕ #1.

(** The gradient at lattice point [(x, y)]: direction from the hash with
    the object's seed; in the terrain model, magnitude from the hashes
    with the two other seeds. *)
Definition corner_gradient (sd : Z) (md : Model) (scale : F) (x y : Z) : F * F :=
  let b := hash2 sd x y in
  match md with
  | UnitModel => (cosf #b, sinf #b)
  | TerrainModel seed1 seed2 omega =>
      let m := ExpHash_value scale (hash2 seed1 x y) (hash2 seed2 x y) hash_max omega in
      (m ⊗ cosf #b, m ⊗ sinf #b)
  end.

Definition gradient_of (g : Generator) : Z -> Z -> F * F :=
  corner_gradient (seed g) (model g) (static_scale (exp_scale g) hash_max).

(** The value [getNoise(i, j)] has in the cell with corner [(x0, y0)] and
    granularity [n], from the gradients [G] at its four corners. *)
Definition point_noise (G : Z -> Z -> F * F) (x0 y0 n i j : Z) : F :=
  let g00 := G x0 y0 in
  let g01 := G x0 (y0 + 1) in
  let g10 := G (x0 + 1) y0 in
  let g11 := G (x0 + 1) (y0 + 1) in
  let sj := s_curve2 (#j ⊘ #n) in
  let si := s_curve2 (#i ⊘ #n) in
  let a := lerp sj (ramp_up g00.1 n j ⊕ ramp_up g00.2 n i)
                   (ramp_dn g01.1 n j ⊕ ramp_up g01.2 n i) in
  let b := lerp sj (ramp_up g10.1 n j ⊕ ramp_dn g10.2 n i)
                   (ramp_dn g11.1 n j ⊕ ramp_dn g11.2 n i) in
  lerp si a b.

(** The value of one octave at buffer position [(p, q)]. *)
Definition octave_value (G : Z -> Z -> F * F) (x y n p q : Z) : F :=
  point_noise G (x + p / n) (y + q / n) n (p mod n) (q mod n).

(** Position [(p, q)] lies in the [r*n] by [r*n] corner an octave fills. *)
Definition covered (r n p q : Z) : Prop :=
  (0 <= p < r * n) /\ (0 <= q < r * n).

(** What [octave_loop] makes of the value [v] at position [(p, q)]. *)
Fixpoint accumulate (todo : nat) (G : Z -> Z -> F * F) (x y n r : Z) (scale : F)
    (p q : Z) (v : F) : F :=
  match todo with
  | O => v
  | S todo =>
      if 2 <=? n then
        let n := n ÷ 2 in
        let r := r + r in
        let x := x + x in
        let y := y + y in
        let scale := scale ⊗ half in
        let v := if decide (covered r n p q)
                 then v ⊕ scale ⊗ octave_value G x y n p q else v in
        accumulate todo G x y n r scale p q v
      else v
  end.

(** The scale [octave_loop] ends with. *)
Fixpoint final_scale (todo : nat) (n : Z) (scale : F) : F :=
  match todo with
  | O => scale
  | S todo => if 2 <=? n then final_scale todo (n ÷ 2) (scale ⊗ half) else scale
  end.

(** How many times the octave loop of [generate] runs from granularity
    [n0]: once for each [k] from [m0] to [m1 - 1], as long as the
    granularity before the halving is at least 2. *)
Definition octaves_added (m0 m1 n0 : Z) : nat :=
  Z.to_nat (Z.min (m1 - m0) (Z.log2 n0)).

(** What the gradients depend on: the seed, the model with its seeds and
    omega, and the scale the static of [ExpHash] holds or will hold. *)
Definition same_config (g0 g : Generator) : Prop :=
  seed g = seed g0 /\ model g = model g0 /\
  static_scale (exp_scale g) hash_max = static_scale (exp_scale g0) hash_max.

(** The spline table is the one [initSplineTable g n] leaves. *)
Definition spline_ready (g : Generator) (n : Z) : Prop :=
  forall k, 0 <= k < n -> rd #0 (spline g) k = s_curve2 (#k ⊘ #n).

(** The common shape of [getNoise_cell] and [addNoise]: entry
    [(i0 + i, j0 + j)] becomes [upd i j] of what it was. *)
Definition stamp (upd : Z -> Z -> F -> F) (n i0 j0 : Z) (cell : Cell) : Cell :=
  for_up 0 n (fun i =>
    for_up 0 n (fun j cell =>
      wr2 cell (i0 + i) (j0 + j) (upd i j (rd2 #0 cell (i0 + i) (j0 + j))))) cell.

(** The common shape of [first_octave] and [next_octave]: [comb v old] is
    what an entry holding [old] becomes when the octave's value is [v]. *)
Definition subcells (comb : F -> F -> F) (g : Generator) (x y n r : Z) (cell : Cell)
    : Generator * Cell :=
  for_up 0 r (fun i0 =>
    for_up 0 r (fun j0 '(g, cell) =>
      let g := initEdgeTables g (x + i0) (y + j0) n in
      (g, stamp (fun i j old => comb (getNoise g i j) old) n (i0 * n) (j0 * n) cell)))
    (g, cell).

(** What the generator must satisfy before and between subcells. *)
Definition octave_inv (g0 : Generator) (n N : Z) (s : Generator * Cell) : Prop :=
  same_config g0 s.1 /\ tables_fit s.1 n /\ spline_ready s.1 n /\ square N s.2.

(** Two generator states that differ only in what their scratch tables held
    before. *)
Definition twins (n : Z) (s1 s2 : Generator * Cell) : Prop :=
  s1.2 = s2.2 /\ same_config s1.1 s2.1 /\
  tables_fit s1.1 n /\ tables_fit s2.1 n /\
  spline_ready s1.1 n /\ spline_ready s2.1 n.

(** What every step of [generate] keeps: the configuration, tables of at
    least [k] entries and a cell of [N] rows of [N] entries. *)
Definition kept (g0 : Generator) (k N : Z) (s : Generator * Cell) : Prop :=
  same_config g0 s.1 /\ tables_fit s.1 k /\ square N s.2.

(** The static of [ExpHash] is not yet initialised, or was initialised by
    a call with the [max] the generator passes. *)
Definition static_fresh (g : Generator) : Prop :=
  static_scale (exp_scale g) hash_max = ExpHash_scale_init hash_max.

End Code.


Arguments Model : clear implicits.
Arguments Generator : clear implicits.
Arguments Cell : clear implicits.
Arguments DEM : clear implicits.

(** ** Notions of real arithmetic *)

(** The gradients are no longer than one. *)
Definition unit_bounded (G : Z -> Z -> R * R) : Prop :=
  forall x y, ((G x y).1 ^ 2 + (G x y).2 ^ 2 <= 1)%R.

(** A hash for the examples: 1 on the keys of lattice column 3, else 0. *)
Definition column_hash : Murmur :=
  fun key _ _ => if Z.shiftr key 32 =? 3 then 1 else 0.

(** A unit-model and a terrain-model generator for cells of side 8, and
    cells of side 5 and 8, for the examples. *)
Definition unit_gen : Generator R := CInfiniteAmortizedNoise2D 0%R 8 1.
Definition terrain_gen : Generator R := CTerrainGenerator 7%R 8 9999 (3 / 10)%R.
Definition terrain_gen' : Generator R := CTerrainGenerator 0%R 8 9999 (3 / 10)%R.
Definition cell5 : Cell R := replicate 5 (replicate 5 100%R).
Definition cell8 : Cell R := replicate 8 (replicate 8 0%R).
Definition cell8' : Cell R := replicate 8 (replicate 8 5%R).

(** A stand-in for the C library functions in binary32 examples that do
    not call them. *)
Definition no_libm : Binary32.float32 -> Binary32.float32 := fun _ => S754_nan.

(** ** The statements that the code does not satisfy as worded *)

(** Boundedness for every entry of the [n] by [n] cell. *)
Definition bounded_everywhere : Prop :=
  forall (hash : Murmur) (g : Generator R) (x y m0 m1 n : Z) (cell : Cell R),
    2 <= (skip_octaves m0 n).1 ->
    tables_fit g n -> square n cell -> static_fresh g ->
    forall p q, 0 <= p < n -> 0 <= q < n ->
      (-1 <= rd2 0 (generate g x y m0 m1 n cell).1.2 p q *
             (generate g x y m0 m1 n cell).2 <= 1)%R.

(** Skip equivalence at the same origin: the run from octave 1 is the run
    of the octaves below [m0] plus the run from octave [m0]. *)
Definition skip_equivalence_same_origin : Prop :=
  forall (hash : Murmur) (g : Generator R) (x y m0 m1 n : Z) (cell : Cell R),
    2 <= m0 <= m1 -> 2 <= (skip_octaves m0 n).1 ->
    tables_fit g n -> square n cell ->
    forall p q, covered (skip_octaves m0 n).2 (skip_octaves m0 n).1 p q ->
      rd2 0%R (generate g x y 1 m1 n cell).1.2 p q =
      (rd2 0 (generate g x y 1 (m0 - 1) n cell).1.2 p q +
       rd2 0 (generate g x y m0 m1 n cell).1.2 p q)%R.

(** A border for every granularity that is not a power of two times
    [2^(m0-1)]: in a call that generates, some entry of the [n] by [n] cell
    has a row or column index of at least [r0 * n0]. *)
Definition border_unless_power_of_two : Prop :=
  forall m0 n : Z,
    1 <= m0 -> 2 <= (skip_octaves m0 n).1 ->
    (forall j, 0 <= j -> n <> 2 ^ j * 2 ^ (m0 - 1)) ->
    exists p q, 0 <= p < n /\ 0 <= q < n /\
      ((skip_octaves m0 n).2 * (skip_octaves m0 n).1 <= p \/
       (skip_octaves m0 n).2 * (skip_octaves m0 n).1 <= q).

(** Reads the scalar operations as the operations of [R]. *)
Ltac real_ops :=
  cbn [of_int half sqrt2 fadd fsub fmul fdiv fneg fltb cosf sinf logf real_scalar] in *.


(** * Properties *)

(** ** Arrays *)

Lemma length_wr {A} (t : list A) i v : length (wr t i v) = length t.
Proof. unfold wr. destruct (i <? 0); [done | apply length_insert]. Qed.

Lemma rd_wr_eq {A} (d : A) t i v :
  0 <= i < Z.of_nat (length t) -> rd d (wr t i v) i = v.
Proof.
  intros Hi. unfold rd, wr.
  destruct (Z.ltb_spec i 0) as [?|_]; [lia|].
  rewrite list_lookup_insert_eq by lia. done.
Qed.

Lemma rd_wr_ne {A} (d : A) t i j v : i <> j -> rd d (wr t i v) j = rd d t j.
Proof.
  intros Hij. unfold rd, wr.
  destruct (Z.ltb_spec i 0), (Z.ltb_spec j 0); try done.
  rewrite list_lookup_insert_ne by lia. done.
Qed.

Lemma rd_lookup {A} (d : A) t i x :
  0 <= i -> t !! Z.to_nat i = Some x -> rd d t i = x.
Proof.
  intros Hi Hx. unfold rd.
  destruct (Z.ltb_spec i 0); [lia|]. by rewrite Hx.
Qed.

Lemma length_wr2 {A} (cell : list (list A)) i j v :
  length (wr2 cell i j v) = length cell.
Proof. unfold wr2. destruct (i <? 0); [done | apply length_alter]. Qed.

Lemma rd2_wr2_ne {A} (d : A) cell i j p q v :
  i <> p \/ j <> q -> rd2 d (wr2 cell i j v) p q = rd2 d cell p q.
Proof.
  intros Hne. unfold rd2, wr2.
  destruct (Z.ltb_spec i 0) as [?|Hi]; [done|].
  unfold rd at 2 4.
  destruct (Z.ltb_spec p 0) as [?|Hp]; [done|].
  destruct (decide (i = p)) as [->|Hip].
  - rewrite list_lookup_alter_eq.
    destruct (cell !! Z.to_nat p) as [row|]; simpl; [|done].
    apply rd_wr_ne. lia.
  - rewrite list_lookup_alter_ne by lia. done.
Qed.

Lemma rd2_wr2_eq {A} (d : A) cell i j v :
  0 <= i < Z.of_nat (length cell) ->
  0 <= j < Z.of_nat (length (rd [] cell i)) ->
  rd2 d (wr2 cell i j v) i j = v.
Proof.
  intros Hi Hj. unfold rd2, wr2.
  destruct (Z.ltb_spec i 0) as [?|_]; [lia|].
  destruct (lookup_lt_is_Some_2 cell (Z.to_nat i)) as [row Hrow]; [lia|].
  rewrite (rd_lookup [] cell i row) in Hj by (lia || done).
  rewrite (rd_lookup [] _ i (wr row j v)); [by apply rd_wr_eq | lia |].
  by rewrite list_lookup_alter_eq, Hrow.
Qed.

Lemma square_row {A} N (cell : list (list A)) i :
  square N cell -> 0 <= i < N -> Z.of_nat (length (rd [] cell i)) = N.
Proof.
  intros [Hlen Hrows] Hi.
  destruct (lookup_lt_is_Some_2 cell (Z.to_nat i)) as [row Hrow]; [lia|].
  rewrite (rd_lookup [] cell i row) by (lia || done). eauto.
Qed.

Lemma square_wr2 {A} N (cell : list (list A)) i j v :
  square N cell -> square N (wr2 cell i j v).
Proof.
  intros [Hlen Hrows]. split; [by rewrite length_wr2|].
  intros k row. unfold wr2. destruct (i <? 0); [apply Hrows|].
  destruct (decide (Z.to_nat i = k)) as [<-|Hne].
  - rewrite list_lookup_alter_eq.
    destruct (cell !! Z.to_nat i) as [row0|] eqn:Hrow0; simpl; [|done].
    intros [= <-]. rewrite length_wr. eauto.
  - rewrite list_lookup_alter_ne by done. apply Hrows.
Qed.

Lemma rd2_wr2 {A} (d : A) N cell i j p q v :
  square N cell -> 0 <= i < N -> 0 <= j < N ->
  rd2 d (wr2 cell i j v) p q =
    if decide (p = i /\ q = j) then v else rd2 d cell p q.
Proof.
  intros Hsq Hi Hj. destruct (decide (p = i /\ q = j)) as [[-> ->]|Hne].
  - apply rd2_wr2_eq; [destruct Hsq; lia|].
    rewrite (square_row N) by done. lia.
  - apply rd2_wr2_ne. lia.
Qed.


(** ** Loops *)

Lemma for_up_nil {S} lo hi (body : Z -> S -> S) (s : S) :
  hi <= lo -> for_up lo hi body s = s.
Proof. intros. unfold for_up. rewrite seqZ_nil by lia. done. Qed.

Lemma for_up_last {S} lo hi (body : Z -> S -> S) (s : S) :
  lo <= hi -> for_up lo (hi + 1) body s = body hi (for_up lo hi body s).
Proof.
  intros. unfold for_up.
  replace (hi + 1 - lo) with ((hi - lo) + 1) by lia.
  rewrite seqZ_app by lia. rewrite foldl_app.
  replace (lo + (hi - lo)) with hi by lia. done.
Qed.

Lemma for_up_first {S} lo hi (body : Z -> S -> S) (s : S) :
  lo < hi -> for_up lo hi body s = for_up (lo + 1) hi body (body lo s).
Proof.
  intros. unfold for_up. rewrite seqZ_cons by lia. simpl.
  f_equal. f_equal; lia.
Qed.

(** Hoare-style rule: [P i] holds before iteration [i]. *)
Lemma for_up_ind {S} (P : Z -> S -> Prop) lo hi (body : Z -> S -> S) (s : S) :
  lo <= hi ->
  P lo s ->
  (forall i s, lo <= i < hi -> P i s -> P (i + 1) (body i s)) ->
  P hi (for_up lo hi body s).
Proof.
  intros Hle H0 Hstep.
  replace hi with (lo + Z.of_nat (Z.to_nat (hi - lo))) at 1 2 by lia.
  assert (Hk : (Z.to_nat (hi - lo) <= Z.to_nat (hi - lo))%nat) by lia.
  revert Hk. generalize (Z.to_nat (hi - lo)) at 1 3 4 as k.
  induction k as [|k IH]; intros Hk.
  - rewrite Z.add_0_r, for_up_nil by lia. done.
  - replace (lo + Z.of_nat (Datatypes.S k)) with (lo + Z.of_nat k + 1) by lia.
    rewrite for_up_last by lia. apply Hstep; [lia|]. apply IH. lia.
Qed.

(** An invariant of the body is an invariant of the loop. *)
Lemma for_up_preserve {S} (Q : S -> Prop) lo hi (body : Z -> S -> S) (s : S) :
  Q s ->
  (forall i s, lo <= i < hi -> Q s -> Q (body i s)) ->
  Q (for_up lo hi body s).
Proof.
  intros H0 Hstep. destruct (Z.le_gt_cases lo hi).
  - by apply (for_up_ind (fun _ => Q)).
  - by rewrite for_up_nil by lia.
Qed.

(** Two loops over the same range, in lockstep. *)
Lemma for_up_rel {S S'} (rel : S -> S' -> Prop) lo hi (body : Z -> S -> S)
    (body' : Z -> S' -> S') (s : S) (s0 : S') :
  rel s s0 ->
  (forall i a b, lo <= i < hi -> rel a b -> rel (body i a) (body' i b)) ->
  rel (for_up lo hi body s) (for_up lo hi body' s0).
Proof.
  intros H0 Hstep. destruct (Z.le_gt_cases lo hi) as [Hle|Hgt].
  - apply (for_up_ind (fun i a => rel a (for_up lo i body' s0)) lo hi body s Hle).
    + by rewrite for_up_nil.
    + intros i a Hi Ha. rewrite for_up_last by lia. by apply Hstep.
  - rewrite !for_up_nil by lia. done.
Qed.

Lemma for_up_ext {S} lo hi (body body' : Z -> S -> S) (s : S) :
  (forall i a, lo <= i < hi -> body i a = body' i a) ->
  for_up lo hi body s = for_up lo hi body' s.
Proof.
  intros Hext. apply (for_up_rel eq); [done|].
  intros i a b Hi ->. by apply Hext.
Qed.

Lemma for_down_nil {S} hi lo (body : Z -> S -> S) (s : S) :
  hi < lo -> for_down hi lo body s = s.
Proof. intros. unfold for_down. rewrite seqZ_nil by lia. done. Qed.

Lemma for_down_first {S} hi lo (body : Z -> S -> S) (s : S) :
  lo <= hi -> for_down hi lo body s = for_down (hi - 1) lo body (body hi s).
Proof.
  intros. unfold for_down.
  replace (hi - lo + 1) with ((hi - 1 - lo + 1) + 1) by lia.
  rewrite seqZ_app by lia. rewrite reverse_app. simpl.
  do 2 f_equal. lia.
Qed.

(** [P (i + 1)] holds before iteration [i] of a downward loop. *)
Lemma for_down_ind {S} (P : Z -> S -> Prop) hi lo (body : Z -> S -> S) (s : S) :
  lo <= hi + 1 ->
  P (hi + 1) s ->
  (forall i s, lo <= i <= hi -> P (i + 1) s -> P i (body i s)) ->
  P lo (for_down hi lo body s).
Proof.
  intros Hle H0 Hstep.
  remember (Z.to_nat (hi + 1 - lo)) as k eqn:Hk.
  revert hi s Hle H0 Hstep Hk.
  induction k as [|k IH]; intros hi s Hle H0 Hstep Hk.
  - rewrite for_down_nil by lia. by replace lo with (hi + 1) by lia.
  - rewrite for_down_first by lia. apply IH; try lia.
    + replace (hi - 1 + 1) with hi by lia. apply Hstep; [lia|done].
    + intros i a Hi. apply Hstep. lia.
Qed.


(** ** The tables *)

Section Tables.
Context {F : Type} {ops : Scalar F} {hash : Murmur}.
#[local] Open Scope fl_scope.

Lemma ramp_up_0 (s : F) n : ramp_up s n 0 = #0.
Proof. done. Qed.

Lemma ramp_up_succ (s : F) n i :
  0 <= i -> ramp_up s n (i + 1) = ramp_up s n i ⊕ s ⊘ #n.
Proof.
  intros. unfold ramp_up.
  replace (Z.to_nat (i + 1)) with (Datatypes.S (Z.to_nat i)) by lia. done.
Qed.

Lemma ramp_dn_last (s : F) n : ramp_dn s n (n - 1) = fneg s ⊘ #n.
Proof. unfold ramp_dn. replace (n - 1 - (n - 1)) with 0 by lia. done. Qed.

Lemma ramp_dn_pred (s : F) n i :
  i + 1 <= n - 1 -> ramp_dn s n i = ramp_dn s n (i + 1) ⊕ fneg s ⊘ #n.
Proof.
  intros. unfold ramp_dn.
  replace (Z.to_nat (n - 1 - i)) with (Datatypes.S (Z.to_nat (n - 1 - (i + 1)))) by lia.
  done.
Qed.

Lemma FillUp_spec (t : list F) s n :
  1 <= n <= Z.of_nat (length t) ->
  length (FillUp t s n) = length t /\
  forall i, 0 <= i < n -> rd #0 (FillUp t s n) i = ramp_up s n i.
Proof.
  intros Hn. unfold FillUp.
  apply (for_up_ind (fun k t' =>
    length t' = length t /\ forall i, 0 <= i < k -> rd #0 t' i = ramp_up s n i)).
  - lia.
  - split; [apply length_wr|]. intros i Hi.
    replace i with 0 by lia. rewrite rd_wr_eq by lia. done.
  - intros k t' Hk [Hlen Hrd]. split; [by rewrite length_wr|].
    intros i Hi. destruct (decide (i = k)) as [->|Hne].
    + rewrite rd_wr_eq by lia. rewrite Hrd by lia.
      rewrite <- ramp_up_succ by lia. f_equal. lia.
    + rewrite rd_wr_ne by done. apply Hrd. lia.
Qed.

Lemma FillDn_spec (t : list F) s n :
  1 <= n <= Z.of_nat (length t) ->
  length (FillDn t s n) = length t /\
  forall i, 0 <= i < n -> rd #0 (FillDn t s n) i = ramp_dn s n i.
Proof.
  intros Hn. unfold FillDn.
  apply (for_down_ind (fun k t' =>
    length t' = length t /\ forall i, k <= i < n -> rd #0 t' i = ramp_dn s n i)).
  - lia.
  - split; [apply length_wr|]. intros i Hi.
    replace i with (n - 1) by lia. rewrite rd_wr_eq by lia.
    by rewrite ramp_dn_last.
  - intros k t' Hk [Hlen Hrd]. split; [by rewrite length_wr|].
    intros i Hi. destruct (decide (i = k)) as [->|Hne].
    + rewrite rd_wr_eq by lia. rewrite Hrd by lia.
      by rewrite <- ramp_dn_pred by lia.
    + rewrite rd_wr_ne by done. apply Hrd. lia.
Qed.

Lemma length_FillUp (t : list F) s n : length (FillUp t s n) = length t.
Proof.
  unfold FillUp. destruct (Z.le_gt_cases 1 n).
  - apply (for_up_ind (fun _ t' => length t' = length t)); [lia|apply length_wr|].
    intros. by rewrite length_wr.
  - rewrite for_up_nil by lia. apply length_wr.
Qed.

Lemma length_FillDn (t : list F) s n : length (FillDn t s n) = length t.
Proof.
  unfold FillDn. destruct (Z.le_gt_cases 0 (n - 2 + 1)).
  - apply (for_down_ind (fun _ t' => length t' = length t)); [lia|apply length_wr|].
    intros. by rewrite length_wr.
  - rewrite for_down_nil by lia. apply length_wr.
Qed.

(** The spline table after [initSplineTable]. *)
Lemma initSplineTable_spec (g : Generator F) n :
  0 <= n <= Z.of_nat (length (spline g)) ->
  length (spline (initSplineTable g n)) = length (spline g) /\
  forall i, 0 <= i < n ->
    rd #0 (spline (initSplineTable g n)) i = s_curve2 (#i ⊘ #n).
Proof.
  intros Hn. unfold initSplineTable. simpl.
  apply (for_up_ind (fun k sp =>
    length sp = length (spline g) /\
    forall i, 0 <= i < k -> rd #0 sp i = s_curve2 (#i ⊘ #n))).
  - lia.
  - split; [done|]. intros; lia.
  - intros k sp Hk [Hlen Hrd]. split; [by rewrite length_wr|].
    intros i Hi. destruct (decide (i = k)) as [->|Hne].
    + by rewrite rd_wr_eq by lia.
    + rewrite rd_wr_ne by done. apply Hrd. lia.
Qed.

End Tables.

(** ** One subcell *)

Section Subcell.
Context {F : Type} {ops : Scalar F} {hash : Murmur}.
#[local] Open Scope fl_scope.

Lemma same_config_refl (g : Generator F) : same_config g g.
Proof. done. Qed.

Lemma same_config_sym (g0 g : Generator F) : same_config g0 g -> same_config g g0.
Proof. unfold same_config. intros (-> & -> & ->). done. Qed.

Lemma same_config_trans (g0 g1 g2 : Generator F) :
  same_config g0 g1 -> same_config g1 g2 -> same_config g0 g2.
Proof. unfold same_config. intros (-> & -> & ->) (-> & -> & ->). done. Qed.

Lemma same_config_gradient (g0 g : Generator F) :
  same_config g0 g -> gradient_of g = gradient_of g0.
Proof. unfold gradient_of. intros (-> & -> & ->). done. Qed.

Lemma tables_fit_le (g : Generator F) n n' :
  n' <= n -> tables_fit g n -> tables_fit g n'.
Proof. unfold tables_fit. intros. intuition lia. Qed.

(** A call of [ExpHash] returns the value for the scale in force and
    leaves that scale in force. *)
Lemma ExpHash_pair (st : option F) x y m omega :
  exists st', ExpHash st x y m omega = (ExpHash_value (static_scale st m) x y m omega, st')
           /\ static_scale st' m = static_scale st m.
Proof.
  unfold ExpHash, ExpHash_value, ExpHash2.
  destruct (fltb (UniformHash y m) (clip omega #0 #1)); eauto.
Qed.

(** The tables after [initEdgeTables] are the fills of the gradients at the
    four corners. *)
Lemma initEdgeTables_eq (g : Generator F) x0 y0 n :
  let G := gradient_of g in
  exists st', static_scale st' hash_max = static_scale (exp_scale g) hash_max /\
    initEdgeTables g x0 y0 n =
      set_edge_tables g
        (FillUp (uax g) (G x0 y0).1 n) (FillDn (vax g) (G x0 (y0 + 1)).1 n)
        (FillUp (ubx g) (G (x0 + 1) y0).1 n) (FillDn (vbx g) (G (x0 + 1) (y0 + 1)).1 n)
        (FillUp (uay g) (G x0 y0).2 n) (FillUp (vay g) (G x0 (y0 + 1)).2 n)
        (FillDn (uby g) (G (x0 + 1) y0).2 n) (FillDn (vby g) (G (x0 + 1) (y0 + 1)).2 n)
        st'.
Proof.
  unfold initEdgeTables, gradient_of, corner_gradient.
  destruct (model g) as [|seed1 seed2 omega]; simpl.
  - exists (exp_scale g). done.
  - unfold initEdgeTables_terrain. cbv zeta. fold hash_max.
    destruct (ExpHash_pair (exp_scale g) (hash2 seed1 x0 y0)
      (hash2 seed2 x0 y0) hash_max omega) as (st1 & -> & E1).
    destruct (ExpHash_pair st1 (hash2 seed1 x0 (y0 + 1))
      (hash2 seed2 x0 (y0 + 1)) hash_max omega) as (st2 & -> & E2).
    destruct (ExpHash_pair st2 (hash2 seed1 (x0 + 1) y0)
      (hash2 seed2 (x0 + 1) y0) hash_max omega) as (st3 & -> & E3).
    destruct (ExpHash_pair st3 (hash2 seed1 (x0 + 1) (y0 + 1))
      (hash2 seed2 (x0 + 1) (y0 + 1)) hash_max omega) as (st4 & -> & E4).
    exists st4. split; [congruence|].
    rewrite E3, E2, E1. done.
Qed.

Lemma initEdgeTables_config (g : Generator F) x0 y0 n :
  same_config g (initEdgeTables g x0 y0 n).
Proof.
  destruct (initEdgeTables_eq g x0 y0 n) as (st' & Hst & ->). done.
Qed.

Lemma initEdgeTables_spline (g : Generator F) x0 y0 n :
  spline (initEdgeTables g x0 y0 n) = spline g.
Proof.
  destruct (initEdgeTables_eq g x0 y0 n) as (st' & Hst & ->). done.
Qed.

Lemma initEdgeTables_fit (g : Generator F) x0 y0 n k :
  tables_fit g k -> tables_fit (initEdgeTables g x0 y0 n) k.
Proof.
  destruct (initEdgeTables_eq g x0 y0 n) as (st' & Hst & ->).
  unfold tables_fit. simpl. rewrite !length_FillUp, !length_FillDn. done.
Qed.

Lemma initSplineTable_config (g : Generator F) n : same_config g (initSplineTable g n).
Proof. done. Qed.

Lemma initSplineTable_fit (g : Generator F) n k :
  0 <= n -> tables_fit g n -> tables_fit g k -> tables_fit (initSplineTable g n) k.
Proof.
  intros Hn Hfit. unfold tables_fit.
  destruct (initSplineTable_spec g n) as [-> _]; [|done].
  unfold tables_fit in Hfit. intuition lia.
Qed.

Lemma initSplineTable_ready (g : Generator F) n :
  0 <= n -> tables_fit g n -> spline_ready (initSplineTable g n) n.
Proof.
  intros Hn Hfit. unfold spline_ready.
  apply (initSplineTable_spec g n).
  unfold tables_fit in Hfit. intuition lia.
Qed.

(** One point of the subcell with corner [(x0, y0)]. *)
Lemma getNoise_initEdgeTables (g : Generator F) x0 y0 n i j :
  1 <= n -> tables_fit g n -> spline_ready g n ->
  0 <= i < n -> 0 <= j < n ->
  getNoise (initEdgeTables g x0 y0 n) i j = point_noise (gradient_of g) x0 y0 n i j.
Proof.
  intros Hn Hfit Hsp Hi Hj.
  pose proof (initEdgeTables_spline g x0 y0 n) as Hspl.
  destruct (initEdgeTables_eq g x0 y0 n) as (st' & _ & Heq).
  unfold getNoise. rewrite Hspl, !Hsp by done. rewrite Heq. simpl.
  destruct Hfit as (? & ? & ? & ? & ? & ? & ? & ? & ?).
  unfold point_noise.
  repeat match goal with
  | |- context [rd #0 (FillUp ?t ?s n) ?k] =>
      rewrite (proj2 (FillUp_spec t s n ltac:(lia)) k) by lia
  | |- context [rd #0 (FillDn ?t ?s n) ?k] =>
      rewrite (proj2 (FillDn_spec t s n ltac:(lia)) k) by lia
  end.
  done.
Qed.

(** The seam between the tile at [(x0, y0)] and its neighbour at
    [(x0 + 1, y0)]: what the first reads as the gradient of its corner
    [(x0 + 1, y0)] is what the second reads as the gradient of its own
    corner, whatever the two generator states held before. *)
Lemma seam_tables_agree (g g' : Generator F) x0 y0 n i :
  same_config g g' -> tables_fit g n -> tables_fit g' n -> 0 <= i < n ->
  rd #0 (ubx (initEdgeTables g x0 y0 n)) i =
    rd #0 (uax (initEdgeTables g' (x0 + 1) y0 n)) i /\
  rd #0 (vbx (initEdgeTables g x0 y0 n)) i =
    rd #0 (vax (initEdgeTables g' (x0 + 1) y0 n)) i.
Proof.
  intros Hcfg Hfit Hfit' Hi.
  destruct (initEdgeTables_eq g x0 y0 n) as (st1 & _ & ->).
  destruct (initEdgeTables_eq g' (x0 + 1) y0 n) as (st2 & _ & ->).
  rewrite (same_config_gradient g g' Hcfg). simpl.
  destruct Hfit as (? & ? & ? & ? & _), Hfit' as (? & ? & ? & ? & _).
  repeat match goal with
  | |- context [rd #0 (FillUp ?t ?s n) ?k] =>
      rewrite (proj2 (FillUp_spec t s n ltac:(lia)) k) by lia
  | |- context [rd #0 (FillDn ?t ?s n) ?k] =>
      rewrite (proj2 (FillDn_spec t s n ltac:(lia)) k) by lia
  end.
  done.
Qed.

End Subcell.

(** ** Writing a subcell *)

Section Stamp.
Context {F : Type} {ops : Scalar F}.
#[local] Open Scope fl_scope.

(** Entries outside the subcell keep their value. *)
Lemma stamp_frame (d : F) upd n i0 j0 (cell : Cell F) p q :
  ~ (i0 <= p < i0 + n /\ j0 <= q < j0 + n) ->
  rd2 d (stamp upd n i0 j0 cell) p q = rd2 d cell p q.
Proof.
  intros Hout. unfold stamp.
  apply (for_up_preserve (fun c => rd2 d c p q = rd2 d cell p q)); [done|].
  intros i c Hi Hc.
  apply (for_up_preserve (fun c => rd2 d c p q = rd2 d cell p q)); [done|].
  intros j c' Hj Hc'. rewrite rd2_wr2_ne by lia. done.
Qed.

Lemma length_stamp upd n i0 j0 (cell : Cell F) :
  length (stamp upd n i0 j0 cell) = length cell.
Proof.
  unfold stamp.
  apply (for_up_preserve (fun c => length c = length cell)); [done|].
  intros i c Hi Hc.
  apply (for_up_preserve (fun c => length c = length cell)); [done|].
  intros j c' Hj Hc'. by rewrite length_wr2.
Qed.

(** Entries inside are updated once, from their own previous value. *)
Lemma stamp_spec upd N n i0 j0 (cell : Cell F) :
  square N cell -> 0 <= i0 -> 0 <= j0 -> 0 <= n -> i0 + n <= N -> j0 + n <= N ->
  square N (stamp upd n i0 j0 cell) /\
  forall p q, i0 <= p < i0 + n -> j0 <= q < j0 + n ->
    rd2 #0 (stamp upd n i0 j0 cell) p q = upd (p - i0) (q - j0) (rd2 #0 cell p q).
Proof.
  intros Hsq Hi0 Hj0 Hn HiN HjN. unfold stamp.
  cut (let c := for_up 0 n (fun i => for_up 0 n (fun j c =>
         wr2 c (i0 + i) (j0 + j) (upd i j (rd2 #0 c (i0 + i) (j0 + j))))) cell in
       square N c /\
       (forall p q, i0 <= p < i0 + n -> j0 <= q < j0 + n ->
          rd2 #0 c p q = upd (p - i0) (q - j0) (rd2 #0 cell p q)) /\
       (forall p q, i0 + n <= p -> rd2 #0 c p q = rd2 #0 cell p q)).
  { simpl. tauto. }
  apply (for_up_ind (fun k c =>
    square N c /\
    (forall p q, i0 <= p < i0 + k -> j0 <= q < j0 + n ->
       rd2 #0 c p q = upd (p - i0) (q - j0) (rd2 #0 cell p q)) /\
    (forall p q, i0 + k <= p -> rd2 #0 c p q = rd2 #0 cell p q))); [done| |].
  { split; [done|]. split; [intros; lia|done]. }
  intros k c Hk (Hc & Hdone & Htodo).
  assert (Hrow :
    let c' := for_up 0 n (fun j c =>
      wr2 c (i0 + k) (j0 + j) (upd k j (rd2 #0 c (i0 + k) (j0 + j)))) c in
    square N c' /\
    (forall q, j0 <= q < j0 + n ->
       rd2 #0 c' (i0 + k) q = upd k (q - j0) (rd2 #0 c (i0 + k) q)) /\
    (forall p q, p <> i0 + k \/ j0 + n <= q -> rd2 #0 c' p q = rd2 #0 c p q)).
  { apply (for_up_ind (fun l c' =>
      square N c' /\
      (forall q, j0 <= q < j0 + l ->
         rd2 #0 c' (i0 + k) q = upd k (q - j0) (rd2 #0 c (i0 + k) q)) /\
      (forall p q, p <> i0 + k \/ j0 + l <= q -> rd2 #0 c' p q = rd2 #0 c p q)) 0 n);
      [done| |].
    { split; [done|]. split; [intros; lia|done]. }
    intros l c' Hl (Hc' & Hdone' & Htodo').
    split; [by apply square_wr2|]. split.
    - intros q Hq. rewrite (rd2_wr2 #0 N) by (done || lia).
      destruct (decide (i0 + k = i0 + k /\ q = j0 + l)) as [[_ ->]|Hne].
      + rewrite Htodo' by lia. f_equal. lia.
      + apply Hdone'. lia.
    - intros p q Hpq. rewrite rd2_wr2_ne by lia. apply Htodo'. lia. }
  simpl in Hrow. destruct Hrow as (Hc' & Hrowk & Hother).
  split; [done|]. split.
  - intros p q Hp Hq. destruct (decide (p = i0 + k)) as [->|Hne].
    + rewrite Hrowk by done. rewrite Htodo by lia. f_equal. lia.
    + rewrite Hother by lia. apply Hdone; lia.
  - intros p q Hp. rewrite Hother by lia. apply Htodo. lia.
Qed.

End Stamp.

(** ** One octave *)

Lemma block_div_mod n k p :
  0 < n -> k * n <= p < k * n + n -> p / n = k /\ p mod n = p - k * n.
Proof.
  intros Hn Hp.
  assert (Hq : p / n = k).
  { symmetry. apply (Z.div_unique p n k (p - k * n)); lia. }
  split; [done|]. rewrite Z.mod_eq by lia. rewrite Hq. lia.
Qed.

Section Octave.
Context {F : Type} {ops : Scalar F} {hash : Murmur}.
#[local] Open Scope fl_scope.

Lemma first_octave_subcells (g : Generator F) x y n r cell :
  first_octave g x y n r cell = subcells (fun v _ => v) g x y n r cell.
Proof. reflexivity. Qed.

Lemma next_octave_subcells (g : Generator F) x y n r scale cell :
  next_octave g x y n r scale cell =
  subcells (fun v old => old ⊕ scale ⊗ v) g x y n r cell.
Proof. reflexivity. Qed.

(** Entries outside the [r*n] by [r*n] corner keep their value. *)
Lemma subcells_frame (d : F) comb (g : Generator F) x y n r cell p q :
  ~ covered r n p q ->
  rd2 d (subcells comb g x y n r cell).2 p q = rd2 d cell p q.
Proof.
  intros Hout. unfold subcells.
  apply (for_up_preserve (fun s : Generator F * Cell F => rd2 d s.2 p q = rd2 d cell p q));
    [done|].
  intros i0 s Hi0 Hs.
  apply (for_up_preserve (fun s : Generator F * Cell F => rd2 d s.2 p q = rd2 d cell p q));
    [done|].
  intros j0 [g' c'] Hj0 Hs'. simpl in *.
  rewrite stamp_frame; [done|].
  intros [Hp Hq]. apply Hout. unfold covered. nia.
Qed.

Lemma length_subcells comb (g : Generator F) x y n r cell :
  length (subcells comb g x y n r cell).2 = length cell.
Proof.
  unfold subcells.
  apply (for_up_preserve (fun s : Generator F * Cell F => length s.2 = length cell));
    [done|].
  intros i0 s Hi0 Hs.
  apply (for_up_preserve (fun s : Generator F * Cell F => length s.2 = length cell));
    [done|].
  intros j0 [g' c'] Hj0 Hs'. simpl in *. by rewrite length_stamp.
Qed.

(** Every entry of the corner is combined once with the octave's value. *)
Lemma subcells_spec comb (g0 g : Generator F) x y n r cell N :
  1 <= n -> 0 <= r -> r * n <= N ->
  octave_inv g0 n N (g, cell) ->
  octave_inv g0 n N (subcells comb g x y n r cell) /\
  forall p q, covered r n p q ->
    rd2 #0 (subcells comb g x y n r cell).2 p q =
    comb (octave_value (gradient_of g0) x y n p q) (rd2 #0 cell p q).
Proof.
  intros Hn Hr HN Hinv. unfold subcells, covered.
  set (body := fun i0 => for_up 0 r (fun j0 '(g, cell) =>
      let g := initEdgeTables g (x + i0) (y + j0) n in
      (g, stamp (fun i j old => comb (getNoise g i j) old) n (i0 * n) (j0 * n) cell))).
  cut (let s := for_up 0 r body (g, cell) in
       octave_inv g0 n N s /\
       (forall p q, 0 <= p < r * n -> 0 <= q < r * n ->
          rd2 #0 s.2 p q = comb (octave_value (gradient_of g0) x y n p q) (rd2 #0 cell p q)) /\
       (forall p q, r * n <= p -> rd2 #0 s.2 p q = rd2 #0 cell p q)).
  { simpl. intros (? & ? & _). split; [done|]. intros p q [? ?]. auto. }
  apply (for_up_ind (fun k s =>
    octave_inv g0 n N s /\
    (forall p q, 0 <= p < k * n -> 0 <= q < r * n ->
       rd2 #0 s.2 p q = comb (octave_value (gradient_of g0) x y n p q) (rd2 #0 cell p q)) /\
    (forall p q, k * n <= p -> rd2 #0 s.2 p q = rd2 #0 cell p q))); [done| |].
  { split; [done|]. split; [intros; lia|done]. }
  intros k s Hk (Hs & Hdone & Htodo).
  assert (Hrow : let s' := body k s in
    octave_inv g0 n N s' /\
    (forall p q, k * n <= p < k * n + n -> 0 <= q < r * n ->
       rd2 #0 s'.2 p q = comb (octave_value (gradient_of g0) x y n p q) (rd2 #0 s.2 p q)) /\
    (forall p q, ~ (k * n <= p < k * n + n) \/ r * n <= q ->
       rd2 #0 s'.2 p q = rd2 #0 s.2 p q)).
  { unfold body.
    apply (for_up_ind (fun l s' =>
      octave_inv g0 n N s' /\
      (forall p q, k * n <= p < k * n + n -> 0 <= q < l * n ->
         rd2 #0 s'.2 p q = comb (octave_value (gradient_of g0) x y n p q) (rd2 #0 s.2 p q)) /\
      (forall p q, ~ (k * n <= p < k * n + n) \/ l * n <= q ->
         rd2 #0 s'.2 p q = rd2 #0 s.2 p q)) 0 r); [done| |].
    { split; [done|]. split; [intros; lia|done]. }
    intros l [g' c'] Hl ((Hcfg & Hfit & Hsp & Hsq) & Hdone' & Htodo'). simpl in *.
    destruct (stamp_spec
      (fun i j old => comb (getNoise (initEdgeTables g' (x + k) (y + l) n) i j) old)
      N n (k * n) (l * n) c') as [Hsq' Hin]; try done; try nia.
    split; [|split].
    - split; [|split; [|split]]; simpl; [| | |done].
      + eapply same_config_trans; [done|]. apply initEdgeTables_config.
      + by apply initEdgeTables_fit.
      + unfold spline_ready. by rewrite initEdgeTables_spline.
    - intros p q Hp Hq. destruct (decide (l * n <= q)) as [Hql|Hql].
      + rewrite Hin by lia. rewrite Htodo' by lia. f_equal.
        rewrite getNoise_initEdgeTables by (done || lia).
        rewrite (same_config_gradient g0 g') by done.
        unfold octave_value.
        destruct (block_div_mod n k p) as [-> ->]; [lia..|].
        destruct (block_div_mod n l q) as [-> ->]; [lia..|]. done.
      + rewrite stamp_frame by lia. apply Hdone'; lia.
    - intros p q Hpq. rewrite stamp_frame by lia. apply Htodo'. lia. }
  simpl in Hrow. destruct Hrow as (Hs' & Hrowk & Hother).
  split; [done|]. split.
  - intros p q Hp Hq. destruct (decide (k * n <= p)) as [Hpk|Hpk].
    + rewrite Hrowk by lia. by rewrite Htodo by lia.
    + rewrite Hother by lia. apply Hdone; lia.
  - intros p q Hp. rewrite Hother by lia. apply Htodo. lia.
Qed.

End Octave.

(** ** The octaves *)

Lemma skip_octaves_r_pos m0 n : 1 <= (skip_octaves m0 n).2.
Proof.
  unfold skip_octaves.
  apply (for_up_preserve (fun s : Z * Z => 1 <= s.2)); [simpl; lia|].
  intros i [n' r'] _ Hr. simpl in *. lia.
Qed.

Lemma quot2_bounds n : 0 <= n -> 0 <= n ÷ 2 /\ 2 * (n ÷ 2) <= n < 2 * (n ÷ 2) + 2.
Proof.
  intros Hn. rewrite Z.quot_div_nonneg by lia.
  pose proof (Z.div_mod n 2 ltac:(lia)). pose proof (Z.mod_pos_bound n 2 ltac:(lia)).
  lia.
Qed.

(** After the skip loop: [r] is at least one, and the [r*n] by [r*n] corner
    fits in an [n] by [n] cell. *)
Lemma skip_octaves_bounds m0 n :
  0 <= n ->
  1 <= (skip_octaves m0 n).2 /\ 0 <= (skip_octaves m0 n).1 <= n /\
  (skip_octaves m0 n).2 * (skip_octaves m0 n).1 <= n.
Proof.
  intros Hn. unfold skip_octaves.
  apply (for_up_preserve (fun s : Z * Z => 1 <= s.2 /\ 0 <= s.1 <= n /\ s.2 * s.1 <= n)).
  - simpl. lia.
  - intros i [n' r'] _ (Hr & Hn' & Hrn). simpl in *.
    pose proof (quot2_bounds n' ltac:(lia)). nia.
Qed.

(** The skip loop in closed form. *)
Lemma skip_octaves_closed m0 n :
  1 <= m0 -> skip_octaves m0 n = (n ÷ 2 ^ (m0 - 1), 2 ^ (m0 - 1)).
Proof.
  intros Hm. unfold skip_octaves.
  apply (for_up_ind (fun k s => s = (n ÷ 2 ^ (k - 1), 2 ^ (k - 1)))); [done| |].
  - simpl. by rewrite Z.quot_1_r.
  - intros k [n' r'] Hk [= -> ->].
    replace (k + 1 - 1) with (Z.succ (k - 1)) by lia.
    rewrite Z.pow_succ_r by lia. f_equal; [|lia].
    rewrite Z.quot_quot by lia. f_equal. lia.
Qed.

Lemma skip_octaves_none m0 n : m0 <= 1 -> skip_octaves m0 n = (n, 1).
Proof. intros. unfold skip_octaves. by rewrite for_up_nil. Qed.

Section Octaves.
Context {F : Type} {ops : Scalar F} {hash : Murmur}.
#[local] Open Scope fl_scope.

(** No octave reaches outside the corner of the octave before it. *)
Lemma accumulate_outside todo (G : Z -> Z -> F * F) x y n r scale p q v :
  0 <= n -> 0 <= r -> ~ covered r n p q ->
  accumulate todo G x y n r scale p q v = v.
Proof.
  revert x y n r scale. induction todo as [|todo IH]; intros x y n r scale Hn Hr Hout;
    [done|].
  simpl. destruct (Z.leb_spec 2 n); [|done].
  pose proof (quot2_bounds n Hn).
  assert (Hout' : ~ covered (r + r) (n ÷ 2) p q).
  { intros [Hp Hq]. apply Hout. unfold covered. nia. }
  rewrite decide_False by done. apply IH; [lia..|done].
Qed.

Lemma octave_loop_frame (d : F) todo (g : Generator F) x y n r scale cell p q :
  0 <= n -> 0 <= r -> ~ covered r n p q ->
  rd2 d (octave_loop todo g x y n r scale cell).1.2 p q = rd2 d cell p q.
Proof.
  revert g x y n r scale cell.
  induction todo as [|todo IH]; intros g x y n r scale cell Hn Hr Hout; [done|].
  simpl. destruct (Z.leb_spec 2 n); [|done].
  pose proof (quot2_bounds n Hn).
  assert (Hout' : ~ covered (r + r) (n ÷ 2) p q).
  { intros [Hp Hq]. apply Hout. unfold covered. nia. }
  rewrite next_octave_subcells.
  pose proof (subcells_frame d (fun v old => old ⊕ scale ⊗ half ⊗ v)
    (initSplineTable g (n ÷ 2)) (x + x) (y + y) (n ÷ 2) (r + r) cell p q Hout') as Hfr.
  destruct (subcells _ _ _ _ _ _ _) as [g2 c2]. simpl in Hfr.
  rewrite IH by (lia || done). done.
Qed.

Lemma octave_loop_scale todo (g : Generator F) x y n r scale cell :
  (octave_loop todo g x y n r scale cell).2 = final_scale todo n scale.
Proof.
  revert g x y n r scale cell.
  induction todo as [|todo IH]; intros g x y n r scale cell; [done|].
  simpl. destruct (2 <=? n); [|done].
  destruct (next_octave _ _ _ _ _ _ _) as [g2 c2]. apply IH.
Qed.

Lemma octave_loop_spec todo (g0 g : Generator F) x y n r scale cell N :
  1 <= n -> 0 <= r -> r * n <= N ->
  same_config g0 g -> tables_fit g n -> square N cell ->
  same_config g0 (octave_loop todo g x y n r scale cell).1.1 /\
  square N (octave_loop todo g x y n r scale cell).1.2 /\
  forall p q,
    rd2 #0 (octave_loop todo g x y n r scale cell).1.2 p q =
    accumulate todo (gradient_of g0) x y n r scale p q (rd2 #0 cell p q).
Proof.
  revert g x y n r scale cell.
  induction todo as [|todo IH]; intros g x y n r scale cell Hn Hr HN Hcfg Hfit Hsq;
    [done|].
  simpl. destruct (Z.leb_spec 2 n) as [Hn2|]; [|done].
  pose proof (quot2_bounds n ltac:(lia)) as Hq.
  rewrite next_octave_subcells.
  destruct (subcells_spec (fun v old => old ⊕ scale ⊗ half ⊗ v) g0
    (initSplineTable g (n ÷ 2)) (x + x) (y + y) (n ÷ 2) (r + r) cell N)
    as [(Hcfg2 & Hfit2 & _ & Hsq2) Hval]; [lia | lia | nia | |].
  { assert (tables_fit g (n ÷ 2)) by (eapply tables_fit_le; [|done]; lia).
    split; [|split; [|split]]; simpl; [done | | |done].
    - apply initSplineTable_fit; (lia || done).
    - apply initSplineTable_ready; (lia || done). }
  pose proof (fun p q => subcells_frame #0 (fun v old => old ⊕ scale ⊗ half ⊗ v)
    (initSplineTable g (n ÷ 2)) (x + x) (y + y) (n ÷ 2) (r + r) cell p q) as Hfr.
  destruct (subcells _ _ _ _ _ _ _) as [g2 c2]. simpl in *.
  destruct (IH g2 (x + x) (y + y) (n ÷ 2) (r + r) (scale ⊗ half) c2)
    as (Hcfg3 & Hsq3 & Hval3); [lia | lia | nia | done..|].
  split; [done|]. split; [done|].
  intros p q. rewrite Hval3. f_equal.
  destruct (decide (covered (r + r) (n ÷ 2) p q)); [by apply Hval | by apply Hfr].
Qed.

(** What [generate] leaves in the cell and returns, when it generates. *)
Lemma generate_spec (g : Generator F) x y m0 m1 n cell N :
  let n0 := (skip_octaves m0 n).1 in
  let r0 := (skip_octaves m0 n).2 in
  let todo := Z.to_nat (m1 - m0) in
  let G := gradient_of g in
  2 <= n0 -> 0 <= r0 -> r0 * n0 <= N ->
  tables_fit g n0 -> square N cell ->
  (generate g x y m0 m1 n cell).2 = sqrt2 ⊘ (#2 ⊖ final_scale todo n0 #1) /\
  same_config g (generate g x y m0 m1 n cell).1.1 /\
  square N (generate g x y m0 m1 n cell).1.2 /\
  forall p q,
    rd2 #0 (generate g x y m0 m1 n cell).1.2 p q =
    if decide (covered r0 n0 p q)
    then accumulate todo G x y n0 r0 #1 p q (octave_value G x y n0 p q)
    else rd2 #0 cell p q.
Proof.
  intros n0 r0 todo G Hn0 Hr0 HN Hfit Hsq. unfold generate.
  destruct (skip_octaves m0 n) as [n0' r0'] eqn:Hskip. simpl in n0, r0.
  subst n0 r0. destruct (Z.ltb_spec n0' 2); [lia|].
  rewrite first_octave_subcells.
  destruct (subcells_spec (fun v _ => v) g (initSplineTable g n0') x y n0' r0' cell N)
    as [(Hcfg1 & Hfit1 & _ & Hsq1) Hval1]; [lia | lia | lia | |].
  { split; [|split; [|split]]; simpl; [done | | |done].
    - apply initSplineTable_fit; (lia || done).
    - apply initSplineTable_ready; (lia || done). }
  pose proof (fun p q => subcells_frame #0 (fun v _ : F => v)
    (initSplineTable g n0') x y n0' r0' cell p q) as Hfr1.
  destruct (subcells _ _ _ _ _ _ _) as [g1 c1]. simpl in *.
  pose proof (octave_loop_scale todo g1 x y n0' r0' #1 c1) as Hscale.
  destruct (octave_loop_spec todo g g1 x y n0' r0' #1 c1 N)
    as (Hcfg2 & Hsq2 & Hval2); [lia | lia | lia | done..|].
  fold todo.
  destruct (octave_loop todo g1 x y n0' r0' #1 c1) as [[g2 c2] s2]. simpl in *.
  split; [by rewrite Hscale|]. split; [done|]. split; [done|].
  intros p q. rewrite Hval2. destruct (decide (covered r0' n0' p q)) as [Hc|Hc].
  - by rewrite Hval1.
  - rewrite Hfr1 by done. apply accumulate_outside; (lia || done).
Qed.

(** Outside the corner the first octave fills, [generate] changes nothing. *)
Lemma generate_outside (d : F) (g : Generator F) x y m0 m1 n cell p q :
  ~ covered (skip_octaves m0 n).2 (skip_octaves m0 n).1 p q ->
  rd2 d (generate g x y m0 m1 n cell).1.2 p q = rd2 d cell p q.
Proof.
  intros Hout. unfold generate.
  pose proof (skip_octaves_r_pos m0 n) as Hr.
  destruct (skip_octaves m0 n) as [n0 r0]. simpl in *.
  destruct (Z.ltb_spec n0 2); [done|].
  rewrite first_octave_subcells.
  pose proof (subcells_frame d (fun v _ : F => v)
    (initSplineTable g n0) x y n0 r0 cell p q Hout) as Hfr1.
  destruct (subcells _ _ _ _ _ _ _) as [g1 c1]. simpl in Hfr1.
  pose proof (octave_loop_frame d (Z.to_nat (m1 - m0)) g1 x y n0 r0 #1 c1 p q
    ltac:(lia) ltac:(lia) Hout) as Hfr2.
  destruct (octave_loop _ _ _ _ _ _ _ _) as [[g2 c2] s2]. simpl in *.
  congruence.
Qed.

End Octaves.

(** ** Two generators in the same configuration *)

Lemma skip_octaves_nonpos m0 n : n <= 0 -> (skip_octaves m0 n).1 <= 0.
Proof.
  intros Hn. unfold skip_octaves.
  apply (for_up_preserve (fun s : Z * Z => s.1 <= 0)); [done|].
  intros i [n' r'] _ Hn'. simpl in *.
  replace n' with (- (- n')) by lia. rewrite Z.quot_opp_l by lia.
  pose proof (quot2_bounds (- n') ltac:(lia)). lia.
Qed.

Lemma skip_octaves_valid m0 n :
  2 <= (skip_octaves m0 n).1 ->
  0 <= n /\ (skip_octaves m0 n).1 <= n /\
  (skip_octaves m0 n).2 * (skip_octaves m0 n).1 <= n.
Proof.
  intros Hn0.
  assert (0 <= n).
  { destruct (Z.le_gt_cases 0 n); [done|].
    pose proof (skip_octaves_nonpos m0 n ltac:(lia)). lia. }
  pose proof (skip_octaves_bounds m0 n ltac:(lia)). lia.
Qed.

Section Lockstep.
Context {F : Type} {ops : Scalar F} {hash : Murmur}.
#[local] Open Scope fl_scope.

Lemma subcells_twins comb (g1 g2 : Generator F) x y n r cell :
  twins n (g1, cell) (g2, cell) ->
  twins n (subcells comb g1 x y n r cell) (subcells comb g2 x y n r cell).
Proof.
  intros Htw. unfold subcells.
  apply (for_up_rel (twins n)); [done|]. intros i0 s1 s2 _ Hs.
  apply (for_up_rel (twins n)); [done|].
  intros j0 [g1' c1] [g2' c2] _ (Hc & Hcfg & Hf1 & Hf2 & Hs1 & Hs2).
  simpl in *. subst c2.
  split; [|split; [|split; [|split; [|split]]]]; simpl.
  - apply for_up_ext. intros i c Hi. apply for_up_ext. intros j c' Hj.
    rewrite !getNoise_initEdgeTables by (done || lia).
    by rewrite (same_config_gradient g1' g2').
  - eapply same_config_trans; [|apply initEdgeTables_config].
    eapply same_config_trans; [|exact Hcfg].
    apply same_config_sym, initEdgeTables_config.
  - by apply initEdgeTables_fit.
  - by apply initEdgeTables_fit.
  - unfold spline_ready. by rewrite initEdgeTables_spline.
  - unfold spline_ready. by rewrite initEdgeTables_spline.
Qed.

Lemma initSplineTable_twins (g1 g2 : Generator F) n n' cell :
  0 <= n' <= n -> same_config g1 g2 -> tables_fit g1 n -> tables_fit g2 n ->
  twins n' (initSplineTable g1 n', cell) (initSplineTable g2 n', cell).
Proof.
  intros Hn Hcfg Hf1 Hf2.
  assert (tables_fit g1 n') by (eapply tables_fit_le; [|done]; lia).
  assert (tables_fit g2 n') by (eapply tables_fit_le; [|done]; lia).
  split; [done|]. split; [done|].
  split; [apply initSplineTable_fit; (lia || done)|].
  split; [apply initSplineTable_fit; (lia || done)|].
  split; apply initSplineTable_ready; (lia || done).
Qed.

Lemma octave_loop_twins todo (g1 g2 : Generator F) x y n r scale cell :
  0 <= n -> same_config g1 g2 -> tables_fit g1 n -> tables_fit g2 n ->
  (octave_loop todo g1 x y n r scale cell).1.2 =
  (octave_loop todo g2 x y n r scale cell).1.2.
Proof.
  revert g1 g2 x y n r scale cell.
  induction todo as [|todo IH]; intros g1 g2 x y n r scale cell Hn Hcfg Hf1 Hf2; [done|].
  simpl. destruct (Z.leb_spec 2 n); [|done].
  pose proof (quot2_bounds n Hn).
  rewrite !next_octave_subcells.
  pose proof (subcells_twins (fun v old => old ⊕ scale ⊗ half ⊗ v)
    (initSplineTable g1 (n ÷ 2)) (initSplineTable g2 (n ÷ 2))
    (x + x) (y + y) (n ÷ 2) (r + r) cell) as Htw.
  destruct (subcells _ (initSplineTable g1 _) _ _ _ _ _) as [g1' c1].
  destruct (subcells _ (initSplineTable g2 _) _ _ _ _ _) as [g2' c2].
  destruct Htw as (Hc & Hcfg' & Hf1' & Hf2' & _).
  { apply (initSplineTable_twins g1 g2 n); (lia || done). }
  simpl in *. subst c2. apply IH; (lia || done).
Qed.

End Lockstep.

(** ** Properties of [generate] that hold in every arithmetic *)

Section Generate.
Context {F : Type} {ops : Scalar F} {hash : Murmur}.
#[local] Open Scope fl_scope.

(** C3.  When the skip loop leaves a granularity below 2, [generate]
    returns exactly [1.0f] and writes nothing: the cell (and the object)
    are what they were before the call. *)
Theorem generate_degenerate (g : Generator F) x y m0 m1 n cell :
  (skip_octaves m0 n).1 < 2 ->
  generate g x y m0 m1 n cell = (g, cell, #1).
Proof.
  intros Hn0. unfold generate.
  destruct (skip_octaves m0 n) as [n0 r0]. simpl in Hn0.
  destruct (Z.ltb_spec n0 2); [done|lia].
Qed.

(** C4.  The eight edge tables of the tile with corner [(x0, y0)] are
    filled from the values one function [G] of the lattice point takes
    at the tile's four corners; [G] is fixed by the seeds (and omega), and
    the call leaves it as it was.  Whichever tile refers to a lattice
    point therefore uses the same gradient for it. *)
Theorem corner_gradient_shared (g : Generator F) x0 y0 n :
  let G := gradient_of g in
  let g' := initEdgeTables g x0 y0 n in
  (uax g' = FillUp (uax g) (G x0 y0).1 n /\
   uay g' = FillUp (uay g) (G x0 y0).2 n) /\
  (vax g' = FillDn (vax g) (G x0 (y0 + 1)).1 n /\
   vay g' = FillUp (vay g) (G x0 (y0 + 1)).2 n) /\
  (ubx g' = FillUp (ubx g) (G (x0 + 1) y0).1 n /\
   uby g' = FillDn (uby g) (G (x0 + 1) y0).2 n) /\
  (vbx g' = FillDn (vbx g) (G (x0 + 1) (y0 + 1)).1 n /\
   vby g' = FillDn (vby g) (G (x0 + 1) (y0 + 1)).2 n) /\
  gradient_of g' = G.
Proof.
  intros G g'.
  pose proof (same_config_gradient g g' (initEdgeTables_config g x0 y0 n)) as HG.
  subst g'. destruct (initEdgeTables_eq g x0 y0 n) as (st' & _ & Heq).
  rewrite Heq in *. simpl. done.
Qed.

(** [generate] with granularity 2 and octaves 1 to 2, step by step. *)
Lemma generate_1_2_2 (g : Generator F) x y cell :
  generate g x y 1 2 2 cell =
    let '(g1, c1) := first_octave (initSplineTable g 2) x y 2 1 cell in
    let '(g2, c2) :=
      next_octave (initSplineTable g1 1) (x + x) (y + y) 1 2 (#1 ⊗ half) c1 in
    (g2, c2, sqrt2 ⊘ (#2 ⊖ #1 ⊗ half)).
Proof.
  unfold generate. rewrite skip_octaves_none by lia.
  change (2 <? 2) with false. cbv iota.
  destruct (first_octave _ _ _ _ _ _) as [g1 c1].
  change (Z.to_nat (2 - 1)) with 1%nat. cbn [octave_loop].
  change (2 <=? 2) with true. cbv iota.
  change (2 ÷ 2) with 1. change (1 + 1) with 2.
  destruct (next_octave _ _ _ _ _ _ _) as [g2 c2]. done.
Qed.

(** C6 fails when the granularity reaches 2.  With granularity 2 and one
    octave after the first, the loop test [n >= 2] passes on the
    granularity before the halving: the spline table is rebuilt and an
    octave is added at granularity 1 (fourth argument of [next_octave]),
    and the returned factor counts that octave. *)
Theorem generate_adds_octave_at_granularity_one (g : Generator F) x y cell :
  generate g x y 1 2 2 cell =
    let '(g1, c1) := first_octave (initSplineTable g 2) x y 2 1 cell in
    let '(g2, c2) :=
      next_octave (initSplineTable g1 1) (x + x) (y + y) 1 2 (#1 ⊗ half) c1 in
    (g2, c2, sqrt2 ⊘ (#2 ⊖ #1 ⊗ half)).
Proof. apply generate_1_2_2. Qed.

(** C7.  Two runs with the same arguments on the same cell, by generators
    with the same seeds and omega, leave the same cell and return the same
    factor, whatever the scratch tables held before each run. *)
Theorem generate_deterministic (g1 g2 : Generator F) x y m0 m1 n cell :
  same_config g1 g2 -> tables_fit g1 n -> tables_fit g2 n ->
  (generate g1 x y m0 m1 n cell).1.2 = (generate g2 x y m0 m1 n cell).1.2 /\
  (generate g1 x y m0 m1 n cell).2 = (generate g2 x y m0 m1 n cell).2.
Proof.
  intros Hcfg Hf1 Hf2. unfold generate.
  pose proof (skip_octaves_valid m0 n) as Hskip.
  destruct (skip_octaves m0 n) as [n0 r0]. simpl in Hskip.
  destruct (Z.ltb_spec n0 2) as [|Hn0]; [done|].
  specialize (Hskip Hn0). rewrite !first_octave_subcells.
  pose proof (subcells_twins (fun v _ => v)
    (initSplineTable g1 n0) (initSplineTable g2 n0) x y n0 r0 cell) as Htw.
  destruct (subcells _ (initSplineTable g1 _) _ _ _ _ _) as [g1' c1].
  destruct (subcells _ (initSplineTable g2 _) _ _ _ _ _) as [g2' c2].
  destruct Htw as (Hc & Hcfg' & Hf1' & Hf2' & _).
  { apply (initSplineTable_twins g1 g2 n); (lia || done). }
  simpl in *. subst c2.
  pose proof (octave_loop_twins (Z.to_nat (m1 - m0)) g1' g2' x y n0 r0 #1 c1
    ltac:(lia) Hcfg' Hf1' Hf2') as Hcell.
  pose proof (octave_loop_scale (Z.to_nat (m1 - m0)) g1' x y n0 r0 #1 c1) as Hs1.
  pose proof (octave_loop_scale (Z.to_nat (m1 - m0)) g2' x y n0 r0 #1 c1) as Hs2.
  destruct (octave_loop _ g1' _ _ _ _ _ _) as [[g1'' c1''] s1].
  destruct (octave_loop _ g2' _ _ _ _ _ _) as [[g2'' c2''] s2].
  simpl in *. subst. done.
Qed.

(** C9.  Two runs that differ only in what the cell held before agree on
    every entry of the corner the first generated octave writes, and on
    the returned factor. *)
Theorem first_octave_overwrites (g : Generator F) x y m0 m1 n cell1 cell2 :
  2 <= (skip_octaves m0 n).1 ->
  tables_fit g n -> square n cell1 -> square n cell2 ->
  (forall p q, covered (skip_octaves m0 n).2 (skip_octaves m0 n).1 p q ->
     rd2 #0 (generate g x y m0 m1 n cell1).1.2 p q =
     rd2 #0 (generate g x y m0 m1 n cell2).1.2 p q) /\
  (generate g x y m0 m1 n cell1).2 = (generate g x y m0 m1 n cell2).2.
Proof.
  intros Hn0 Hfit Hsq1 Hsq2.
  destruct (skip_octaves_valid m0 n Hn0) as (Hn & Hle & Hrn).
  pose proof (skip_octaves_r_pos m0 n) as Hr.
  assert (Hfit0 : tables_fit g (skip_octaves m0 n).1) by (by eapply tables_fit_le).
  destruct (generate_spec g x y m0 m1 n cell1 n) as (Hs1 & _ & _ & Hv1);
    [lia | lia | lia | done..|].
  destruct (generate_spec g x y m0 m1 n cell2 n) as (Hs2 & _ & _ & Hv2);
    [lia | lia | lia | done..|].
  split; [|congruence].
  intros p q Hc. rewrite Hv1, Hv2. by rewrite !decide_True by done.
Qed.

(** C10, with the border for the granularities that are not multiples of
    [2^(m0-1)].  In a call that generates, let [n0] and [r0] be the
    granularity and the subcell count that the skip loop leaves
    ([n ÷ 2^(m0-1)] and [2^(m0-1)] when [m0 >= 1]).  An entry whose row or
    column index is at least [r0 * n0] holds after the call what it held
    before, so no octave writes there.  When [n] is not a multiple of
    [2^(m0-1)], [r0 * n0] is below [n]: the [n] by [n] cell has such a
    border.  (When [n] is a multiple of [2^(m0-1)], power of two or not,
    [r0 * n0 = n] and there is none.) *)
Theorem generate_border_untouched (d : F) (g : Generator F) x y m0 m1 n cell :
  2 <= (skip_octaves m0 n).1 ->
  (forall p q,
     (skip_octaves m0 n).2 * (skip_octaves m0 n).1 <= p \/
     (skip_octaves m0 n).2 * (skip_octaves m0 n).1 <= q ->
     rd2 d (generate g x y m0 m1 n cell).1.2 p q = rd2 d cell p q) /\
  (1 <= m0 ->
     (skip_octaves m0 n).1 = n ÷ 2 ^ (m0 - 1) /\ (skip_octaves m0 n).2 = 2 ^ (m0 - 1)) /\
  (1 <= m0 -> n mod 2 ^ (m0 - 1) <> 0 ->
     (skip_octaves m0 n).2 * (skip_octaves m0 n).1 < n).
Proof.
  intros Hn0.
  destruct (skip_octaves_valid m0 n Hn0) as (Hn & Hle & Hrn).
  pose proof (skip_octaves_r_pos m0 n) as Hr.
  split; [|split].
  - intros p q Hpq. apply generate_outside. unfold covered. lia.
  - intros Hm. by rewrite skip_octaves_closed.
  - intros Hm Hmod. rewrite skip_octaves_closed in * by done.
    simpl in *. rewrite Z.quot_div_nonneg by lia.
    pose proof (Z.div_mod n (2 ^ (m0 - 1)) ltac:(lia)).
    pose proof (Z.mod_pos_bound n (2 ^ (m0 - 1)) ltac:(lia)). lia.
Qed.

End Generate.

(** C10 for every granularity that is not a power of two times [2^(m0-1)]
    fails: 6 is not a power of two times 2, yet with granularity 6 and first
    octave 2 the skip loop leaves granularity 3 and 2 subcells a side, the
    first octave fills all of the 6 by 6 cell, and no entry of it has an
    index of 6 or more. *)
Lemma even_granularity_has_no_border : ~ border_unless_power_of_two.
Proof.
  intros Hb.
  destruct (Hb 2 6) as (p & q & Hp & Hq & Hpq).
  - lia.
  - vm_compute. discriminate.
  - intros j Hj Heq. change (2 ^ (2 - 1)) with 2 in Heq.
    destruct (decide (j = 0)) as [->|]; [simpl in Heq; lia|].
    destruct (decide (j = 1)) as [->|]; [simpl in Heq; lia|].
    pose proof (Z.pow_le_mono_r 2 2 j ltac:(lia) ltac:(lia)) as Hpow.
    change (2 ^ 2) with 4 in Hpow. lia.
  - change ((skip_octaves 2 6).2 * (skip_octaves 2 6).1) with 6 in Hpq. lia.
Qed.

(** ** Real arithmetic: the spline *)

Section RealSpline.
#[local] Open Scope R_scope.

Lemma Rle_by_diff (a b : R) : 0 <= b - a -> a <= b.
Proof. lra. Qed.

Lemma Rlt_by_diff (a b : R) : 0 < b - a -> a < b.
Proof. lra. Qed.

Lemma s_curve2_R (t : R) : s_curve2 t = 6 * t ^ 5 - 15 * t ^ 4 + 10 * t ^ 3.
Proof. unfold s_curve2. real_ops. ring. Qed.

(** C8.  In real arithmetic, entry [i] of the spline table that
    [initSplineTable g n] leaves is the quintic [6t^5 - 15t^4 + 10t^3] at
    [t = i/n], for every [i] below the granularity [n >= 1] (the table
    having been allocated with at least [n] entries). *)
Theorem spline_table_quintic (g : Generator R) (n i : Z) :
  (1 <= n <= Z.of_nat (length (spline g)))%Z -> (0 <= i < n)%Z ->
  rd 0 (spline (initSplineTable g n)) i =
    6 * (IZR i / IZR n) ^ 5 - 15 * (IZR i / IZR n) ^ 4 + 10 * (IZR i / IZR n) ^ 3.
Proof.
  intros Hn Hi.
  destruct (initSplineTable_spec g n ltac:(lia)) as [_ Hrd].
  rewrite <- s_curve2_R. apply (Hrd i Hi).
Qed.

Lemma smooth_range (s : R) :
  0 <= s <= 1 -> 0 <= s_curve2 s <= 1.
Proof.
  intros Hs. rewrite s_curve2_R.
  assert (H1 : 6 * s ^ 5 - 15 * s ^ 4 + 10 * s ^ 3 =
               s ^ 3 * (6 * (s - 5 / 4) ^ 2 + 5 / 8)) by field.
  assert (H2 : 1 - (6 * s ^ 5 - 15 * s ^ 4 + 10 * s ^ 3) =
               (1 - s) ^ 3 * (6 * ((1 - s) - 5 / 4) ^ 2 + 5 / 8)) by field.
  assert (0 <= s ^ 3) by (apply pow_le; lra).
  assert (0 <= (1 - s) ^ 3) by (apply pow_le; lra).
  assert (0 <= (s - 5 / 4) ^ 2) by (apply pow2_ge_0).
  assert (0 <= (1 - s - 5 / 4) ^ 2) by (apply pow2_ge_0).
  split; [rewrite H1; nra|].
  apply Rle_by_diff. rewrite H2. nra.
Qed.

(** The weighted squared distances to the two ends of an edge. *)
Lemma smooth_spread (s : R) :
  0 <= s <= 1 ->
  (1 - s_curve2 s) * s ^ 2 + s_curve2 s * (1 - s) ^ 2 <= 1 / 4.
Proof.
  intros Hs. rewrite s_curve2_R.
  assert (Heq : 1 / 4 - ((1 - (6 * s ^ 5 - 15 * s ^ 4 + 10 * s ^ 3)) * s ^ 2
                  + (6 * s ^ 5 - 15 * s ^ 4 + 10 * s ^ 3) * (1 - s) ^ 2) =
                (1 - 2 * s) ^ 2 *
                  (3 * (s * (1 - s)) ^ 2 + s * (1 - s) + 1 / 4)) by field.
  apply Rle_by_diff. rewrite Heq.
  assert (0 <= (1 - 2 * s) ^ 2) by apply pow2_ge_0.
  assert (0 <= (s * (1 - s)) ^ 2) by apply pow2_ge_0.
  assert (0 <= s * (1 - s)) by nra.
  apply Rmult_le_pos; lra.
Qed.

Lemma lerp_sq (t a b : R) :
  0 <= t <= 1 -> (lerp t a b) ^ 2 <= (1 - t) * a ^ 2 + t * b ^ 2.
Proof.
  intros Ht. unfold lerp. real_ops.
  assert (Heq : (1 - t) * a ^ 2 + t * b ^ 2 - (a + t * (b - a)) ^ 2 =
                t * (1 - t) * (a - b) ^ 2) by ring.
  apply Rle_by_diff. rewrite Heq.
  assert (0 <= (a - b) ^ 2) by apply pow2_ge_0.
  assert (0 <= t * (1 - t)) by nra.
  by apply Rmult_le_pos.
Qed.

(** Cauchy-Schwarz, for a gradient no longer than one. *)
Lemma dot_sq (a b dx dy : R) :
  a ^ 2 + b ^ 2 <= 1 -> (dx * a + dy * b) ^ 2 <= dx ^ 2 + dy ^ 2.
Proof.
  intros Hg.
  assert (Heq : (dx * a + dy * b) ^ 2 + (dx * b - dy * a) ^ 2 =
                (a ^ 2 + b ^ 2) * (dx ^ 2 + dy ^ 2)) by ring.
  assert (0 <= (dx * b - dy * a) ^ 2) by apply pow2_ge_0.
  assert (0 <= dx ^ 2) by apply pow2_ge_0.
  assert (0 <= dy ^ 2) by apply pow2_ge_0.
  nra.
Qed.

(** One octave of lattice-gradient noise is at most [1/sqrt 2] in size:
    its square is at most one half. *)
Lemma lattice_noise_sq (a0 b0 a1 b1 a2 b2 a3 b3 s t : R) :
  0 <= s <= 1 -> 0 <= t <= 1 ->
  a0 ^ 2 + b0 ^ 2 <= 1 -> a1 ^ 2 + b1 ^ 2 <= 1 ->
  a2 ^ 2 + b2 ^ 2 <= 1 -> a3 ^ 2 + b3 ^ 2 <= 1 ->
  (lerp (s_curve2 t)
     (lerp (s_curve2 s) (s * a0 + t * b0) ((s - 1) * a1 + t * b1))
     (lerp (s_curve2 s) (s * a2 + (t - 1) * b2) ((s - 1) * a3 + (t - 1) * b3))) ^ 2
  <= 1 / 2.
Proof.
  intros Hs Ht H0 H1 H2 H3.
  pose proof (smooth_range s Hs) as HS. pose proof (smooth_range t Ht) as HT.
  pose proof (smooth_spread s Hs) as HSs. pose proof (smooth_spread t Ht) as HTs.
  set (S := s_curve2 s) in *. set (T := s_curve2 t) in *.
  pose proof (dot_sq a0 b0 s t H0) as D0.
  pose proof (dot_sq a1 b1 (s - 1) t H1) as D1.
  pose proof (dot_sq a2 b2 s (t - 1) H2) as D2.
  pose proof (dot_sq a3 b3 (s - 1) (t - 1) H3) as D3.
  set (u0 := s * a0 + t * b0) in *. set (u1 := (s - 1) * a1 + t * b1) in *.
  set (u2 := s * a2 + (t - 1) * b2) in *.
  set (u3 := (s - 1) * a3 + (t - 1) * b3) in *.
  pose proof (lerp_sq S u0 u1 HS) as LA. pose proof (lerp_sq S u2 u3 HS) as LB.
  set (A := lerp S u0 u1) in *. set (B := lerp S u2 u3) in *.
  pose proof (lerp_sq T A B HT) as LT.
  eapply Rle_trans; [exact LT|].
  assert (HA : A ^ 2 <= (1 - S) * (s ^ 2 + t ^ 2) + S * ((s - 1) ^ 2 + t ^ 2)).
  { eapply Rle_trans; [exact LA|].
    apply Rplus_le_compat; apply Rmult_le_compat_l; lra. }
  assert (HB : B ^ 2 <= (1 - S) * (s ^ 2 + (t - 1) ^ 2)
                        + S * ((s - 1) ^ 2 + (t - 1) ^ 2)).
  { eapply Rle_trans; [exact LB|].
    apply Rplus_le_compat; apply Rmult_le_compat_l; lra. }
  eapply Rle_trans.
  { apply Rplus_le_compat; apply Rmult_le_compat_l; [|exact HA| |exact HB]; lra. }
  replace ((1 - T) * ((1 - S) * (s ^ 2 + t ^ 2) + S * ((s - 1) ^ 2 + t ^ 2)) +
           T * ((1 - S) * (s ^ 2 + (t - 1) ^ 2) + S * ((s - 1) ^ 2 + (t - 1) ^ 2)))
    with (((1 - S) * s ^ 2 + S * (1 - s) ^ 2) + ((1 - T) * t ^ 2 + T * (1 - t) ^ 2))
    by ring.
  lra.
Qed.

End RealSpline.

(** ** Real arithmetic: one octave is at most [1/sqrt 2] *)

Section RealNoise.
Context {hash : Murmur}.
#[local] Open Scope R_scope.

Lemma iter_add (k : nat) (d v0 : R) :
  Nat.iter k (fun v => v + d) v0 = v0 + INR k * d.
Proof.
  induction k as [|k IH]; [simpl; lra|].
  rewrite S_INR. simpl Nat.iter. rewrite IH. lra.
Qed.

Lemma ramp_up_R (s : R) (n i : Z) :
  (0 <= i)%Z -> ramp_up s n i = IZR i * (s / IZR n).
Proof.
  intros Hi. unfold ramp_up. real_ops. rewrite iter_add.
  rewrite INR_IZR_INZ, Z2Nat.id by lia. lra.
Qed.

Lemma ramp_dn_R (s : R) (n i : Z) :
  (i <= n - 1)%Z -> ramp_dn s n i = (IZR i - IZR n) * (s / IZR n).
Proof.
  intros Hi. unfold ramp_dn. real_ops. rewrite iter_add.
  rewrite INR_IZR_INZ, Z2Nat.id by lia.
  rewrite !minus_IZR. unfold Rdiv. lra.
Qed.

(** The values along the two edges of a subcell that meet at its corner
    [(x0, y0)]. *)
Lemma point_noise_row0 (G : Z -> Z -> R * R) (x0 y0 n j : Z) :
  (1 <= n)%Z -> (0 <= j < n)%Z ->
  point_noise G x0 y0 n 0 j =
    IZR j / IZR n * (G x0 y0).1 +
    s_curve2 (IZR j / IZR n) *
      ((IZR j - IZR n) / IZR n * (G x0 (y0 + 1)%Z).1 - IZR j / IZR n * (G x0 y0).1).
Proof.
  intros Hn Hj. assert (IZR n <> 0) by (apply not_0_IZR; lia).
  unfold point_noise. rewrite !ramp_up_R, !ramp_dn_R by lia.
  unfold lerp. real_ops.
  replace (s_curve2 (0 / IZR n)) with 0
    by (unfold s_curve2; real_ops; unfold Rdiv; ring).
  field. done.
Qed.

Lemma point_noise_col0 (G : Z -> Z -> R * R) (x0 y0 n i : Z) :
  (1 <= n)%Z -> (0 <= i < n)%Z ->
  point_noise G x0 y0 n i 0 =
    IZR i / IZR n * (G x0 y0).2 +
    s_curve2 (IZR i / IZR n) *
      ((IZR i - IZR n) / IZR n * (G (x0 + 1)%Z y0).2 - IZR i / IZR n * (G x0 y0).2).
Proof.
  intros Hn Hi. assert (IZR n <> 0) by (apply not_0_IZR; lia).
  unfold point_noise. rewrite !ramp_up_R, !ramp_dn_R by lia.
  unfold lerp. real_ops.
  replace (s_curve2 (0 / IZR n)) with 0
    by (unfold s_curve2; real_ops; unfold Rdiv; ring).
  field. done.
Qed.

(** An octave at granularity 1 is zero everywhere. *)
Lemma octave_value_granularity_one (G : Z -> Z -> R * R) x y p q :
  octave_value G x y 1 p q = 0.
Proof.
  unfold octave_value. rewrite !Z.mod_1_r.
  rewrite point_noise_row0 by lia. unfold s_curve2. real_ops. lra.
Qed.

Lemma point_noise_sq (G : Z -> Z -> R * R) (x0 y0 n i j : Z) :
  unit_bounded G -> (1 <= n)%Z -> (0 <= i < n)%Z -> (0 <= j < n)%Z ->
  (point_noise G x0 y0 n i j) ^ 2 <= 1 / 2.
Proof.
  intros HG Hn Hi Hj. unfold point_noise.
  rewrite !ramp_up_R, !ramp_dn_R by lia. real_ops.
  assert (Hn0 : IZR n <> 0) by (apply not_0_IZR; lia).
  assert (Hn1 : 0 < IZR n) by (apply IZR_lt; lia).
  set (s := IZR j / IZR n). set (t := IZR i / IZR n).
  assert (Hs : 0 <= s <= 1).
  { unfold s. split.
    - apply Rmult_le_pos; [apply IZR_le; lia | left; by apply Rinv_0_lt_compat].
    - apply Rle_by_diff. replace (1 - IZR j / IZR n) with ((IZR n - IZR j) / IZR n)
        by (by field).
      apply Rmult_le_pos; [|left; by apply Rinv_0_lt_compat].
      rewrite <- minus_IZR. apply IZR_le. lia. }
  assert (Ht : 0 <= t <= 1).
  { unfold t. split.
    - apply Rmult_le_pos; [apply IZR_le; lia | left; by apply Rinv_0_lt_compat].
    - apply Rle_by_diff. replace (1 - IZR i / IZR n) with ((IZR n - IZR i) / IZR n)
        by (by field).
      apply Rmult_le_pos; [|left; by apply Rinv_0_lt_compat].
      rewrite <- minus_IZR. apply IZR_le. lia. }
  pose proof (lattice_noise_sq
    (G x0 y0).1 (G x0 y0).2 (G x0 (y0 + 1)%Z).1 (G x0 (y0 + 1)%Z).2
    (G (x0 + 1)%Z y0).1 (G (x0 + 1)%Z y0).2
    (G (x0 + 1)%Z (y0 + 1)%Z).1 (G (x0 + 1)%Z (y0 + 1)%Z).2 s t Hs Ht
    (HG _ _) (HG _ _) (HG _ _) (HG _ _)) as Hb.
  replace (IZR j * ((G x0 y0).1 / IZR n)) with (s * (G x0 y0).1)
    by (unfold s; by field).
  replace (IZR i * ((G x0 y0).2 / IZR n)) with (t * (G x0 y0).2)
    by (unfold t; by field).
  replace ((IZR j - IZR n) * ((G x0 (y0 + 1)%Z).1 / IZR n))
    with ((s - 1) * (G x0 (y0 + 1)%Z).1) by (unfold s; by field).
  replace (IZR i * ((G x0 (y0 + 1)%Z).2 / IZR n)) with (t * (G x0 (y0 + 1)%Z).2)
    by (unfold t; by field).
  replace (IZR j * ((G (x0 + 1)%Z y0).1 / IZR n)) with (s * (G (x0 + 1)%Z y0).1)
    by (unfold s; by field).
  replace ((IZR i - IZR n) * ((G (x0 + 1)%Z y0).2 / IZR n))
    with ((t - 1) * (G (x0 + 1)%Z y0).2) by (unfold t; by field).
  replace ((IZR j - IZR n) * ((G (x0 + 1)%Z (y0 + 1)%Z).1 / IZR n))
    with ((s - 1) * (G (x0 + 1)%Z (y0 + 1)%Z).1) by (unfold s; by field).
  replace ((IZR i - IZR n) * ((G (x0 + 1)%Z (y0 + 1)%Z).2 / IZR n))
    with ((t - 1) * (G (x0 + 1)%Z (y0 + 1)%Z).2) by (unfold t; by field).
  exact Hb.
Qed.

Lemma octave_value_sq (G : Z -> Z -> R * R) (x y n p q : Z) :
  unit_bounded G -> (1 <= n)%Z -> (octave_value G x y n p q) ^ 2 <= 1 / 2.
Proof.
  intros HG Hn. unfold octave_value.
  apply point_noise_sq; [done | done | apply Z.mod_pos_bound; lia..].
Qed.

(** [sqrt 2 / 2], the bound of one octave. *)
Lemma half_sqrt2 : 0 < sqrt 2 / 2 /\ (sqrt 2 / 2) ^ 2 = 1 / 2.
Proof.
  pose proof (sqrt_lt_R0 2 ltac:(lra)). pose proof (sqrt_sqrt 2 ltac:(lra)).
  split; [lra|]. simpl. nra.
Qed.

Lemma abs_le_of_sq (v c : R) : 0 <= c -> v ^ 2 <= c ^ 2 -> Rabs v <= c.
Proof.
  intros Hc Hsq. apply Rabs_le. simpl in Hsq. split; nra.
Qed.

Lemma abs_le_inv (v c : R) : Rabs v <= c -> - c <= v <= c.
Proof. unfold Rabs. destruct (Rcase_abs v); lra. Qed.

Lemma octave_value_abs (G : Z -> Z -> R * R) (x y n p q : Z) :
  unit_bounded G -> (1 <= n)%Z -> Rabs (octave_value G x y n p q) <= sqrt 2 / 2.
Proof.
  intros HG Hn. destruct half_sqrt2 as [Hpos Hsq].
  apply abs_le_of_sq; [lra|]. rewrite Hsq. by apply octave_value_sq.
Qed.

Lemma final_scale_range (todo : nat) (n : Z) (scale : R) :
  0 < scale <= 1 -> 0 < final_scale todo n scale <= 1.
Proof.
  revert n scale. induction todo as [|todo IH]; intros n scale Hs; [done|].
  cbn [final_scale]. destruct (2 <=? n)%Z; [|done]. apply IH. real_ops. lra.
Qed.

(** Persistence 0.5: the octaves up to scale [s] sum to at most
    [(2 - s) / sqrt 2]. *)
Lemma accumulate_abs (G : Z -> Z -> R * R) todo (x y n r : Z) (scale : R)
    (p q : Z) (v : R) :
  unit_bounded G -> 0 < scale <= 1 ->
  Rabs v <= (2 - scale) * (sqrt 2 / 2) ->
  Rabs (accumulate todo G x y n r scale p q v)
    <= (2 - final_scale todo n scale) * (sqrt 2 / 2).
Proof.
  intros HG. revert x y n r scale v.
  induction todo as [|todo IH]; intros x y n r scale v Hs Hv; [done|].
  cbn [accumulate final_scale]. destruct (Z.leb_spec 2 n) as [Hn|]; [|done].
  destruct half_sqrt2 as [Hpos _].
  assert (1 <= n ÷ 2)%Z.
  { rewrite Z.quot_div_nonneg by lia. apply Z.div_le_lower_bound; lia. }
  apply IH; [real_ops; lra|]. real_ops.
  destruct (decide (covered (r + r) (n ÷ 2) p q)).
  - eapply Rle_trans; [apply Rabs_triang|].
    rewrite Rabs_mult, (Rabs_pos_eq (scale * / 2)) by lra.
    pose proof (octave_value_abs G (x + x) (y + y) (n ÷ 2) p q HG ltac:(lia)) as Ho.
    apply (Rmult_le_compat_l (scale * / 2)) in Ho; lra.
  - nra.
Qed.

End RealNoise.

(** ** Real arithmetic: the renormalised cell *)

Lemma square_replicate {A} (N : Z) (v : A) :
  0 <= N -> square N (replicate (Z.to_nat N) (replicate (Z.to_nat N) v)).
Proof.
  intros HN. split; [rewrite length_replicate; lia|].
  intros i row [-> _]%lookup_replicate. rewrite length_replicate. lia.
Qed.

Lemma tables_fit_new {F} (junk : F) (n s k : Z) (md : Model F) (st : option F) :
  k <= n ->
  tables_fit
    (let t := replicate (Z.to_nat n) junk in mkGenerator t t t t t t t t t s md st) k.
Proof.
  intros Hk. unfold tables_fit. simpl. rewrite length_replicate. lia.
Qed.

Section RealBound.
Context {hash : Murmur}.
#[local] Open Scope R_scope.

Lemma hash2_range (sd x y : Z) : (0 <= hash2 sd x y <= hash_max)%Z.
Proof.
  unfold hash2, uint32, hash_max.
  pose proof (Z.mod_pos_bound
    (MurmurHash3_32 (Z.lor (Z.shiftl (x mod 2 ^ 32) 32) (y mod 2 ^ 32)) 8 sd)
    (2 ^ 32) ltac:(lia)).
  lia.
Qed.

Lemma frac_range (a b : R) : 0 <= a <= b -> 0 < b -> 0 <= a / b <= 1.
Proof.
  intros Ha Hb. pose proof (Rinv_0_lt_compat b Hb) as Hi. split.
  - apply Rmult_le_pos; lra.
  - apply Rle_by_diff. replace (1 - a / b) with ((b - a) * / b) by (field; lra).
    apply Rmult_le_pos; lra.
Qed.

Lemma ln_le_mono (a b : R) : 0 < a -> a <= b -> ln a <= ln b.
Proof.
  intros Ha [Hlt| ->]; [|lra]. left. by apply ln_increasing.
Qed.

(** With the scale of [max = 0xFFFFFFFF], the magnitude of a gradient is
    between 0 and 1. *)
Lemma ExpHash_value_range (x y : Z) (omega : R) :
  (0 <= x <= hash_max)%Z ->
  0 <= ExpHash_value (ExpHash_scale_init hash_max) x y hash_max omega <= 1.
Proof.
  intros Hx. unfold ExpHash_value, UniformHash, ExpHash_scale_init.
  assert (Hx0 : 0 <= IZR x) by (apply IZR_le; lia).
  assert (Hx1 : IZR x <= IZR hash_max) by (apply IZR_le; lia).
  unfold hash_max in *. real_ops.
  destruct (Rltb _ _).
  - apply frac_range; lra.
  - assert (HL : 0 < ln (/ 2 * (4294967295 + 2))).
    { rewrite <- ln_1. apply ln_increasing; lra. }
    assert (Hl0 : 0 <= ln (/ 2 * IZR x + 1)).
    { rewrite <- ln_1. apply ln_le_mono; lra. }
    assert (Hl1 : ln (/ 2 * IZR x + 1) <= ln (/ 2 * (4294967295 + 2))).
    { apply ln_le_mono; lra. }
    pose proof (frac_range _ _ (conj Hl0 Hl1) HL) as Hf.
    replace (- (1 / ln (/ 2 * (4294967295 + 2))) * ln (/ 2 * IZR x + 1) + 1)
      with (1 - ln (/ 2 * IZR x + 1) / ln (/ 2 * (4294967295 + 2)))
      by (field; lra).
    lra.
Qed.

(** Strictly between the two ends of the range, and with the scale of its
    own [m], the mixture value is strictly between 0 and 1. *)
Lemma ExpHash_value_interior (x y m : Z) (omega : R) :
  (0 < x < m)%Z ->
  0 < ExpHash_value (ExpHash_scale_init m) x y m omega < 1.
Proof.
  intros Hx. unfold ExpHash_value, UniformHash, ExpHash_scale_init.
  assert (Hx0 : 1 <= IZR x) by (apply IZR_le; lia).
  assert (Hx1 : IZR x + 1 <= IZR m) by (rewrite <- plus_IZR; apply IZR_le; lia).
  real_ops. destruct (Rltb _ _).
  - assert (Hd : 0 < / (IZR m + 2)) by (apply Rinv_0_lt_compat; lra).
    split; [apply Rmult_lt_0_compat; lra|].
    apply Rlt_by_diff.
    replace (1 - (IZR x + 1) / (IZR m + 2)) with ((IZR m + 1 - IZR x) * / (IZR m + 2))
      by (field; lra).
    apply Rmult_lt_0_compat; lra.
  - assert (Hl0 : 0 < ln (/ 2 * IZR x + 1)).
    { rewrite <- ln_1. apply ln_increasing; lra. }
    assert (Hl1 : ln (/ 2 * IZR x + 1) < ln (/ 2 * (IZR m + 2))).
    { apply ln_increasing; lra. }
    assert (Hd : 0 < / ln (/ 2 * (IZR m + 2))) by (apply Rinv_0_lt_compat; lra).
    replace (- (1 / ln (/ 2 * (IZR m + 2))) * ln (/ 2 * IZR x + 1) + 1)
      with ((ln (/ 2 * (IZR m + 2)) - ln (/ 2 * IZR x + 1)) * / ln (/ 2 * (IZR m + 2)))
      by (field; lra).
    split; [apply Rmult_lt_0_compat; lra|].
    apply Rlt_by_diff.
    replace (1 - (ln (/ 2 * (IZR m + 2)) - ln (/ 2 * IZR x + 1)) * / ln (/ 2 * (IZR m + 2)))
      with (ln (/ 2 * IZR x + 1) * / ln (/ 2 * (IZR m + 2))) by (field; lra).
    apply Rmult_lt_0_compat; lra.
Qed.

Lemma gradient_bounded (g : Generator R) :
  static_fresh g -> unit_bounded (gradient_of g).
Proof.
  intros Hst x y. unfold gradient_of, corner_gradient. rewrite Hst.
  destruct (model g) as [|seed1 seed2 omega]; cbn [fst snd]; real_ops.
  - pose proof (sin2_cos2 (IZR (hash2 (seed g) x y))) as Hsc.
    unfold Rsqr in Hsc. lra.
  - pose proof (sin2_cos2 (IZR (hash2 (seed g) x y))) as Hsc.
    unfold Rsqr in Hsc.
    pose proof (ExpHash_value_range (hash2 seed1 x y) (hash2 seed2 x y) omega
      (hash2_range _ _ _)) as Hm.
    set (m := ExpHash_value _ _ _ _ _) in *.
    set (c := cos _) in *. set (s := sin _) in *.
    replace ((m * c) ^ 2 + (m * s) ^ 2) with (m ^ 2 * (s * s + c * c)) by ring.
    rewrite Hsc. nra.
Qed.

(** What [generate] returns is positive and rescales the bound of the
    octaves it added to 1. *)
Lemma rescaled_abs (v fs : R) :
  0 < fs <= 1 -> Rabs v <= (2 - fs) * (sqrt 2 / 2) ->
  Rabs (v * (sqrt 2 / (2 - fs))) <= 1.
Proof.
  intros Hfs Hv. pose proof (sqrt_lt_R0 2 ltac:(lra)) as Hs.
  pose proof (sqrt_sqrt 2 ltac:(lra)) as Hss.
  assert (Hd : 0 < / (2 - fs)) by (apply Rinv_0_lt_compat; lra).
  rewrite Rabs_mult, (Rabs_pos_eq (sqrt 2 / (2 - fs)))
    by (apply Rmult_le_pos; lra).
  apply (Rmult_le_compat_r (sqrt 2 / (2 - fs))) in Hv;
    [|apply Rmult_le_pos; lra].
  eapply Rle_trans; [exact Hv|].
  replace ((2 - fs) * (sqrt 2 / 2) * (sqrt 2 / (2 - fs)))
    with (sqrt 2 * sqrt 2 / 2) by (field; lra).
  lra.
Qed.

(** The entries of the corner the first octave fills, rescaled. *)
Lemma generate_corner_abs (g : Generator R) x y m0 m1 n cell p q :
  (2 <= (skip_octaves m0 n).1)%Z ->
  tables_fit g n -> square n cell -> static_fresh g ->
  covered (skip_octaves m0 n).2 (skip_octaves m0 n).1 p q ->
  Rabs (rd2 0 (generate g x y m0 m1 n cell).1.2 p q *
        (generate g x y m0 m1 n cell).2) <= 1.
Proof.
  intros Hn0 Hfit Hsq Hst Hc.
  destruct (skip_octaves_valid m0 n Hn0) as (Hn & Hle & Hrn).
  pose proof (skip_octaves_r_pos m0 n) as Hr.
  destruct (generate_spec g x y m0 m1 n cell n) as (Hs & _ & _ & Hv);
    [lia | lia | lia | by eapply tables_fit_le | done |].
  real_ops. rewrite Hs, Hv, decide_True by done.
  pose proof (gradient_bounded g Hst) as HG.
  apply rescaled_abs.
  - apply final_scale_range. lra.
  - apply accumulate_abs; [done | lra |].
    replace (2 - 1) with 1 by lra. rewrite Rmult_1_l.
    apply octave_value_abs; [done | lia].
Qed.

End RealBound.

(** ** Skipping octaves *)

Section Skip.
Context {F : Type} {ops : Scalar F} {hash : Murmur}.
#[local] Open Scope fl_scope.

(** [a] more octaves, then [b] more: after [a] octaves the granularity is
    [n ÷ 2^a], the subcell count [2^a * r], the origin [2^a * (x, y)] and
    the scale has been halved [a] times. *)
Lemma accumulate_app (a b : nat) (G : Z -> Z -> F * F) x y n r scale p q v :
  0 <= n -> 2 <= n ÷ 2 ^ Z.of_nat a ->
  accumulate (a + b) G x y n r scale p q v =
  accumulate b G (2 ^ Z.of_nat a * x) (2 ^ Z.of_nat a * y) (n ÷ 2 ^ Z.of_nat a)
    (2 ^ Z.of_nat a * r) (Nat.iter a (fun s => s ⊗ half) scale) p q
    (accumulate a G x y n r scale p q v).
Proof.
  revert x y n r scale v.
  induction a as [|a IH]; intros x y n r scale v Hn Hn2.
  - change (2 ^ Z.of_nat 0) with 1. rewrite Z.quot_1_r.
    replace (1 * x) with x by lia. replace (1 * y) with y by lia.
    replace (1 * r) with r by lia. done.
  - replace (Z.of_nat (S a)) with (Z.succ (Z.of_nat a)) in * by lia.
    rewrite Z.pow_succ_r in * by lia.
    pose proof (quot2_bounds n Hn) as Hq.
    assert (Hqq : n ÷ (2 * 2 ^ Z.of_nat a) = n ÷ 2 ÷ 2 ^ Z.of_nat a)
      by (rewrite Z.quot_quot by lia; done).
    assert (2 <= n).
    { destruct (Z.le_gt_cases 2 n); [done|].
      replace (n ÷ 2) with 0 in Hqq by lia.
      rewrite Z.quot_0_l in Hqq by lia. lia. }
    rewrite Nat.iter_succ_r. change (S a + b)%nat with (S (a + b)).
    cbn [accumulate]. destruct (Z.leb_spec 2 n); [|lia].
    rewrite IH by lia. rewrite Hqq.
    replace (2 ^ Z.of_nat a * (x + x)) with (2 * 2 ^ Z.of_nat a * x) by lia.
    replace (2 ^ Z.of_nat a * (y + y)) with (2 * 2 ^ Z.of_nat a * y) by lia.
    replace (2 ^ Z.of_nat a * (r + r)) with (2 * 2 ^ Z.of_nat a * r) by lia.
    done.
Qed.

End Skip.

Section RealSkip.
Context {hash : Murmur}.
#[local] Open Scope R_scope.

Lemma iter_half (a : nat) (s : R) : Nat.iter a (fun s => s * / 2) s = s * (/ 2) ^ a.
Proof.
  induction a as [|a IH]; simpl; [lra|]. rewrite IH. lra.
Qed.

(** In real arithmetic the octave loop is linear in the scale and the
    value it starts from. *)
Lemma accumulate_linear (c L : R) todo (G : Z -> Z -> R * R) x y n r s p q v :
  accumulate todo G x y n r (c * s) p q (L + c * v) =
  L + c * accumulate todo G x y n r s p q v.
Proof.
  revert x y n r s v. induction todo as [|todo IH]; intros x y n r s v; [done|].
  cbn [accumulate]. destruct (2 <=? n)%Z; [|done]. real_ops.
  destruct (decide (covered (r + r) (n ÷ 2) p q)).
  - rewrite <- IH. f_equal; lra.
  - rewrite <- IH. f_equal; lra.
Qed.

(** The run from octave 1 is the run of the octaves below [m0] plus
    [2^-(m0-1)] times the run from octave [m0] at the origin scaled by
    [2^(m0-1)]. *)
Lemma generate_split (g : Generator R) x y m0 m1 n cell p q :
  (2 <= m0 <= m1)%Z -> (2 <= (skip_octaves m0 n).1)%Z ->
  tables_fit g n -> square n cell ->
  covered (skip_octaves m0 n).2 (skip_octaves m0 n).1 p q ->
  rd2 0 (generate g x y 1 m1 n cell).1.2 p q =
    rd2 0 (generate g x y 1 (m0 - 1) n cell).1.2 p q +
    (/ 2) ^ Z.to_nat (m0 - 1) *
      rd2 0 (generate g (2 ^ (m0 - 1) * x) (2 ^ (m0 - 1) * y) m0 m1 n cell).1.2 p q.
Proof.
  intros Hm Hn0 Hfit Hsq Hc.
  destruct (skip_octaves_valid m0 n Hn0) as (Hn & Hle & Hrn).
  pose proof (generate_spec g x y 1 m1 n cell n) as Hfull.
  pose proof (generate_spec g x y 1 (m0 - 1) n cell n) as Hlow.
  pose proof (generate_spec g (2 ^ (m0 - 1) * x) (2 ^ (m0 - 1) * y) m0 m1 n cell n)
    as Hskip.
  rewrite skip_octaves_none in Hfull, Hlow by lia.
  rewrite skip_octaves_closed in Hskip, Hc, Hn0, Hle, Hrn by lia.
  cbn [fst snd] in *.
  destruct Hfull as (_ & _ & _ & Hfull); [lia | lia | lia | done | done |].
  destruct Hlow as (_ & _ & _ & Hlow); [lia | lia | lia | done | done |].
  destruct Hskip as (_ & _ & _ & Hskip);
    [lia | lia | lia | by eapply tables_fit_le | done |].
  rewrite Hfull, Hlow, Hskip. clear Hfull Hlow Hskip.
  assert (Hc1 : covered 1 n p q) by (unfold covered in *; lia).
  rewrite !decide_True by done.
  set (G := gradient_of g). set (a := Z.to_nat (m0 - 1)).
  assert (Ha : (m0 - 1 = Z.of_nat (S (a - 1)))%Z) by lia.
  replace (Z.to_nat (m1 - 1)) with ((a - 1) + (1 + Z.to_nat (m1 - m0)))%nat by lia.
  replace (Z.to_nat (m0 - 1 - 1)) with (a - 1)%nat by lia.
  rewrite Ha in *.
  replace (Z.of_nat (S (a - 1))) with (Z.succ (Z.of_nat (a - 1))) in * by lia.
  rewrite Z.pow_succ_r in * by lia.
  assert (Hqq : (n ÷ (2 * 2 ^ Z.of_nat (a - 1)) = n ÷ 2 ^ Z.of_nat (a - 1) ÷ 2)%Z).
  { rewrite Z.quot_quot by lia. f_equal. lia. }
  assert (Hprev : (2 <= n ÷ 2 ^ Z.of_nat (a - 1))%Z).
  { assert (0 <= n ÷ 2 ^ Z.of_nat (a - 1))%Z by (apply Z.quot_pos; lia).
    pose proof (quot2_bounds (n ÷ 2 ^ Z.of_nat (a - 1)) ltac:(lia)). lia. }
  rewrite accumulate_app by lia.
  change (1 + Z.to_nat (m1 - m0))%nat with (S (Z.to_nat (m1 - m0))).
  cbn [accumulate]. destruct (Z.leb_spec 2 (n ÷ 2 ^ Z.of_nat (a - 1))); [|lia].
  rewrite <- Hqq.
  replace (2 ^ Z.of_nat (a - 1) * 1 + 2 ^ Z.of_nat (a - 1) * 1)%Z
    with (2 * 2 ^ Z.of_nat (a - 1))%Z by lia.
  replace (2 ^ Z.of_nat (a - 1) * x + 2 ^ Z.of_nat (a - 1) * x)%Z
    with (2 * 2 ^ Z.of_nat (a - 1) * x)%Z by lia.
  replace (2 ^ Z.of_nat (a - 1) * y + 2 ^ Z.of_nat (a - 1) * y)%Z
    with (2 * 2 ^ Z.of_nat (a - 1) * y)%Z by lia.
  rewrite decide_True by done. real_ops.
  rewrite iter_half.
  assert (Hpow : (/ 2) ^ a = (/ 2) ^ (a - 1) * / 2).
  { replace a with (S (a - 1)) at 1 by lia. simpl. lra. }
  rewrite <- accumulate_linear. f_equal; rewrite Hpow; lra.
Qed.

End RealSkip.

(** ** The claims of real arithmetic *)

Section RealClaims.
#[local] Open Scope R_scope.

(** C1, on the entries that are written.  In real arithmetic, for every
    call that generates (the skip loop leaves a granularity of at least 2;
    the tables and the [n] by [n] cell are allocated for [n]; the static of
    [ExpHash] has the scale of [0xFFFFFFFF]), every entry of the [r0*n0] by
    [r0*n0] corner that the first generated octave writes, times the
    returned factor [sqrt 2 / (2 - scale)], lies in [[-1, 1]]. *)
Theorem generate_bounded {hash : Murmur} (g : Generator R) (x y m0 m1 n : Z)
    (cell : Cell R) :
  (2 <= (skip_octaves m0 n).1)%Z ->
  tables_fit g n -> square n cell -> static_fresh g ->
  forall p q, covered (skip_octaves m0 n).2 (skip_octaves m0 n).1 p q ->
    -1 <= rd2 0 (generate g x y m0 m1 n cell).1.2 p q *
          (generate g x y m0 m1 n cell).2 <= 1.
Proof.
  intros Hn0 Hfit Hsq Hst p q Hc.
  pose proof (generate_corner_abs g x y m0 m1 n cell p q Hn0 Hfit Hsq Hst Hc) as Habs.
  apply abs_le_inv in Habs. lra.
Qed.

Lemma generate_bounded_witness :
  (2 <= (skip_octaves 1 8).1)%Z /\
  tables_fit terrain_gen 8 /\ square 8 cell8 /\ static_fresh terrain_gen /\
  covered (skip_octaves 1 8).2 (skip_octaves 1 8).1 3 5 /\
  -1 <= rd2 0 (generate (hash := column_hash) terrain_gen 0 0 1 3 8 cell8).1.2 3 5 *
        (generate (hash := column_hash) terrain_gen 0 0 1 3 8 cell8).2 <= 1.
Proof.
  assert (H1 : (2 <= (skip_octaves 1 8).1)%Z) by (vm_compute; discriminate).
  assert (H2 : tables_fit terrain_gen 8) by (apply tables_fit_new; lia).
  assert (H3 : square 8 cell8) by (apply (square_replicate 8); lia).
  assert (H4 : static_fresh terrain_gen) by reflexivity.
  assert (H5 : covered (skip_octaves 1 8).2 (skip_octaves 1 8).1 3 5)
    by (vm_compute; intuition discriminate).
  repeat (split; [assumption|]).
  exact (generate_bounded (hash := column_hash) terrain_gen 0 0 1 3 8 cell8
           H1 H2 H3 H4 3 5 H5).
Defined.

(** C1 for every entry of the cell fails: with granularity 5 and first
    octave 2 the skip loop leaves granularity 2 and 2 subcells a side, so
    row 4 and column 4 of the 5 by 5 cell are never written; an entry
    holding 100 before the call holds 100 after it, and the returned
    factor is [sqrt 2]. *)
Lemma border_entry_not_bounded : ~ bounded_everywhere.
Proof.
  intros Hb.
  specialize (Hb column_hash (CInfiniteAmortizedNoise2D 0%R 5 1) 0 0 2 2 5 cell5)%Z.
  assert (H1 : (2 <= (skip_octaves 2 5).1)%Z) by (vm_compute; discriminate).
  assert (H2 : tables_fit (CInfiniteAmortizedNoise2D 0%R 5 1) 5)
    by (apply tables_fit_new; lia).
  assert (H3 : square 5 cell5) by (apply (square_replicate 5); lia).
  specialize (Hb H1 H2 H3 eq_refl 4 4 ltac:(lia) ltac:(lia))%Z.
  rewrite generate_outside in Hb by (vm_compute; intros [[_ ?] _]; discriminate).
  destruct (generate_spec (hash := column_hash) (CInfiniteAmortizedNoise2D 0%R 5 1)
    0 0 2 2 5 cell5 5)%Z as (Hs & _);
    [vm_compute; discriminate | vm_compute; discriminate | vm_compute; discriminate
    | by eapply tables_fit_le | done |].
  rewrite Hs in Hb. change (Z.to_nat (2 - 2)) with 0%nat in Hb.
  cbn [final_scale] in Hb. real_ops.
  change (rd2 0 cell5 4 4) with 100 in Hb.
  pose proof (sqrt_lt_R0 2 ltac:(lra)) as Hsq.
  pose proof (sqrt_sqrt 2 ltac:(lra)) as Hss.
  replace (2 - 1) with 1 in Hb by lra. unfold Rdiv in Hb. rewrite Rinv_1 in Hb.
  nra.
Qed.

(** C5 fails at both ends of the range.  When the hash to be shaped is 0 the
    exponential branch returns exactly 1, and when it is the largest value
    [m] it returns exactly 0 (here with omega 0, which always selects the
    exponential branch). *)
Theorem ExpHash_reaches_endpoints :
  (ExpHash None 0 0 4294967295 0).1 = 1 /\
  (ExpHash None 4294967295 0 4294967295 0).1 = 0.
Proof.
  assert (Hb : forall a : R, 0 <= a -> Rltb a (clip 0 0 1) = false).
  { intros a Ha. unfold clip, fmin, fmax. real_ops. unfold Rltb.
    repeat (destruct (Rlt_dec _ _); try lra). }
  unfold ExpHash, UniformHash. real_ops.
  rewrite !Hb by (apply Rmult_le_pos; [lra | left; apply Rinv_0_lt_compat; lra]).
  unfold ExpHash2, static_scale, ExpHash_scale_init. cbn [fst]. real_ops. split.
  - replace (/ 2 * 0 + 1) with 1 by lra. rewrite ln_1. lra.
  - replace (/ 2 * 4294967295 + 1) with (/ 2 * (4294967295 + 2)) by lra.
    assert (0 < ln (/ 2 * (4294967295 + 2))).
    { rewrite <- ln_1. apply ln_increasing; lra. }
    field. lra.
Qed.

(** The static of the two-argument [ExpHash] keeps the scale of the first
    [max] it was called with: after a call with [max = 3], a call with
    [max = 0xFFFFFFFF] returns a negative value for the hash 100. *)
Lemma ExpHash_static_keeps_first_max :
  (ExpHash (ExpHash2 None 0 3).2 100 0 4294967295 0).1 < 0.
Proof.
  assert (Hb : forall a : R, 0 <= a -> Rltb a (clip 0 0 1) = false).
  { intros a Ha. unfold clip, fmin, fmax. real_ops. unfold Rltb.
    repeat (destruct (Rlt_dec _ _); try lra). }
  unfold ExpHash, UniformHash. real_ops.
  rewrite Hb by (apply Rmult_le_pos; [lra | left; apply Rinv_0_lt_compat; lra]).
  unfold ExpHash2, static_scale, ExpHash_scale_init. cbn [fst snd]. real_ops.
  assert (H1 : 0 < ln (/ 2 * (3 + 2))) by (rewrite <- ln_1; apply ln_increasing; lra).
  assert (H2 : ln (/ 2 * (3 + 2)) < ln (/ 2 * 100 + 1)) by (apply ln_increasing; lra).
  assert (Hd : 0 < / ln (/ 2 * (3 + 2))) by (by apply Rinv_0_lt_compat).
  replace (- (1 / ln (/ 2 * (3 + 2))) * ln (/ 2 * 100 + 1) + 1)
    with (- ((ln (/ 2 * 100 + 1) - ln (/ 2 * (3 + 2))) * / ln (/ 2 * (3 + 2))))
    by (field; lra).
  apply Ropp_lt_gt_0_contravar. apply Rmult_lt_0_compat; lra.
Qed.

End RealClaims.

Section RealSkipClaims.
#[local] Open Scope R_scope.

(** C2, with the origin in the units of octave [m0].  In real arithmetic,
    for first octave [m0 > 1] and an origin given in the units of octave
    [m0] (that is [2^(m0-1) * (x, y)], as the caller in [main.cpp] scales
    it), the run from octave [m0]
    produces the contribution of the octaves [m0..m1] to the run from
    octave 1 at origin [(x, y)], at [2^(m0-1)] times its amplitude there:
    on the corner the run from [m0] fills, the run from octave 1 is the
    run of the octaves [1..m0-1] plus [2^-(m0-1)] times the run from [m0]. *)
Theorem skip_equivalence_scaled {hash : Murmur} (g : Generator R) (x y m0 m1 n : Z)
    (cell : Cell R) :
  (2 <= m0 <= m1)%Z -> (2 <= (skip_octaves m0 n).1)%Z ->
  tables_fit g n -> square n cell ->
  forall p q, covered (skip_octaves m0 n).2 (skip_octaves m0 n).1 p q ->
    rd2 0 (generate g x y 1 m1 n cell).1.2 p q =
      rd2 0 (generate g x y 1 (m0 - 1) n cell).1.2 p q +
      (/ 2) ^ Z.to_nat (m0 - 1) *
        rd2 0 (generate g (2 ^ (m0 - 1) * x) (2 ^ (m0 - 1) * y) m0 m1 n cell).1.2 p q.
Proof. intros Hm Hn0 Hfit Hsq p q Hc. by apply generate_split. Qed.

Lemma skip_equivalence_scaled_witness :
  (2 <= 2 <= 3)%Z /\ (2 <= (skip_octaves 2 8).1)%Z /\
  tables_fit terrain_gen 8 /\ square 8 cell8 /\
  covered (skip_octaves 2 8).2 (skip_octaves 2 8).1 6 1 /\
  rd2 0 (generate (hash := column_hash) terrain_gen 1 0 1 3 8 cell8).1.2 6 1 =
    rd2 0 (generate (hash := column_hash) terrain_gen 1 0 1 (2 - 1) 8 cell8).1.2 6 1 +
    (/ 2) ^ Z.to_nat (2 - 1) *
      rd2 0 (generate (hash := column_hash) terrain_gen
               (2 ^ (2 - 1) * 1) (2 ^ (2 - 1) * 0) 2 3 8 cell8).1.2 6 1.
Proof.
  assert (H0 : (2 <= 2 <= 3)%Z) by lia.
  assert (H1 : (2 <= (skip_octaves 2 8).1)%Z) by (vm_compute; discriminate).
  assert (H2 : tables_fit terrain_gen 8) by (apply tables_fit_new; lia).
  assert (H3 : square 8 cell8) by (apply (square_replicate 8); lia).
  assert (H5 : covered (skip_octaves 2 8).2 (skip_octaves 2 8).1 6 1)
    by (vm_compute; intuition discriminate).
  repeat (split; [assumption|]).
  exact (skip_equivalence_scaled (hash := column_hash) terrain_gen 1 0 2 3 8 cell8
           H0 H1 H2 H3 6 1 H5).
Defined.

(** C2 at one and the same origin fails: at origin [(1, 0)] the run from
    octave 2 takes its gradients at the lattice columns 1 and 2, while octave 2 of the
    run from octave 1 takes them at the columns 2 and 3 (the origin
    doubled).  With a hash that tells column 3 apart, the first leaves 0
    at entry [(1, 0)] and the second does not. *)
Lemma skip_keeps_origin : ~ skip_equivalence_same_origin.
Proof.
  intros Hc.
  assert (H0 : (2 <= 2 <= 2)%Z) by lia.
  assert (H1 : (2 <= (skip_octaves 2 8).1)%Z) by (vm_compute; discriminate).
  assert (H2 : tables_fit unit_gen 8) by (apply tables_fit_new; lia).
  assert (H3 : square 8 cell8) by (apply (square_replicate 8); lia).
  assert (H5 : covered (skip_octaves 2 8).2 (skip_octaves 2 8).1 1 0)
    by (vm_compute; intuition discriminate).
  specialize (Hc column_hash unit_gen 1 0 2 2 8 cell8 H0 H1 H2 H3 1 0 H5)%Z.
  pose proof (generate_split (hash := column_hash) unit_gen 1 0 2 2 8 cell8 1 0
    H0 H1 H2 H3 H5)%Z as Hs.
  rewrite Hs in Hc. clear Hs.
  change (2 ^ (2 - 1) * 1)%Z with 2%Z in Hc. change (2 ^ (2 - 1) * 0)%Z with 0%Z in Hc.
  destruct (generate_spec (hash := column_hash) unit_gen 1 0 2 2 8 cell8 8)%Z
    as (_ & _ & _ & HB);
    [vm_compute; discriminate | vm_compute; discriminate | vm_compute; discriminate
    | by eapply tables_fit_le | done |].
  destruct (generate_spec (hash := column_hash) unit_gen 2 0 2 2 8 cell8 8)%Z
    as (_ & _ & _ & HA);
    [vm_compute; discriminate | vm_compute; discriminate | vm_compute; discriminate
    | by eapply tables_fit_le | done |].
  rewrite HA, HB in Hc. clear HA HB.
  rewrite !decide_True in Hc by done.
  change (Z.to_nat (2 - 2)) with 0%nat in Hc. cbn [accumulate] in Hc.
  change (skip_octaves 2 8).1 with 4%Z in Hc.
  unfold octave_value in Hc.
  change (1 `div` 4)%Z with 0%Z in Hc. change (0 `div` 4)%Z with 0%Z in Hc.
  change (1 `mod` 4)%Z with 1%Z in Hc. change (0 `mod` 4)%Z with 0%Z in Hc.
  rewrite !point_noise_col0 in Hc by lia. unfold s_curve2 in Hc.
  unfold gradient_of, corner_gradient in Hc. cbn [model unit_gen seed
    CInfiniteAmortizedNoise2D snd] in Hc.
  change (hash2 (hash := column_hash) (uint32 1) (1 + 0) (0 + 0)) with 0%Z in Hc.
  change (hash2 (hash := column_hash) (uint32 1) (1 + 0 + 1) (0 + 0)) with 0%Z in Hc.
  change (hash2 (hash := column_hash) (uint32 1) (2 + 0) (0 + 0)) with 0%Z in Hc.
  change (hash2 (hash := column_hash) (uint32 1) (2 + 0 + 1) (0 + 0)) with 1%Z in Hc.
  real_ops. rewrite sin_0 in Hc.
  assert (Hsin : 0 < sin 1).
  { apply sin_gt_0; [lra|]. pose proof PI2_1. lra. }
  change (Z.to_nat (2 - 1)) with 1%nat in Hc. simpl pow in Hc.
  lra.
Qed.

(** Whatever the hash, the run from octave 2 of the unit model is not the
    contribution of octave 2 to the run from octave 1, even at origin
    [(0, 0)], which the doubling leaves in place: the run from octave 2
    writes its octave at full amplitude, the run from octave 1 adds it at
    half amplitude, and the octave is not zero at all four entries next to
    the corner. *)
Lemma skip_keeps_amplitude :
  ~ exists hash : Murmur, forall p q, covered 2 4 p q ->
      rd2 0 (generate unit_gen 0 0 1 2 8 cell8).1.2 p q =
        rd2 0 (generate unit_gen 0 0 1 (2 - 1) 8 cell8).1.2 p q +
        rd2 0 (generate unit_gen 0 0 2 2 8 cell8).1.2 p q.
Proof.
  intros [hash Hc].
  assert (H0 : (2 <= 2 <= 2)%Z) by lia.
  assert (H1 : (2 <= (skip_octaves 2 8).1)%Z) by (vm_compute; discriminate).
  assert (H2 : tables_fit unit_gen 8) by (apply tables_fit_new; lia).
  assert (H3 : square 8 cell8) by (apply (square_replicate 8); lia).
  destruct (generate_spec unit_gen 0 0 2 2 8 cell8 8)%Z as (_ & _ & _ & HB);
    [vm_compute; discriminate | vm_compute; discriminate | vm_compute; discriminate
    | by eapply tables_fit_le | done |].
  assert (Hzero : forall p q, covered 2 4 p q ->
    octave_value (gradient_of unit_gen) 0 0 4 p q = 0).
  { intros p q Hpq. specialize (Hc p q Hpq).
    pose proof (generate_split unit_gen 0 0 2 2 8 cell8 p q H0 H1 H2 H3 Hpq)%Z as Hs.
    change (2 ^ (2 - 1) * 0)%Z with 0%Z in Hs. rewrite Hs in Hc.
    change (Z.to_nat (2 - 1)) with 1%nat in Hc. simpl pow in Hc.
    rewrite HB, decide_True in Hc by done.
    change (Z.to_nat (2 - 2)) with 0%nat in Hc. cbn [accumulate] in Hc.
    change (skip_octaves 2 8).1 with 4%Z in Hc. lra. }
  pose proof (Hzero 0 1 ltac:(unfold covered; lia))%Z as E1.
  pose proof (Hzero 0 2 ltac:(unfold covered; lia))%Z as E2.
  pose proof (Hzero 1 0 ltac:(unfold covered; lia))%Z as E3.
  pose proof (Hzero 2 0 ltac:(unfold covered; lia))%Z as E4.
  unfold octave_value in E1, E2, E3, E4.
  change (0 `div` 4)%Z with 0%Z in *. change (1 `div` 4)%Z with 0%Z in *.
  change (2 `div` 4)%Z with 0%Z in *.
  change (0 `mod` 4)%Z with 0%Z in *. change (1 `mod` 4)%Z with 1%Z in *.
  change (2 `mod` 4)%Z with 2%Z in *.
  change (0 + 0)%Z with 0%Z in *.
  rewrite point_noise_row0 in E1, E2 by lia.
  rewrite point_noise_col0 in E3, E4 by lia.
  unfold s_curve2 in E1, E2, E3, E4. real_ops.
  unfold gradient_of, corner_gradient in E1, E2, E3, E4.
  cbn [model seed unit_gen CInfiniteAmortizedNoise2D fst snd] in E1, E2, E3, E4.
  real_ops.
  pose proof (sin2_cos2 (IZR (hash2 (uint32 1) 0 0))) as Hsc.
  unfold Rsqr in Hsc.
  set (c := cos (IZR (hash2 (uint32 1) 0 0))) in *.
  set (s := sin (IZR (hash2 (uint32 1) 0 0))) in *.
  assert (Hc0 : c = 0) by lra. assert (Hs0 : s = 0) by lra.
  rewrite Hc0, Hs0 in Hsc. lra.
Qed.

End RealSkipClaims.

(** ** The claims at concrete inputs *)

Section Instances.
#[local] Open Scope R_scope.

Lemma generate_degenerate_witness :
  ((skip_octaves 4 4).1 < 2)%Z /\
  generate (hash := column_hash) unit_gen 0 0 4 8 4 cell8 = (unit_gen, cell8, 1).
Proof.
  assert (H1 : ((skip_octaves 4 4).1 < 2)%Z) by (vm_compute; reflexivity).
  split; [exact H1|].
  exact (generate_degenerate (hash := column_hash) unit_gen 0 0 4 8 4 cell8 H1).
Defined.

Lemma generate_deterministic_witness :
  same_config terrain_gen terrain_gen' /\
  tables_fit terrain_gen 8 /\ tables_fit terrain_gen' 8 /\
  (generate (hash := column_hash) terrain_gen 3 4 1 4 8 cell8').1.2 =
  (generate (hash := column_hash) terrain_gen' 3 4 1 4 8 cell8').1.2 /\
  (generate (hash := column_hash) terrain_gen 3 4 1 4 8 cell8').2 =
  (generate (hash := column_hash) terrain_gen' 3 4 1 4 8 cell8').2.
Proof.
  assert (H1 : same_config terrain_gen terrain_gen') by (repeat split; reflexivity).
  assert (H2 : tables_fit terrain_gen 8) by (apply tables_fit_new; lia).
  assert (H3 : tables_fit terrain_gen' 8) by (apply tables_fit_new; lia).
  repeat (split; [assumption|]).
  exact (generate_deterministic (hash := column_hash) terrain_gen terrain_gen'
           3 4 1 4 8 cell8' H1 H2 H3).
Defined.

Lemma spline_table_quintic_witness :
  (1 <= 4 <= Z.of_nat (length (spline unit_gen)))%Z /\ (0 <= 1 < 4)%Z /\
  rd 0 (spline (initSplineTable unit_gen 4)) 1 =
    6 * (IZR 1 / IZR 4) ^ 5 - 15 * (IZR 1 / IZR 4) ^ 4 + 10 * (IZR 1 / IZR 4) ^ 3.
Proof.
  assert (H1 : (1 <= 4 <= Z.of_nat (length (spline unit_gen)))%Z).
  { unfold unit_gen, CInfiniteAmortizedNoise2D. cbn [spline].
    rewrite length_replicate. lia. }
  assert (H2 : (0 <= 1 < 4)%Z) by lia.
  repeat (split; [assumption|]).
  exact (spline_table_quintic unit_gen 4 1 H1 H2).
Defined.

Lemma first_octave_overwrites_witness :
  (2 <= (skip_octaves 2 8).1)%Z /\
  tables_fit terrain_gen 8 /\ square 8 cell8 /\ square 8 cell8' /\
  (forall p q, covered (skip_octaves 2 8).2 (skip_octaves 2 8).1 p q ->
     rd2 0 (generate (hash := column_hash) terrain_gen 6 2 2 5 8 cell8).1.2 p q =
     rd2 0 (generate (hash := column_hash) terrain_gen 6 2 2 5 8 cell8').1.2 p q) /\
  (generate (hash := column_hash) terrain_gen 6 2 2 5 8 cell8).2 =
  (generate (hash := column_hash) terrain_gen 6 2 2 5 8 cell8').2.
Proof.
  assert (H1 : (2 <= (skip_octaves 2 8).1)%Z) by (vm_compute; discriminate).
  assert (H2 : tables_fit terrain_gen 8) by (apply tables_fit_new; lia).
  assert (H3 : square 8 cell8) by (apply (square_replicate 8); lia).
  assert (H4 : square 8 cell8') by (apply (square_replicate 8); lia).
  repeat (split; [assumption|]).
  exact (first_octave_overwrites (hash := column_hash) terrain_gen 6 2 2 5 8
           cell8 cell8' H1 H2 H3 H4).
Defined.

Lemma generate_border_untouched_witness :
  (2 <= (skip_octaves 2 5).1)%Z /\
  (forall p q,
     ((skip_octaves 2 5).2 * (skip_octaves 2 5).1 <= p \/
      (skip_octaves 2 5).2 * (skip_octaves 2 5).1 <= q)%Z ->
     rd2 0 (generate (hash := column_hash) unit_gen 0 0 2 4 5 cell5).1.2 p q =
     rd2 0 cell5 p q) /\
  ((1 <= 2)%Z ->
     (skip_octaves 2 5).1 = (5 ÷ 2 ^ (2 - 1))%Z /\ (skip_octaves 2 5).2 = (2 ^ (2 - 1))%Z) /\
  ((1 <= 2)%Z -> (5 mod 2 ^ (2 - 1))%Z <> 0%Z ->
     ((skip_octaves 2 5).2 * (skip_octaves 2 5).1 < 5)%Z).
Proof.
  assert (H1 : (2 <= (skip_octaves 2 5).1)%Z) by (vm_compute; discriminate).
  split; [exact H1|].
  exact (generate_border_untouched (hash := column_hash) 0 unit_gen 0 0 2 4 5 cell5 H1).
Defined.

End Instances.

(** ** Binary32: what the machine computes *)

Section Binary32Examples.
Variables cosf32 sinf32 logf32 : Binary32.float32 -> Binary32.float32.
Context {hash : Murmur}.

#[local] Instance binary32_ops : Scalar Binary32.float32 :=
  Binary32.scalar cosf32 sinf32 logf32.

(** For granularity 4 the spline table holds 0, 53/512, 1/2 and 459/512,
    the exact values of the quintic. *)
Lemma spline_table_binary32_4 :
  spline (initSplineTable (CInfiniteAmortizedNoise2D (Binary32.of_Z 7) 4 1) 4) =
  [S754_zero false; S754_finite false 13893632 (-27);
   S754_finite false 8388608 (-24); S754_finite false 15040512 (-24)].
Proof. vm_compute. reflexivity. Qed.

(** For granularity 3 it holds the quintic of the rounded quotients,
    rounded; the fourth entry is left as it was. *)
Lemma spline_table_binary32_3 :
  spline (initSplineTable (CInfiniteAmortizedNoise2D (Binary32.of_Z 7) 4 1) 3) =
  [S754_zero false; S754_finite false 14084578 (-26);
   S754_finite false 13256075 (-24); Binary32.of_Z 7].
Proof. vm_compute. reflexivity. Qed.

(** The uniform branch of [ExpHash] returns exactly [1.0f] for the hashes
    that round to [2^32] (here with omega 1, which selects the uniform
    branch when the second hash is 0). *)
Lemma ExpHash_binary32_one :
  (ExpHash None 4294967295 0 4294967295 (Binary32.of_Z 1)).1 = Binary32.of_Z 1.
Proof. vm_compute. reflexivity. Qed.

(** With granularity 2 and octaves 1 to 2 the returned factor is
    [(float)M_SQRT2 / 1.5f = 0x3F715BEF]: the octave at granularity 1 is
    counted. *)
Lemma generate_factor_binary32 (x y : Z) (cell : Cell Binary32.float32) :
  (generate (CInfiniteAmortizedNoise2D (Binary32.of_Z 7) 2 1) x y 1 2 2 cell).2 =
  S754_finite false 15817711 (-24).
Proof.
  rewrite generate_1_2_2.
  destruct (first_octave _ _ _ _ _ _) as [g1 c1].
  destruct (next_octave _ _ _ _ _ _ _) as [g2 c2].
  vm_compute. reflexivity.
Qed.

End Binary32Examples.

(** * Further properties of the code *)

(** ** What the table fills and the subcell loops leave alone *)

Section Frames.
Context {F : Type} {ops : Scalar F} {hash : Murmur}.
#[local] Open Scope fl_scope.

Lemma FillUp_frame (d : F) (t : list F) s n i :
  1 <= n -> n <= i -> rd d (FillUp t s n) i = rd d t i.
Proof.
  intros Hn Hi. unfold FillUp.
  apply (for_up_ind (fun _ t' => rd d t' i = rd d t i)); [lia| |].
  - apply rd_wr_ne. lia.
  - intros k t' Hk Ht'. rewrite rd_wr_ne by lia. done.
Qed.

Lemma FillDn_frame (d : F) (t : list F) s n i :
  1 <= n -> n <= i -> rd d (FillDn t s n) i = rd d t i.
Proof.
  intros Hn Hi. unfold FillDn.
  apply (for_down_ind (fun _ t' => rd d t' i = rd d t i)); [lia| |].
  - apply rd_wr_ne. lia.
  - intros k t' Hk Ht'. rewrite rd_wr_ne by lia. done.
Qed.

Lemma length_initSplineTable (g : Generator F) n :
  length (spline (initSplineTable g n)) = length (spline g).
Proof.
  unfold initSplineTable. simpl.
  apply (for_up_preserve (fun sp => length sp = length (spline g))); [done|].
  intros i sp _ Hsp. by rewrite length_wr.
Qed.

Lemma initSplineTable_keeps_fit (g : Generator F) n k :
  tables_fit g k -> tables_fit (initSplineTable g n) k.
Proof.
  unfold tables_fit. rewrite length_initSplineTable. done.
Qed.

(** X3.  [initSplineTable g n] rewrites the first [n] entries of the
    spline table, each to the quintic of its quotient by [n], and nothing
    else: the entries from [n] on, the length of the table, the eight edge
    tables, the seed, the model and the static of [ExpHash] are what they
    were. *)
Theorem initSplineTable_effect (d : F) (g : Generator F) n :
  0 <= n <= Z.of_nat (length (spline g)) ->
  (forall i, 0 <= i < n ->
     rd #0 (spline (initSplineTable g n)) i = s_curve2 (#i ⊘ #n)) /\
  (forall i, n <= i ->
     rd d (spline (initSplineTable g n)) i = rd d (spline g) i) /\
  length (spline (initSplineTable g n)) = length (spline g) /\
  edge_tables (initSplineTable g n) = edge_tables g /\
  seed (initSplineTable g n) = seed g /\
  model (initSplineTable g n) = model g /\
  exp_scale (initSplineTable g n) = exp_scale g.
Proof.
  intros Hn. split; [apply initSplineTable_spec; lia|].
  split; [|split; [apply length_initSplineTable | done]].
  intros i Hi. unfold initSplineTable. simpl.
  apply (for_up_preserve (fun sp => rd d sp i = rd d (spline g) i)); [done|].
  intros k sp Hk Hsp. rewrite rd_wr_ne by lia. done.
Qed.

(** X12.  [initEdgeTables g x0 y0 n] (of either class) rewrites the first
    [n] entries of the eight edge tables and nothing else: their entries
    from [n] on and their lengths, the spline table, the seed, the model
    and the scale that [ExpHash] has in force are what they were. *)
Theorem initEdgeTables_frame (d : F) (g : Generator F) x0 y0 n i :
  1 <= n -> n <= i ->
  (fun t => rd d t i) <$> edge_tables (initEdgeTables g x0 y0 n) =
    (fun t => rd d t i) <$> edge_tables g /\
  length <$> edge_tables (initEdgeTables g x0 y0 n) = length <$> edge_tables g /\
  spline (initEdgeTables g x0 y0 n) = spline g /\
  seed (initEdgeTables g x0 y0 n) = seed g /\
  model (initEdgeTables g x0 y0 n) = model g /\
  static_scale (exp_scale (initEdgeTables g x0 y0 n)) hash_max =
    static_scale (exp_scale g) hash_max.
Proof.
  intros Hn Hi.
  destruct (initEdgeTables_eq g x0 y0 n) as (st' & Hst & ->).
  unfold edge_tables. simpl.
  rewrite !FillUp_frame, !FillDn_frame, !length_FillUp, !length_FillDn by done.
  done.
Qed.

(** X16.  [getNoise(n, i0, j0, cell)] on a subcell that lies inside the
    cell: every entry of the subcell becomes the noise value at its offset
    in the subcell, every other entry keeps its value, and the cell keeps
    its shape. *)
Theorem getNoise_cell_effect (g : Generator F) N n i0 j0 (cell : Cell F) :
  square N cell -> 0 <= i0 -> 0 <= j0 -> 0 <= n -> i0 + n <= N -> j0 + n <= N ->
  square N (getNoise_cell g n i0 j0 cell) /\
  forall p q,
    rd2 #0 (getNoise_cell g n i0 j0 cell) p q =
    if decide (i0 <= p < i0 + n /\ j0 <= q < j0 + n)
    then getNoise g (p - i0) (q - j0)
    else rd2 #0 cell p q.
Proof.
  intros Hsq Hi0 Hj0 Hn HiN HjN.
  change (getNoise_cell g n i0 j0 cell)
    with (stamp (fun i j _ => getNoise g i j) n i0 j0 cell).
  destruct (stamp_spec (fun i j _ => getNoise g i j) N n i0 j0 cell) as [Hsq' Hin];
    try done.
  split; [done|]. intros p q.
  destruct (decide (i0 <= p < i0 + n /\ j0 <= q < j0 + n)) as [[Hp Hq]|Hout].
  - by apply Hin.
  - by apply stamp_frame.
Qed.

(** X17.  [addNoise(n, i0, j0, scale, cell)] on a subcell that lies
    inside the cell: every entry of the subcell grows by [scale] times the
    noise value at its offset, once; every other entry keeps its value. *)
Theorem addNoise_effect (g : Generator F) N n i0 j0 scale (cell : Cell F) :
  square N cell -> 0 <= i0 -> 0 <= j0 -> 0 <= n -> i0 + n <= N -> j0 + n <= N ->
  square N (addNoise g n i0 j0 scale cell) /\
  forall p q,
    rd2 #0 (addNoise g n i0 j0 scale cell) p q =
    if decide (i0 <= p < i0 + n /\ j0 <= q < j0 + n)
    then rd2 #0 cell p q ⊕ scale ⊗ getNoise g (p - i0) (q - j0)
    else rd2 #0 cell p q.
Proof.
  intros Hsq Hi0 Hj0 Hn HiN HjN.
  change (addNoise g n i0 j0 scale cell)
    with (stamp (fun i j old => old ⊕ scale ⊗ getNoise g i j) n i0 j0 cell).
  destruct (stamp_spec (fun i j old => old ⊕ scale ⊗ getNoise g i j) N n i0 j0 cell)
    as [Hsq' Hin]; try done.
  split; [done|]. intros p q.
  destruct (decide (i0 <= p < i0 + n /\ j0 <= q < j0 + n)) as [[Hp Hq]|Hout].
  - by apply Hin.
  - by apply stamp_frame.
Qed.

(** X18.  One later octave: [next_octave] adds to every entry of the
    [r*n] by [r*n] corner [scale] times the value of the octave there, the
    value of the subcell the entry lies in at its offset in that subcell,
    and leaves every other entry as it was. *)
Theorem next_octave_effect (g : Generator F) x y n r scale cell N :
  1 <= n -> 0 <= r -> r * n <= N ->
  tables_fit g n -> spline_ready g n -> square N cell ->
  forall p q,
    rd2 #0 (next_octave g x y n r scale cell).2 p q =
    if decide (covered r n p q)
    then rd2 #0 cell p q ⊕ scale ⊗ octave_value (gradient_of g) x y n p q
    else rd2 #0 cell p q.
Proof.
  intros Hn Hr HN Hfit Hsp Hsq p q. rewrite next_octave_subcells.
  destruct (decide (covered r n p q)) as [Hc|Hc].
  - by apply (subcells_spec (fun v old => old ⊕ scale ⊗ v) g g x y n r cell N).
  - by apply subcells_frame.
Qed.

(** X19.  What a generating call leaves in the cell.  An entry of the
    corner that the first octave fills holds the value of that octave, to
    which every later octave that reaches the entry has added its value
    times its scale, in the order of the octaves (origin doubled,
    granularity halved and scale halved from one octave to the next);
    every other entry holds what it held before. *)
Theorem generate_contents (g : Generator F) x y m0 m1 n cell :
  2 <= (skip_octaves m0 n).1 -> tables_fit g n -> square n cell ->
  forall p q,
    rd2 #0 (generate g x y m0 m1 n cell).1.2 p q =
    if decide (covered (skip_octaves m0 n).2 (skip_octaves m0 n).1 p q)
    then accumulate (Z.to_nat (m1 - m0)) (gradient_of g) x y
           (skip_octaves m0 n).1 (skip_octaves m0 n).2 #1 p q
           (octave_value (gradient_of g) x y (skip_octaves m0 n).1 p q)
    else rd2 #0 cell p q.
Proof.
  intros Hn0 Hfit Hsq.
  destruct (skip_octaves_valid m0 n Hn0) as (Hn & Hle & Hrn).
  pose proof (skip_octaves_r_pos m0 n) as Hr.
  destruct (generate_spec g x y m0 m1 n cell n) as (_ & _ & _ & Hv);
    [lia | lia | lia | by eapply tables_fit_le | done |].
  exact Hv.
Qed.

Lemma square_stamp upd N n i0 j0 (cell : Cell F) :
  square N cell -> square N (stamp upd n i0 j0 cell).
Proof.
  intros Hsq. unfold stamp.
  apply (for_up_preserve (square N)); [done|]. intros i c _ Hc.
  apply (for_up_preserve (square N)); [done|]. intros j c' _ Hc'.
  by apply square_wr2.
Qed.

Lemma subcells_kept comb (g0 g : Generator F) x y n r cell k N :
  kept g0 k N (g, cell) -> kept g0 k N (subcells comb g x y n r cell).
Proof.
  intros Hk. unfold subcells.
  apply (for_up_preserve (kept g0 k N)); [done|]. intros i0 s _ Hs.
  apply (for_up_preserve (kept g0 k N)); [done|].
  intros j0 [g' c'] _ (Hcfg & Hfit & Hsq). simpl in *.
  split; [|split]; simpl.
  - eapply same_config_trans; [done|]. apply initEdgeTables_config.
  - by apply initEdgeTables_fit.
  - by apply square_stamp.
Qed.

Lemma octave_loop_kept todo (g0 g : Generator F) x y n r scale cell k N :
  kept g0 k N (g, cell) -> kept g0 k N (octave_loop todo g x y n r scale cell).1.
Proof.
  revert g x y n r scale cell.
  induction todo as [|todo IH]; intros g x y n r scale cell Hk; [done|].
  simpl. destruct (2 <=? n); [|done].
  rewrite next_octave_subcells.
  pose proof (subcells_kept (fun v old => old ⊕ scale ⊗ half ⊗ v) g0
    (initSplineTable g (n ÷ 2)) (x + x) (y + y) (n ÷ 2) (r + r) cell k N) as Hs.
  destruct (subcells _ _ _ _ _ _ _) as [g2 c2]. apply IH, Hs.
  destruct Hk as (Hcfg & Hfit & Hsq). split; [|split]; simpl; [done| |done].
  by apply initSplineTable_keeps_fit.
Qed.

Lemma generate_kept (g : Generator F) x y m0 m1 n cell k N :
  tables_fit g k -> square N cell ->
  kept g k N (generate g x y m0 m1 n cell).1.
Proof.
  intros Hfit Hsq. unfold generate.
  destruct (skip_octaves m0 n) as [n0 r0].
  destruct (n0 <? 2); [done|].
  rewrite first_octave_subcells.
  pose proof (subcells_kept (fun v _ => v) g (initSplineTable g n0) x y n0 r0 cell k N)
    as Hs.
  destruct (subcells _ _ _ _ _ _ _) as [g1 c1].
  pose proof (octave_loop_kept (Z.to_nat (m1 - m0)) g g1 x y n0 r0 #1 c1 k N) as Hl.
  destruct (octave_loop _ _ _ _ _ _ _ _) as [[g2 c2] s2]. apply Hl, Hs.
  split; [|split]; simpl; [done| |done].
  by apply initSplineTable_keeps_fit.
Qed.

(** X21.  Whatever its arguments, [generate] leaves the object usable for
    the next call: the seed, the model with its seeds and omega and the
    scale [ExpHash] has in force are unchanged, tables of at least [k]
    entries still have them, and a cell of [N] rows of [N] entries is
    still one. *)
Theorem generate_keeps_object (g : Generator F) x y m0 m1 n cell k N :
  tables_fit g k -> square N cell ->
  same_config g (generate g x y m0 m1 n cell).1.1 /\
  tables_fit (generate g x y m0 m1 n cell).1.1 k /\
  square N (generate g x y m0 m1 n cell).1.2.
Proof. intros Hfit Hsq. by apply generate_kept. Qed.

End Frames.

(** ** The skip loop, the hash key and the seeds *)

Lemma skip_octaves_r_int m0 n : m0 <= 31 -> (skip_octaves m0 n).2 <= 2 ^ 30.
Proof.
  intros Hm. destruct (Z.le_gt_cases 1 m0).
  - rewrite skip_octaves_closed by done. simpl.
    apply Z.pow_le_mono_r; lia.
  - rewrite skip_octaves_none by lia. simpl. lia.
Qed.

(** X27.  For a cell of side [n >= 0] and a first octave [m0 <= 31] (up
    to which the [int r] of the source does not overflow), the skip loop
    leaves [1 <= r <= 2^30] subcells a side, of granularity [n0 >= 0], with
    [r * n0 <= n < r * n0 + r]: the corner that [generate] writes lies
    inside the [n] by [n] cell and misses fewer than [r] of its rows and
    columns. *)
Theorem skip_octaves_corner m0 n :
  0 <= n -> m0 <= 31 ->
  1 <= (skip_octaves m0 n).2 <= 2 ^ 30 /\ 0 <= (skip_octaves m0 n).1 /\
  (skip_octaves m0 n).2 * (skip_octaves m0 n).1 <= n /\
  n < (skip_octaves m0 n).2 * (skip_octaves m0 n).1 + (skip_octaves m0 n).2.
Proof.
  intros Hn Hm. pose proof (skip_octaves_r_int m0 n Hm) as Hint.
  cut (1 <= (skip_octaves m0 n).2 /\ 0 <= (skip_octaves m0 n).1 /\
       (skip_octaves m0 n).2 * (skip_octaves m0 n).1 <= n /\
       n < (skip_octaves m0 n).2 * (skip_octaves m0 n).1 + (skip_octaves m0 n).2).
  { intros (? & ? & ? & ?). repeat split; done. }
  clear Hint. unfold skip_octaves.
  apply (for_up_preserve (fun s : Z * Z =>
    1 <= s.2 /\ 0 <= s.1 /\ s.2 * s.1 <= n /\ n < s.2 * s.1 + s.2)).
  - simpl. lia.
  - intros i [n' r'] _ (Hr & Hn' & Hlo & Hhi). simpl in *.
    pose proof (quot2_bounds n' ltac:(lia)). nia.
Qed.

Lemma hash_key_sum x y : hash_key x y = uint32 x * 2 ^ 32 + uint32 y.
Proof.
  unfold hash_key. rewrite Z.shiftl_mul_pow2 by lia.
  assert (Hland : Z.land (uint32 x * 2 ^ 32) (uint32 y) = 0).
  { apply Z.bits_inj'. intros k Hk. rewrite Z.land_spec, Z.bits_0.
    destruct (Z.lt_ge_cases k 32).
    - rewrite Z.mul_pow2_bits_low by lia. done.
    - unfold uint32 at 2. rewrite Z.mod_pow2_bits_high by lia.
      apply andb_false_r. }
  rewrite <- Z.lxor_lor by done. symmetry. by apply Z.add_nocarry_lxor.
Qed.

Lemma uint32_range x : 0 <= uint32 x < 2 ^ 32.
Proof. apply Z.mod_pos_bound. lia. Qed.

(** X24.  The key that [h] hashes is made of the two coordinates modulo
    [2^32], and two keys are equal exactly when both coordinates agree
    modulo [2^32]: the lattice points of a [2^32] by [2^32] window get
    different keys, and the hash repeats with period [2^32] in each
    coordinate. *)
Theorem hash_key_injective {hash : Murmur} x y x' y' :
  (forall sd, hash2 sd x y = uint32 (MurmurHash3_32 (hash_key x y) 8 sd)) /\
  0 <= hash_key x y < 2 ^ 64 /\
  (hash_key x y = hash_key x' y' <-> uint32 x = uint32 x' /\ uint32 y = uint32 y').
Proof.
  split; [done|]. rewrite !hash_key_sum.
  pose proof (uint32_range x). pose proof (uint32_range y).
  pose proof (uint32_range x'). pose proof (uint32_range y').
  split; [lia|]. split; [|intros [-> ->]; done].
  intros Heq. split; lia.
Qed.

Lemma uint32_shift_ne s k : 0 < k < 2 ^ 32 -> uint32 (s + k) <> uint32 s.
Proof.
  intros Hk Heq. unfold uint32 in Heq.
  pose proof (Z.div_mod s (2 ^ 32) ltac:(lia)).
  pose proof (Z.div_mod (s + k) (2 ^ 32) ltac:(lia)).
  rewrite Heq in *. lia.
Qed.

(** X23.  The three hash seeds of a terrain generator (direction,
    magnitude, tail) are pairwise different for every seed [s] it is
    constructed with, also when [s + 9999] or [s + 314159] wraps around
    [2^32]. *)
Theorem CTerrainGenerator_seeds {F} (junk : F) n s (tail : F) :
  exists seed1 seed2,
    model (CTerrainGenerator junk n s tail) = TerrainModel seed1 seed2 tail /\
    seed (CTerrainGenerator junk n s tail) <> seed1 /\
    seed (CTerrainGenerator junk n s tail) <> seed2 /\
    seed1 <> seed2.
Proof.
  exists (uint32 (s + 9999)), (uint32 (s + 314159)). simpl.
  split; [done|].
  pose proof (uint32_shift_ne s 9999 ltac:(lia)).
  pose proof (uint32_shift_ne s 314159 ltac:(lia)).
  pose proof (uint32_shift_ne (s + 9999) 304160 ltac:(lia)) as H3.
  replace (s + 9999 + 304160) with (s + 314159) in H3 by lia.
  split; [congruence|]. split; congruence.
Qed.

(** ** Real arithmetic: the hashes of ExponentialHash.cpp *)

Section RealHash.
#[local] Open Scope R_scope.

Lemma UniformHash_range (x max : Z) :
  (0 <= x <= max)%Z -> 0 < UniformHash x max < 1.
Proof.
  intros Hx. unfold UniformHash. real_ops.
  assert (Hx0 : 0 <= IZR x) by (apply IZR_le; lia).
  assert (Hx1 : IZR x <= IZR max) by (apply IZR_le; lia).
  assert (Hd : 0 < / (IZR max + 2)) by (apply Rinv_0_lt_compat; lra).
  split.
  - apply Rmult_lt_0_compat; lra.
  - apply Rlt_by_diff.
    replace (1 - (IZR x + 1) / (IZR max + 2))
      with ((IZR max + 1 - IZR x) * / (IZR max + 2)) by (field; lra).
    apply Rmult_lt_0_compat; lra.
Qed.

(** X7.  In real arithmetic [UniformHash(x, max)] is strictly between 0
    and 1 for every [x] from 0 to [max], and strictly increasing in [x]. *)
Theorem UniformHash_open_unit (x max : Z) :
  (0 <= x <= max)%Z ->
  0 < UniformHash x max < 1 /\
  forall x' : Z, (x < x')%Z -> UniformHash x max < UniformHash x' max.
Proof.
  intros Hx. split; [by apply UniformHash_range|].
  intros x' Hx'. unfold UniformHash. real_ops.
  assert (Hx0 : 0 <= IZR x) by (apply IZR_le; lia).
  assert (Hx1 : IZR x <= IZR max) by (apply IZR_le; lia).
  assert (Hd : 0 < / (IZR max + 2)) by (apply Rinv_0_lt_compat; lra).
  apply IZR_lt in Hx'. apply Rmult_lt_compat_r; lra.
Qed.

Lemma UniformHash_open_unit_witness :
  (0 <= 5 <= 9)%Z /\
  0 < UniformHash 5 9 < 1 /\
  forall x' : Z, (5 < x')%Z -> UniformHash 5 9 < UniformHash x' 9.
Proof.
  assert (H : (0 <= 5 <= 9)%Z) by lia.
  split; [assumption|]. exact (UniformHash_open_unit 5 9 H).
Defined.

Lemma ln_half_pos (m : Z) : (1 <= m)%Z -> 0 < ln (/ 2 * (IZR m + 2)).
Proof.
  intros Hm. apply IZR_le in Hm. rewrite <- ln_1. apply ln_increasing; lra.
Qed.

(** X9.  In real arithmetic the first call of the two-argument [ExpHash]
    (the one that initialises the static scale with its [max >= 1]) maps
    the hashes from 0 to [max] into the closed interval from 0 to 1, and
    in decreasing order: a larger hash gives a value that is not larger. *)
Theorem ExpHash2_decreasing (x x' max : Z) :
  (0 <= x)%Z -> (x <= x')%Z -> (x' <= max)%Z -> (1 <= max)%Z ->
  0 <= (ExpHash2 None x' max).1 /\
  (ExpHash2 None x' max).1 <= (ExpHash2 None x max).1 /\
  (ExpHash2 None x max).1 <= 1.
Proof.
  intros Hx Hxx Hxm Hm.
  unfold ExpHash2, static_scale, ExpHash_scale_init. cbn [fst]. real_ops.
  pose proof (ln_half_pos max Hm) as HL.
  apply IZR_le in Hx, Hxx, Hxm.
  assert (H0 : 0 <= ln (/ 2 * IZR x + 1)) by (rewrite <- ln_1; apply ln_le_mono; lra).
  assert (H1 : ln (/ 2 * IZR x + 1) <= ln (/ 2 * IZR x' + 1)) by (apply ln_le_mono; lra).
  assert (H2 : ln (/ 2 * IZR x' + 1) <= ln (/ 2 * (IZR max + 2))) by (apply ln_le_mono; lra).
  set (L := ln (/ 2 * (IZR max + 2))) in *.
  set (a := ln (/ 2 * IZR x + 1)) in *. set (b := ln (/ 2 * IZR x' + 1)) in *.
  assert (Hd : 0 < / L) by (by apply Rinv_0_lt_compat).
  replace (- (1 / L) * b + 1) with ((L - b) * / L) by (field; lra).
  replace (- (1 / L) * a + 1) with ((L - a) * / L) by (field; lra).
  split; [apply Rmult_le_pos; lra|]. split.
  - apply Rmult_le_compat_r; lra.
  - apply Rle_by_diff. replace (1 - (L - a) * / L) with (a * / L) by (field; lra).
    apply Rmult_le_pos; lra.
Qed.

Lemma ExpHash2_decreasing_witness :
  (0 <= 3)%Z /\ (3 <= 10)%Z /\ (10 <= 4294967295)%Z /\ (1 <= 4294967295)%Z /\
  0 <= (ExpHash2 None 10 4294967295).1 /\
  (ExpHash2 None 10 4294967295).1 <= (ExpHash2 None 3 4294967295).1 /\
  (ExpHash2 None 3 4294967295).1 <= 1.
Proof.
  assert (H1 : (0 <= 3)%Z) by lia. assert (H2 : (3 <= 10)%Z) by lia.
  assert (H3 : (10 <= 4294967295)%Z) by lia. assert (H4 : (1 <= 4294967295)%Z) by lia.
  repeat (split; [assumption|]).
  exact (ExpHash2_decreasing 3 10 4294967295 H1 H2 H3 H4).
Defined.

(** X11.  The static scale of the two-argument [ExpHash] is the one of the
    first call: after a first call with [max = m1], a call with a hash
    above [m1] returns a negative value (in real arithmetic), whatever
    [max] that later call passes. *)
Theorem ExpHash2_scale_of_first_call (x1 m1 x m2 : Z) :
  (1 <= m1)%Z -> (m1 < x)%Z ->
  (ExpHash2 (ExpHash2 None x1 m1).2 x m2).1 < 0.
Proof.
  intros Hm Hx.
  unfold ExpHash2, static_scale, ExpHash_scale_init. cbn [fst snd]. real_ops.
  pose proof (ln_half_pos m1 Hm) as HL.
  apply IZR_le in Hm. apply IZR_lt in Hx.
  assert (H1 : ln (/ 2 * (IZR m1 + 2)) < ln (/ 2 * IZR x + 1))
    by (apply ln_increasing; lra).
  set (L := ln (/ 2 * (IZR m1 + 2))) in *. set (a := ln (/ 2 * IZR x + 1)) in *.
  assert (Hd : 0 < / L) by (by apply Rinv_0_lt_compat).
  replace (- (1 / L) * a + 1) with (- ((a - L) * / L)) by (field; lra).
  apply Ropp_lt_gt_0_contravar. apply Rmult_lt_0_compat; lra.
Qed.

Lemma ExpHash2_scale_of_first_call_witness :
  (1 <= 3)%Z /\ (3 < 100)%Z /\
  (ExpHash2 (ExpHash2 None 0 3).2 100 4294967295).1 < 0.
Proof.
  assert (H1 : (1 <= 3)%Z) by lia. assert (H2 : (3 < 100)%Z) by lia.
  repeat (split; [assumption|]).
  exact (ExpHash2_scale_of_first_call 0 3 100 4294967295 H1 H2).
Defined.

Lemma clip_unit_R (omega : R) : clip omega 0 1 = Rmin (Rmax omega 0) 1.
Proof.
  unfold clip, fmin, fmax, Rmin, Rmax. real_ops. unfold Rltb.
  repeat (destruct (Rlt_dec _ _) || destruct (Rle_dec _ _)); lra.
Qed.

(** X10.  A tail multiplier of 1 or more is taken as 1: every corner whose
    selecting hash [y] is in range gets the uniform hash of [x], and the
    static scale of the exponential hash is not touched. *)
Theorem ExpHash_omega_high (st : option R) (x y m : Z) (omega : R) :
  (0 <= y <= m)%Z -> 1 <= omega ->
  ExpHash st x y m omega = (UniformHash x m, st).
Proof.
  intros Hy Ho. unfold ExpHash. rewrite clip_unit_R.
  rewrite Rmin_right by (unfold Rmax; destruct (Rle_dec _ _); lra).
  destruct (UniformHash_range y m Hy) as [_ Hlt].
  real_ops. unfold Rltb. destruct (Rlt_dec _ _); [done|lra].
Qed.

Lemma ExpHash_omega_high_witness :
  (0 <= 7 <= 4294967295)%Z /\ 1 <= 5 /\
  ExpHash None 42 7 4294967295 5 = (UniformHash 42 4294967295, None).
Proof.
  assert (H1 : (0 <= 7 <= 4294967295)%Z) by lia. assert (H2 : 1 <= 5) by lra.
  repeat (split; [assumption|]).
  exact (ExpHash_omega_high None 42 7 4294967295 5 H1 H2).
Defined.

(** X28.  A tail multiplier of 0 or less is taken as 0: no corner gets
    the uniform hash, every call goes to the two-argument [ExpHash]. *)
Theorem ExpHash_omega_low (st : option R) (x y m : Z) (omega : R) :
  (0 <= y)%Z -> (0 <= m)%Z -> omega <= 0 ->
  ExpHash st x y m omega = ExpHash2 st x m.
Proof.
  intros Hy Hm Ho. unfold ExpHash. rewrite clip_unit_R.
  rewrite Rmax_right, Rmin_left by lra.
  apply IZR_le in Hy, Hm.
  assert (0 <= UniformHash y m).
  { unfold UniformHash. real_ops. apply Rmult_le_pos; [lra|].
    left. apply Rinv_0_lt_compat. lra. }
  real_ops. unfold Rltb. destruct (Rlt_dec _ _); [lra|done].
Qed.

Lemma ExpHash_omega_low_witness :
  (0 <= 7)%Z /\ (0 <= 4294967295)%Z /\ -1 <= 0 /\
  ExpHash None 42 7 4294967295 (-1) = ExpHash2 None 42 4294967295.
Proof.
  assert (H1 : (0 <= 7)%Z) by lia. assert (H2 : (0 <= 4294967295)%Z) by lia.
  assert (H3 : -1 <= 0) by lra.
  repeat (split; [assumption|]).
  exact (ExpHash_omega_low None 42 7 4294967295 (-1) H1 H2 H3).
Defined.

End RealHash.

(** ** Real arithmetic: the interpolation macros and the tables *)

Section RealTables.
#[local] Open Scope R_scope.

(** X6.  In real arithmetic [lerp(t, a, b)] is [a] at [t = 0], [b] at
    [t = 1], and for [t] between 0 and 1 it lies between [a] and [b]. *)
Theorem lerp_between (t a b : R) :
  0 <= t <= 1 ->
  Rmin a b <= lerp t a b <= Rmax a b /\ lerp 0 a b = a /\ lerp 1 a b = b.
Proof.
  intros Ht. unfold lerp, Rmin, Rmax. real_ops.
  split; [|split; ring].
  destruct (Rle_dec a b); split; nra.
Qed.

Lemma lerp_between_witness :
  0 <= / 4 <= 1 /\
  Rmin 2 6 <= lerp (/ 4) 2 6 <= Rmax 2 6 /\ lerp 0 2 6 = 2 /\ lerp 1 2 6 = 6.
Proof.
  assert (H : 0 <= / 4 <= 1) by lra.
  split; [assumption|]. exact (lerp_between (/ 4) 2 6 H).
Defined.

Lemma s_curve2_diff (a b : R) :
  s_curve2 b - s_curve2 a =
  30 * (b - a) *
    ((a * (1 - a) + (b - a) * (1 - 2 * a) / 2 - (b - a) ^ 2 / 3) ^ 2
     + ((b - a) * (1 - 2 * a) - (b - a) ^ 2) ^ 2 / 12
     + ((b - a) ^ 2) ^ 2 / 180).
Proof. rewrite !s_curve2_R. field. Qed.

Lemma s_curve2_mono (a b : R) : a <= b -> s_curve2 a <= s_curve2 b.
Proof.
  intros Hab. apply Rle_by_diff. rewrite s_curve2_diff.
  apply Rmult_le_pos; [lra|].
  pose proof (pow2_ge_0 (a * (1 - a) + (b - a) * (1 - 2 * a) / 2 - (b - a) ^ 2 / 3)).
  pose proof (pow2_ge_0 ((b - a) * (1 - 2 * a) - (b - a) ^ 2)).
  pose proof (pow2_ge_0 ((b - a) ^ 2)).
  lra.
Qed.

Lemma s_curve2_ends : s_curve2 0 = 0 /\ s_curve2 1 = 1.
Proof. rewrite !s_curve2_R. split; ring. Qed.

Lemma s_curve2_sym (t : R) : s_curve2 (1 - t) = 1 - s_curve2 t.
Proof. rewrite !s_curve2_R. ring. Qed.

(** X4.  In real arithmetic the quintic [s_curve2] is 0 at 0 and 1 at 1,
    never decreases (on the whole real line), and is symmetric about the
    point [(1/2, 1/2)]: [s_curve2 (1 - t) = 1 - s_curve2 t]. *)
Theorem s_curve2_shape (a b : R) :
  a <= b ->
  s_curve2 a <= s_curve2 b /\
  s_curve2 (1 - a) = 1 - s_curve2 a /\
  s_curve2 0 = 0 /\ s_curve2 1 = 1.
Proof.
  intros Hab. split; [by apply s_curve2_mono|].
  split; [apply s_curve2_sym | apply s_curve2_ends].
Qed.

Lemma s_curve2_shape_witness :
  / 4 <= / 2 /\
  s_curve2 (/ 4) <= s_curve2 (/ 2) /\
  s_curve2 (1 - / 4) = 1 - s_curve2 (/ 4) /\
  s_curve2 0 = 0 /\ s_curve2 1 = 1.
Proof.
  assert (H : / 4 <= / 2) by lra.
  split; [assumption|]. exact (s_curve2_shape (/ 4) (/ 2) H).
Defined.

(** X5.  In real arithmetic the cubic [s_curve] is 0 at 0 and 1 at 1,
    does not decrease between 0 and 1, and is symmetric about
    [(1/2, 1/2)]; beyond 1 it decreases again ([s_curve 2 = -4]), unlike
    the quintic. *)
Theorem s_curve_shape (a b : R) :
  0 <= a -> a <= b -> b <= 1 ->
  s_curve a <= s_curve b /\
  s_curve (1 - a) = 1 - s_curve a /\
  s_curve 0 = 0 /\ s_curve 1 = 1 /\ s_curve 2 = -4.
Proof.
  intros Ha Hab Hb. unfold s_curve. real_ops.
  split; [|repeat split; ring].
  apply Rle_by_diff.
  replace (b * b * (3 - 2 * b) - a * a * (3 - 2 * a))
    with ((b - a) * (3 * (a + b) - 2 * (a * a + a * b + b * b))) by ring.
  apply Rmult_le_pos; [lra|]. nra.
Qed.

Lemma s_curve_shape_witness :
  0 <= / 4 /\ / 4 <= / 2 /\ / 2 <= 1 /\
  s_curve (/ 4) <= s_curve (/ 2) /\
  s_curve (1 - / 4) = 1 - s_curve (/ 4) /\
  s_curve 0 = 0 /\ s_curve 1 = 1 /\ s_curve 2 = -4.
Proof.
  assert (H1 : 0 <= / 4) by lra. assert (H2 : / 4 <= / 2) by lra.
  assert (H3 : / 2 <= 1) by lra.
  repeat (split; [assumption|]). exact (s_curve_shape (/ 4) (/ 2) H1 H2 H3).
Defined.

(** X1.  In real arithmetic [FillUp(t, s, n)] leaves in entry [i < n] of
    the table the value [i * s / n], the ramp from 0 towards [s] that
    stops one step short of it; the entries from [n] on and the length of
    the table are unchanged. *)
Theorem FillUp_linear (d : R) (t : list R) (s : R) (n : Z) :
  (1 <= n <= Z.of_nat (length t))%Z ->
  length (FillUp t s n) = length t /\
  (forall i, (0 <= i < n)%Z -> rd 0 (FillUp t s n) i = IZR i * s / IZR n) /\
  (forall i, (n <= i)%Z -> rd d (FillUp t s n) i = rd d t i).
Proof.
  intros Hn. destruct (FillUp_spec t s n Hn) as [Hlen Hrd].
  split; [done|]. split.
  - intros i Hi. real_ops. rewrite (Hrd i Hi), ramp_up_R by lia.
    unfold Rdiv. ring.
  - intros i Hi. apply FillUp_frame; lia.
Qed.

Lemma FillUp_linear_witness :
  (1 <= 4 <= Z.of_nat (length [9; 9; 9; 9; 9; 9]))%Z /\
  length (FillUp [9; 9; 9; 9; 9; 9] 2 4) = length [9; 9; 9; 9; 9; 9] /\
  (forall i, (0 <= i < 4)%Z ->
     rd 0 (FillUp [9; 9; 9; 9; 9; 9] 2 4) i = IZR i * 2 / IZR 4) /\
  (forall i, (4 <= i)%Z ->
     rd 0 (FillUp [9; 9; 9; 9; 9; 9] 2 4) i = rd 0 [9; 9; 9; 9; 9; 9] i).
Proof.
  assert (H : (1 <= 4 <= Z.of_nat (length [9; 9; 9; 9; 9; 9]))%Z) by (simpl; lia).
  split; [assumption|]. exact (FillUp_linear 0 [9; 9; 9; 9; 9; 9] 2 4 H).
Defined.

(** X2.  In real arithmetic [FillDn(t, s, n)] leaves in entry [i < n] of
    the table the value [(i - n) * s / n], the ramp from [-s] at entry 0 up
    to [-s/n] at entry [n - 1]; the entries from [n] on and the length of
    the table are unchanged. *)
Theorem FillDn_linear (d : R) (t : list R) (s : R) (n : Z) :
  (1 <= n <= Z.of_nat (length t))%Z ->
  length (FillDn t s n) = length t /\
  (forall i, (0 <= i < n)%Z -> rd 0 (FillDn t s n) i = (IZR i - IZR n) * s / IZR n) /\
  (forall i, (n <= i)%Z -> rd d (FillDn t s n) i = rd d t i).
Proof.
  intros Hn. destruct (FillDn_spec t s n Hn) as [Hlen Hrd].
  split; [done|]. split.
  - intros i Hi. real_ops. rewrite (Hrd i Hi), ramp_dn_R by lia.
    unfold Rdiv. ring.
  - intros i Hi. apply FillDn_frame; lia.
Qed.

Lemma FillDn_linear_witness :
  (1 <= 4 <= Z.of_nat (length [9; 9; 9; 9; 9; 9]))%Z /\
  length (FillDn [9; 9; 9; 9; 9; 9] 2 4) = length [9; 9; 9; 9; 9; 9] /\
  (forall i, (0 <= i < 4)%Z ->
     rd 0 (FillDn [9; 9; 9; 9; 9; 9] 2 4) i = (IZR i - IZR 4) * 2 / IZR 4) /\
  (forall i, (4 <= i)%Z ->
     rd 0 (FillDn [9; 9; 9; 9; 9; 9] 2 4) i = rd 0 [9; 9; 9; 9; 9; 9] i).
Proof.
  assert (H : (1 <= 4 <= Z.of_nat (length [9; 9; 9; 9; 9; 9]))%Z) by (simpl; lia).
  split; [assumption|]. exact (FillDn_linear 0 [9; 9; 9; 9; 9; 9] 2 4 H).
Defined.

Lemma quotient_range (i n : Z) : (0 <= i < n)%Z -> 0 <= IZR i / IZR n < 1.
Proof.
  intros Hi. assert (0 < IZR n) by (apply IZR_lt; lia).
  assert (0 <= IZR i) by (apply IZR_le; lia).
  assert (IZR i < IZR n) by (apply IZR_lt; lia).
  assert (Hd : 0 < / IZR n) by (by apply Rinv_0_lt_compat).
  split; [apply Rmult_le_pos; lra|].
  apply Rlt_by_diff. replace (1 - IZR i / IZR n) with ((IZR n - IZR i) * / IZR n)
    by (field; lra).
  apply Rmult_lt_0_compat; lra.
Qed.

(** X29.  In real arithmetic the spline table that [initSplineTable g n]
    leaves starts at [spline[0] = 0], does not decrease with the index,
    stays within 0 and 1, and is symmetric: [spline[n - i] = 1 - spline[i]]
    for [0 < i < n]. *)
Theorem spline_table_shape (g : Generator R) (n i j : Z) :
  (1 <= n <= Z.of_nat (length (spline g)))%Z -> (0 <= i)%Z -> (i <= j)%Z -> (j < n)%Z ->
  rd 0 (spline (initSplineTable g n)) 0 = 0 /\
  0 <= rd 0 (spline (initSplineTable g n)) i /\
  rd 0 (spline (initSplineTable g n)) i <= rd 0 (spline (initSplineTable g n)) j /\
  rd 0 (spline (initSplineTable g n)) j <= 1 /\
  ((0 < i)%Z ->
     rd 0 (spline (initSplineTable g n)) (n - i) =
     1 - rd 0 (spline (initSplineTable g n)) i).
Proof.
  intros Hn Hi Hij Hj.
  destruct (initSplineTable_spec g n ltac:(lia)) as [_ Hrd]. real_ops.
  pose proof (quotient_range i n ltac:(lia)) as Hqi.
  pose proof (quotient_range j n ltac:(lia)) as Hqj.
  assert (Hn0 : 0 < IZR n) by (apply IZR_lt; lia).
  assert (Hle : IZR i / IZR n <= IZR j / IZR n).
  { apply Rmult_le_compat_r; [left; by apply Rinv_0_lt_compat | apply IZR_le; lia]. }
  destruct s_curve2_ends as [E0 E1].
  rewrite (Hrd 0%Z), (Hrd i), (Hrd j) by lia.
  replace (0 / IZR n) with 0 by (unfold Rdiv; ring).
  split; [done|]. split; [rewrite <- E0; apply s_curve2_mono; lra|].
  split; [by apply s_curve2_mono|].
  split; [rewrite <- E1; apply s_curve2_mono; lra|].
  intros Hi0. rewrite (Hrd (n - i)%Z) by lia.
  rewrite <- s_curve2_sym. f_equal. rewrite minus_IZR. field. lra.
Qed.

Lemma spline_table_shape_witness :
  (1 <= 8 <= Z.of_nat (length (spline unit_gen)))%Z /\
  (0 <= 3)%Z /\ (3 <= 5)%Z /\ (5 < 8)%Z /\
  rd 0 (spline (initSplineTable unit_gen 8)) 0 = 0 /\
  0 <= rd 0 (spline (initSplineTable unit_gen 8)) 3 /\
  rd 0 (spline (initSplineTable unit_gen 8)) 3 <=
    rd 0 (spline (initSplineTable unit_gen 8)) 5 /\
  rd 0 (spline (initSplineTable unit_gen 8)) 5 <= 1 /\
  ((0 < 3)%Z ->
     rd 0 (spline (initSplineTable unit_gen 8)) (8 - 3) =
     1 - rd 0 (spline (initSplineTable unit_gen 8)) 3).
Proof.
  assert (H1 : (1 <= 8 <= Z.of_nat (length (spline unit_gen)))%Z) by (simpl; lia).
  assert (H2 : (0 <= 3)%Z) by lia. assert (H3 : (3 <= 5)%Z) by lia.
  assert (H4 : (5 < 8)%Z) by lia.
  repeat (split; [assumption|]).
  exact (spline_table_shape unit_gen 8 3 5 H1 H2 H3 H4).
Defined.

End RealTables.

(** ** Real arithmetic: one octave at the points of the code *)

Section RealOctave.
Context {hash : Murmur}.
#[local] Open Scope R_scope.

Lemma getNoise_fresh_tables (g : Generator R) x0 y0 n i j :
  (1 <= n)%Z -> tables_fit g n -> (0 <= i < n)%Z -> (0 <= j < n)%Z ->
  getNoise (initEdgeTables (initSplineTable g n) x0 y0 n) i j =
  point_noise (gradient_of g) x0 y0 n i j.
Proof.
  intros Hn Hfit Hi Hj.
  rewrite getNoise_initEdgeTables; try done.
  - by apply initSplineTable_keeps_fit.
  - apply initSplineTable_ready; [lia | done].
Qed.

(** X14.  The bound the comment in [generate] relies on: in real
    arithmetic, with the tables filled for the tile at [(x0, y0)] and the
    spline table for granularity [n], every point [getNoise(i, j)] of the
    tile has magnitude at most [1/sqrt 2] (in both models, the static of
    [ExpHash] having the scale of [0xFFFFFFFF]). *)
Theorem getNoise_bounded (g : Generator R) x0 y0 n i j :
  (1 <= n)%Z -> tables_fit g n -> static_fresh g ->
  (0 <= i < n)%Z -> (0 <= j < n)%Z ->
  Rabs (getNoise (initEdgeTables (initSplineTable g n) x0 y0 n) i j) <= sqrt 2 / 2.
Proof.
  intros Hn Hfit Hst Hi Hj. rewrite getNoise_fresh_tables by done.
  destruct half_sqrt2 as [Hpos Hsq].
  apply abs_le_of_sq; [lra|]. rewrite Hsq.
  apply point_noise_sq; try done. by apply gradient_bounded.
Qed.

(** X15.  In real arithmetic the noise along the two edges of a tile that
    meet at its corner [(x0, y0)] depends only on the gradients at the two
    ends of the edge, and only on their component along the edge: at
    offset [k] it interpolates, with the spline weight of [k/n], between
    [k/n] times that component at the near end and [k/n - 1] times that
    component at the far end. *)
Theorem getNoise_on_edges (g : Generator R) x0 y0 n k :
  (1 <= n)%Z -> tables_fit g n -> (0 <= k < n)%Z ->
  getNoise (initEdgeTables (initSplineTable g n) x0 y0 n) 0 k =
    lerp (s_curve2 (IZR k / IZR n))
      (IZR k / IZR n * (gradient_of g x0 y0).1)
      ((IZR k / IZR n - 1) * (gradient_of g x0 (y0 + 1)%Z).1) /\
  getNoise (initEdgeTables (initSplineTable g n) x0 y0 n) k 0 =
    lerp (s_curve2 (IZR k / IZR n))
      (IZR k / IZR n * (gradient_of g x0 y0).2)
      ((IZR k / IZR n - 1) * (gradient_of g (x0 + 1)%Z y0).2).
Proof.
  intros Hn Hfit Hk. assert (IZR n <> 0) by (apply not_0_IZR; lia).
  rewrite !getNoise_fresh_tables by (done || lia).
  rewrite point_noise_row0, point_noise_col0 by done.
  unfold lerp. real_ops. split; f_equal; f_equal; field; done.
Qed.

Lemma point_noise_corner (G : Z -> Z -> R * R) x0 y0 n :
  (1 <= n)%Z -> point_noise G x0 y0 n 0 0 = 0.
Proof.
  intros Hn. rewrite point_noise_row0 by lia.
  unfold s_curve2. real_ops. unfold Rdiv. ring.
Qed.

Lemma octave_value_lattice (G : Z -> Z -> R * R) x y n p q :
  (1 <= n)%Z -> (p mod n = 0)%Z -> (q mod n = 0)%Z -> octave_value G x y n p q = 0.
Proof.
  intros Hn Hp Hq. unfold octave_value. rewrite Hp, Hq. by apply point_noise_corner.
Qed.

Lemma accumulate_lattice todo (G : Z -> Z -> R * R) x y n r s p q v :
  (1 <= n)%Z -> (n mod 2 ^ Z.of_nat todo = 0)%Z ->
  (p mod n = 0)%Z -> (q mod n = 0)%Z ->
  accumulate todo G x y n r s p q v = v.
Proof.
  revert x y n r s v.
  induction todo as [|todo IH]; intros x y n r s v Hn Hdiv Hp Hq; [done|].
  cbn [accumulate]. destruct (Z.leb_spec 2 n) as [Hn2|]; [|done].
  replace (Z.of_nat (S todo)) with (Z.succ (Z.of_nat todo)) in Hdiv by lia.
  rewrite Z.pow_succ_r in Hdiv by lia.
  apply Z.mod_divide in Hdiv as [c Hc]; [|lia].
  apply Z.mod_divide in Hp as [a Ha]; [|lia].
  apply Z.mod_divide in Hq as [b Hb]; [|lia].
  set (m := (c * 2 ^ Z.of_nat todo)%Z) in *.
  assert (Hnm : (n = m * 2)%Z) by (unfold m; lia).
  assert (Hhalf : (n ÷ 2 = m)%Z) by (rewrite Hnm; apply Z.quot_mul; lia).
  rewrite Hhalf.
  assert (Hpm : (p mod m = 0)%Z).
  { rewrite Ha, Hnm. replace (a * (m * 2))%Z with (a * 2 * m)%Z by lia.
    apply Z.mod_mul. lia. }
  assert (Hqm : (q mod m = 0)%Z).
  { rewrite Hb, Hnm. replace (b * (m * 2))%Z with (b * 2 * m)%Z by lia.
    apply Z.mod_mul. lia. }
  rewrite octave_value_lattice by (done || lia). real_ops.
  replace (v + s * / 2 * 0) with v by ring.
  assert (Hmd : (m mod 2 ^ Z.of_nat todo = 0)%Z) by (apply Z.mod_mul; lia).
  destruct (decide _); apply IH; (done || lia).
Qed.

End RealOctave.

(** ** Real arithmetic: what [generate] returns and leaves in the cell *)

Lemma generate_scale {F} {ops : Scalar F} {hash : Murmur}
    (g : Generator F) x y m0 m1 n cell :
  2 <= (skip_octaves m0 n).1 ->
  (generate g x y m0 m1 n cell).2 =
    (sqrt2 ⊘ (#2 ⊖ final_scale (Z.to_nat (m1 - m0)) (skip_octaves m0 n).1 #1))%fl.
Proof.
  intros Hn0. unfold generate.
  destruct (skip_octaves m0 n) as [n0 r0]. simpl in *.
  destruct (Z.ltb_spec n0 2); [lia|].
  destruct (first_octave _ _ _ _ _ _) as [g1 c1].
  pose proof (octave_loop_scale (Z.to_nat (m1 - m0)) g1 x y n0 r0 (#1)%fl c1) as Hs.
  destruct (octave_loop _ _ _ _ _ _ _ _) as [[g2 c2] s2]. simpl in *. by rewrite Hs.
Qed.

Lemma log2_quot2 n : 2 <= n -> Z.log2 n = Z.log2 (n ÷ 2) + 1.
Proof.
  intros Hn. pose proof (quot2_bounds n ltac:(lia)) as Hq.
  destruct (decide (n = 2 * (n ÷ 2))) as [E|E].
  - rewrite E at 1. rewrite Z.log2_double by lia. lia.
  - replace n with (2 * (n ÷ 2) + 1) at 1 by lia.
    rewrite Z.log2_succ_double by lia. lia.
Qed.

Lemma log2_small n : n < 2 -> Z.log2 n = 0.
Proof.
  intros Hn. destruct (decide (n = 1)) as [->|]; [done|].
  apply Z.log2_nonpos. lia.
Qed.

Section RealGenerate.
Context {hash : Murmur}.
#[local] Open Scope R_scope.

Lemma final_scale_closed (todo : nat) (n : Z) (s : R) :
  final_scale todo n s = s * (/ 2) ^ Nat.min todo (Z.to_nat (Z.log2 n)).
Proof.
  revert n s. induction todo as [|todo IH]; intros n s; [simpl; lra|].
  cbn [final_scale]. destruct (Z.leb_spec 2 n) as [Hn|Hn].
  - rewrite IH. real_ops. pose proof (Z.log2_nonneg (n ÷ 2)).
    rewrite (log2_quot2 n Hn).
    replace (Nat.min (S todo) (Z.to_nat (Z.log2 (n ÷ 2) + 1)))
      with (S (Nat.min todo (Z.to_nat (Z.log2 (n ÷ 2))))) by lia.
    simpl. ring.
  - rewrite log2_small by done. rewrite Nat.min_0_r. simpl. lra.
Qed.

Lemma half_pow_range (k : nat) : 0 < (/ 2) ^ k <= 1.
Proof.
  split; [apply pow_lt; lra|].
  rewrite <- (pow1 k). apply pow_incr. lra.
Qed.

(** X20.  In real arithmetic a generating call returns
    [sqrt 2 / (2 - 2^-k)], where [k] is the number of octaves it added
    after the first: the smaller of [m1 - m0] and the binary logarithm
    (rounded down) of the granularity [n0] of the first octave.  The
    factor therefore lies between [sqrt 2 / 2] (excluded) and [sqrt 2]. *)
Theorem generate_factor (g : Generator R) x y m0 m1 n cell :
  (2 <= (skip_octaves m0 n).1)%Z ->
  (generate g x y m0 m1 n cell).2 =
    sqrt 2 / (2 - (/ 2) ^ octaves_added m0 m1 (skip_octaves m0 n).1) /\
  sqrt 2 / 2 < (generate g x y m0 m1 n cell).2 <= sqrt 2.
Proof.
  intros Hn0. rewrite generate_scale by done. real_ops.
  rewrite final_scale_closed, Rmult_1_l.
  pose proof (Z.log2_nonneg (skip_octaves m0 n).1).
  replace (Nat.min (Z.to_nat (m1 - m0)) (Z.to_nat (Z.log2 (skip_octaves m0 n).1)))
    with (octaves_added m0 m1 (skip_octaves m0 n).1) by (unfold octaves_added; lia).
  split; [done|].
  pose proof (half_pow_range (octaves_added m0 m1 (skip_octaves m0 n).1)) as He.
  set (e := (/ 2) ^ _) in *.
  pose proof (sqrt_lt_R0 2 ltac:(lra)) as Hs.
  assert (Hd : 0 < / (2 - e)) by (apply Rinv_0_lt_compat; lra).
  split.
  - apply Rlt_by_diff.
    replace (sqrt 2 / (2 - e) - sqrt 2 / 2) with (sqrt 2 * e / 2 * / (2 - e))
      by (field; lra).
    apply Rmult_lt_0_compat; [|done]. nra.
  - apply Rle_by_diff.
    replace (sqrt 2 - sqrt 2 / (2 - e)) with (sqrt 2 * (1 - e) * / (2 - e))
      by (field; lra).
    apply Rmult_le_pos; [|lra]. nra.
Qed.

Lemma accumulate_small todo (G : Z -> Z -> R * R) x y n r s p q v :
  (n < 2)%Z -> accumulate todo G x y n r s p q v = v.
Proof.
  intros Hn. destruct todo; [done|]. cbn [accumulate].
  destruct (Z.leb_spec 2 n); [lia|done].
Qed.

(** The octave at granularity 1 adds nothing: the loop may as well stop
    one octave before the granularity reaches 1. *)
Lemma accumulate_granularity_one todo (G : Z -> Z -> R * R) x y n r s p q v :
  accumulate todo G x y n r s p q v =
  accumulate (Nat.min todo (Z.to_nat (Z.log2 n - 1))) G x y n r s p q v.
Proof.
  revert x y n r s v. induction todo as [|todo IH]; intros x y n r s v; [done|].
  destruct (Z.le_gt_cases 2 n) as [Hn|Hn].
  2:{ by rewrite !accumulate_small by lia. }
  pose proof (quot2_bounds n ltac:(lia)) as Hq.
  pose proof (log2_quot2 n Hn) as Hlog.
  pose proof (Z.log2_nonneg (n ÷ 2)) as Hl0.
  destruct (decide (Z.log2 (n ÷ 2) = 0)%Z) as [Hz|Hz].
  - assert (Hone : (n ÷ 2 = 1)%Z).
    { pose proof (Z.log2_spec (n ÷ 2) ltac:(lia)) as Hsp.
      rewrite Hz in Hsp. simpl in Hsp. lia. }
    replace (Z.to_nat (Z.log2 n - 1)) with 0%nat by lia.
    rewrite Nat.min_0_r. cbn [accumulate].
    destruct (Z.leb_spec 2 n); [|lia]. rewrite Hone.
    rewrite octave_value_granularity_one. real_ops.
    replace (v + s * / 2 * 0) with v by ring.
    destruct (decide _); apply accumulate_small; lia.
  - replace (Nat.min (S todo) (Z.to_nat (Z.log2 n - 1)))
      with (S (Nat.min todo (Z.to_nat (Z.log2 (n ÷ 2) - 1)))) by lia.
    cbn [accumulate]. destruct (Z.leb_spec 2 n); [|lia].
    apply IH.
Qed.

(** X22.  When the octave loop is allowed to run until the granularity
    reaches 1 ([m1] at least [m0] plus the binary logarithm of the first
    granularity), the octave it adds at granularity 1 changes, in real
    arithmetic, no entry of the cell: the cell is the one of the run that
    stops one octave earlier.  The returned factor, which counts that
    octave, is smaller than the factor of that run. *)
Theorem generate_last_octave_idle (g : Generator R) x y m0 m1 n cell :
  (2 <= (skip_octaves m0 n).1)%Z -> tables_fit g n -> square n cell ->
  (m0 + Z.log2 (skip_octaves m0 n).1 <= m1)%Z ->
  (forall p q,
     rd2 0 (generate g x y m0 m1 n cell).1.2 p q =
     rd2 0 (generate g x y m0 (m0 + Z.log2 (skip_octaves m0 n).1 - 1) n cell).1.2 p q) /\
  (generate g x y m0 m1 n cell).2 <
    (generate g x y m0 (m0 + Z.log2 (skip_octaves m0 n).1 - 1) n cell).2.
Proof.
  intros Hn0 Hfit Hsq Hm.
  destruct (skip_octaves_valid m0 n Hn0) as (Hn & Hle & Hrn).
  pose proof (skip_octaves_r_pos m0 n) as Hr.
  assert (Hfit0 : tables_fit g (skip_octaves m0 n).1) by (by eapply tables_fit_le).
  assert (Hlog : (1 <= Z.log2 (skip_octaves m0 n).1)%Z).
  { apply Z.log2_le_pow2; simpl; lia. }
  set (L := Z.log2 (skip_octaves m0 n).1) in *.
  split.
  - intros p q.
    destruct (generate_spec g x y m0 m1 n cell n) as (_ & _ & _ & Hv1);
      [lia | lia | lia | done..|].
    destruct (generate_spec g x y m0 (m0 + L - 1) n cell n) as (_ & _ & _ & Hv2);
      [lia | lia | lia | done..|].
    rewrite Hv1, Hv2. destruct (decide _); [|done].
    rewrite accumulate_granularity_one.
    rewrite (accumulate_granularity_one (Z.to_nat (m0 + L - 1 - m0))).
    fold L. f_equal. lia.
  - rewrite !generate_scale by done. real_ops.
    rewrite !final_scale_closed, !Rmult_1_l. fold L.
    replace (Nat.min (Z.to_nat (m1 - m0)) (Z.to_nat L)) with (S (Z.to_nat (L - 1)))
      by lia.
    replace (Nat.min (Z.to_nat (m0 + L - 1 - m0)) (Z.to_nat L)) with (Z.to_nat (L - 1))
      by lia.
    pose proof (half_pow_range (Z.to_nat (L - 1))) as He.
    simpl pow. set (e := (/ 2) ^ _) in *.
    pose proof (sqrt_lt_R0 2 ltac:(lra)) as Hs.
    assert (Hd1 : 0 < / (2 - / 2 * e)) by (apply Rinv_0_lt_compat; lra).
    assert (Hd2 : 0 < / (2 - e)) by (apply Rinv_0_lt_compat; lra).
    apply Rlt_by_diff.
    replace (sqrt 2 / (2 - e) - sqrt 2 / (2 - / 2 * e))
      with (sqrt 2 * (e / 2) * (/ (2 - e) * / (2 - / 2 * e))) by (field; lra).
    apply Rmult_lt_0_compat; [nra|]. by apply Rmult_lt_0_compat.
Qed.

(** X13.  In real arithmetic the noise is zero at the corners of the
    subcells of the first octave: when the granularity [n0] of the first
    octave is a multiple of [2^(m1 - m0)], so that every later octave
    divides the subcells evenly, entry [(a * n0, b * n0)] of the cell is 0
    after the call, for every subcell [(a, b)]. *)
Theorem generate_zero_at_lattice (g : Generator R) x y m0 m1 n cell a b :
  (2 <= (skip_octaves m0 n).1)%Z -> tables_fit g n -> square n cell ->
  ((skip_octaves m0 n).1 mod 2 ^ Z.max 0 (m1 - m0) = 0)%Z ->
  (0 <= a < (skip_octaves m0 n).2)%Z -> (0 <= b < (skip_octaves m0 n).2)%Z ->
  rd2 0 (generate g x y m0 m1 n cell).1.2
    (a * (skip_octaves m0 n).1) (b * (skip_octaves m0 n).1) = 0.
Proof.
  intros Hn0 Hfit Hsq Hdiv Ha Hb.
  destruct (skip_octaves_valid m0 n Hn0) as (Hn & Hle & Hrn).
  assert (Hfit0 : tables_fit g (skip_octaves m0 n).1) by (by eapply tables_fit_le).
  destruct (generate_spec g x y m0 m1 n cell n) as (_ & _ & _ & Hv);
    [lia | lia | lia | done..|].
  rewrite Hv, decide_True by (unfold covered; nia).
  replace (Z.max 0 (m1 - m0)) with (Z.of_nat (Z.to_nat (m1 - m0))) in Hdiv by lia.
  rewrite accumulate_lattice; try done; try lia; try (apply Z.mod_mul; lia).
  apply octave_value_lattice; [lia | apply Z.mod_mul; lia..].
Qed.

End RealGenerate.

Section RealGenerateInstances.
#[local] Open Scope R_scope.

Lemma generate_factor_witness :
  (2 <= (skip_octaves 1 8).1)%Z /\
  (generate (hash := column_hash) unit_gen 0 0 1 3 8 cell8).2 =
    sqrt 2 / (2 - (/ 2) ^ octaves_added 1 3 (skip_octaves 1 8).1) /\
  sqrt 2 / 2 < (generate (hash := column_hash) unit_gen 0 0 1 3 8 cell8).2 <= sqrt 2.
Proof.
  assert (H : (2 <= (skip_octaves 1 8).1)%Z) by (vm_compute; discriminate).
  split; [assumption|].
  exact (generate_factor (hash := column_hash) unit_gen 0 0 1 3 8 cell8 H).
Defined.

Lemma generate_last_octave_idle_witness :
  (2 <= (skip_octaves 1 8).1)%Z /\ tables_fit unit_gen 8 /\ square 8 cell8 /\
  (1 + Z.log2 (skip_octaves 1 8).1 <= 4)%Z /\
  (forall p q,
     rd2 0 (generate (hash := column_hash) unit_gen 0 0 1 4 8 cell8).1.2 p q =
     rd2 0 (generate (hash := column_hash) unit_gen 0 0 1
              (1 + Z.log2 (skip_octaves 1 8).1 - 1) 8 cell8).1.2 p q) /\
  (generate (hash := column_hash) unit_gen 0 0 1 4 8 cell8).2 <
    (generate (hash := column_hash) unit_gen 0 0 1
       (1 + Z.log2 (skip_octaves 1 8).1 - 1) 8 cell8).2.
Proof.
  assert (H1 : (2 <= (skip_octaves 1 8).1)%Z) by (vm_compute; discriminate).
  assert (H2 : tables_fit unit_gen 8) by (apply tables_fit_new; lia).
  assert (H3 : square 8 cell8) by (apply (square_replicate 8); lia).
  assert (H4 : (1 + Z.log2 (skip_octaves 1 8).1 <= 4)%Z) by (vm_compute; discriminate).
  repeat (split; [assumption|]).
  exact (generate_last_octave_idle (hash := column_hash) unit_gen 0 0 1 4 8 cell8
           H1 H2 H3 H4).
Defined.

Lemma generate_zero_at_lattice_witness :
  (2 <= (skip_octaves 1 8).1)%Z /\ tables_fit terrain_gen 8 /\ square 8 cell8' /\
  ((skip_octaves 1 8).1 mod 2 ^ Z.max 0 (3 - 1) = 0)%Z /\
  (0 <= 0 < (skip_octaves 1 8).2)%Z /\ (0 <= 0 < (skip_octaves 1 8).2)%Z /\
  rd2 0 (generate (hash := column_hash) terrain_gen 3 0 1 3 8 cell8').1.2
    (0 * (skip_octaves 1 8).1) (0 * (skip_octaves 1 8).1) = 0.
Proof.
  assert (H1 : (2 <= (skip_octaves 1 8).1)%Z) by (vm_compute; discriminate).
  assert (H2 : tables_fit terrain_gen 8) by (apply tables_fit_new; lia).
  assert (H3 : square 8 cell8') by (apply (square_replicate 8); lia).
  assert (H4 : ((skip_octaves 1 8).1 mod 2 ^ Z.max 0 (3 - 1) = 0)%Z) by reflexivity.
  assert (H5 : (0 <= 0 < (skip_octaves 1 8).2)%Z) by (vm_compute; intuition discriminate).
  repeat (split; [assumption|]).
  exact (generate_zero_at_lattice (hash := column_hash) terrain_gen 3 0 1 3 8 cell8' 0 0
           H1 H2 H3 H4 H5 H5).
Defined.

End RealGenerateInstances.

(** ** The elevation file of main.cpp *)

Lemma for_up_collect {A} lo hi (f : Z -> A) (acc : list A) :
  for_up lo hi (fun i out => out ++ [f i]) acc = acc ++ (f <$> seqZ lo (hi - lo)).
Proof.
  unfold for_up. generalize (seqZ lo (hi - lo)) as l. intros l. revert acc.
  induction l as [|i l IH]; intros acc; simpl.
  - by rewrite app_nil_r.
  - rewrite IH. by rewrite <- app_assoc.
Qed.

Section Elevations.
Context {hash : Murmur}.
#[local] Open Scope R_scope.

Lemma elevation_range (altitude scale c : R) :
  0 <= altitude -> Rabs (c * scale) <= 1 ->
  0 <= elevation altitude scale c <= altitude.
Proof.
  intros Ha Hc. apply abs_le_inv in Hc. unfold elevation. real_ops. nra.
Qed.

(** X26.  The elevations of the file stay within the cap.  In real
    arithmetic, when the side [n] of the cell is a multiple of
    [2^(m0-1)] (and at least twice that), so that the first octave fills
    the whole cell, [GenerateAndSave2DNoise] writes, when the file could
    be opened, a header announcing [n] rows and [n] columns and then [n]
    lines of [n] elevations, each between 0 and [altitude]; this for every
    tile, whatever the cell held when it was allocated. *)
Theorem elevations_within_cap (g : Generator R) (fresh : Cell R)
    (nRow nCol m0 m1 : Z) (altitude : R) (n : Z) :
  (1 <= m0)%Z -> (n mod 2 ^ (m0 - 1) = 0)%Z -> (2 <= n ÷ 2 ^ (m0 - 1))%Z ->
  tables_fit g n -> static_fresh g -> square n fresh -> 0 <= altitude ->
  exists dem,
    (GenerateAndSave2DNoise g fresh true nRow nCol m0 m1 altitude n).2 = Some dem /\
    nrows dem = n /\ ncols dem = n /\
    Z.of_nat (length (elevations dem)) = n /\
    forall line, line ∈ elevations dem ->
      Z.of_nat (length line) = n /\
      forall v, v ∈ line -> 0 <= v <= altitude.
Proof.
  intros Hm Hmod Hn0 Hfit Hst Hsq Halt. unfold GenerateAndSave2DNoise.
  destruct (for_up 1 m0 _ (nCol, nRow)) as [c r]. unfold Generate2DNoise.
  pose proof (fun p q => generate_corner_abs g r c m0 m1 n fresh p q) as Habs.
  rewrite skip_octaves_closed in Habs by done. cbn [fst snd] in Habs.
  assert (Hn : (0 <= n)%Z).
  { pose proof (skip_octaves_valid m0 n) as Hv.
    rewrite skip_octaves_closed in Hv by done. apply Hv. done. }
  assert (Hcov : (2 ^ (m0 - 1) * (n ÷ 2 ^ (m0 - 1)) = n)%Z).
  { rewrite Z.quot_div_nonneg by lia. symmetry. apply Z.div_exact; lia. }
  destruct (generate g r c m0 m1 n fresh) as [[g' cell'] scale]. simpl in *.
  eexists. split; [done|]. simpl. split; [done|]. split; [done|].
  rewrite for_up_collect, app_nil_l, Z.sub_0_r.
  split; [rewrite length_fmap, length_seqZ; lia|].
  intros line (i & -> & Hi)%list_elem_of_fmap. apply elem_of_seqZ in Hi.
  rewrite for_up_collect, app_nil_l, Z.sub_0_r.
  split; [rewrite length_fmap, length_seqZ; lia|].
  intros v (j & -> & Hj)%list_elem_of_fmap. apply elem_of_seqZ in Hj.
  apply elevation_range; [done|].
  apply Habs; try done. unfold covered. rewrite Hcov. lia.
Qed.

End Elevations.

Section ElevationsInstance.
#[local] Open Scope R_scope.

Lemma elevations_within_cap_witness :
  (1 <= 5)%Z /\ (4096 mod 2 ^ (5 - 1) = 0)%Z /\ (2 <= 4096 ÷ 2 ^ (5 - 1))%Z /\
  tables_fit (CTerrainGenerator 0 4096 1 (3 / 10)) 4096 /\
  static_fresh (CTerrainGenerator 0 4096 1 (3 / 10)) /\
  square 4096 (replicate (Z.to_nat 4096) (replicate (Z.to_nat 4096) 0)) /\
  0 <= 5000 /\
  exists dem,
    (main (hash := column_hash) 0
       (replicate (Z.to_nat 4096) (replicate (Z.to_nat 4096) 0)) true 1 (3 / 10) 5000).2
      = Some dem /\
    nrows dem = 4096%Z /\ ncols dem = 4096%Z /\
    Z.of_nat (length (elevations dem)) = 4096%Z /\
    forall line, line ∈ elevations dem ->
      Z.of_nat (length line) = 4096%Z /\
      forall v, v ∈ line -> 0 <= v <= 5000.
Proof.
  assert (H1 : (1 <= 5)%Z) by lia.
  assert (H2 : (4096 mod 2 ^ (5 - 1) = 0)%Z) by reflexivity.
  assert (H3 : (2 <= 4096 ÷ 2 ^ (5 - 1))%Z) by (vm_compute; discriminate).
  assert (H4 : tables_fit (CTerrainGenerator 0 4096 1 (3 / 10)) 4096)
    by (apply tables_fit_new; lia).
  assert (H5 : static_fresh (CTerrainGenerator 0 4096 1 (3 / 10))) by reflexivity.
  assert (H6 : square 4096 (replicate (Z.to_nat 4096) (replicate (Z.to_nat 4096) 0)))
    by (apply (square_replicate 4096); lia).
  assert (H7 : 0 <= 5000) by lra.
  repeat (split; [assumption|]).
  exact (elevations_within_cap (hash := column_hash) (CTerrainGenerator 0 4096 1 (3 / 10))
           (replicate (Z.to_nat 4096) (replicate (Z.to_nat 4096) 0))
           9999 7777 5 12 5000 4096 H1 H2 H3 H4 H5 H6 H7).
Defined.

End ElevationsInstance.

(** ** Binary32: the uniform hash at the top of its range *)

Section Binary32Hash.
Variables cosf32 sinf32 logf32 : Binary32.float32 -> Binary32.float32.

#[local] Instance binary32_hash_ops : Scalar Binary32.float32 :=
  Binary32.scalar cosf32 sinf32 logf32.

Lemma UniformHash_binary32_table :
  (fun x => UniformHash x 4294967295) <$> seqZ 4294967168 128 =
  replicate 128 (Binary32.of_Z 1).
Proof. vm_compute. reflexivity. Qed.

(** X8.  In binary32, with [max = 0xFFFFFFFF] as the terrain generator
    passes it, [UniformHash] returns exactly [1.0f] for each of the 128
    hashes from [0xFFFFFF80] to [0xFFFFFFFF] (they round to [2^32], as
    does [max + 2]); for the hash just below, [0xFFFFFF7F], it returns
    the largest float below 1. *)
Theorem UniformHash_binary32_top (x : Z) :
  4294967168 <= x <= 4294967295 ->
  UniformHash x 4294967295 = Binary32.of_Z 1 /\
  UniformHash 4294967167 4294967295 = S754_finite false 16777215 (-24).
Proof.
  intros Hx. split; [|vm_compute; reflexivity].
  pose proof (f_equal (fun l => l !! Z.to_nat (x - 4294967168))
    UniformHash_binary32_table) as Hl.
  cbv beta in Hl. rewrite list_lookup_fmap in Hl.
  rewrite (lookup_seqZ_lt 4294967168 128 (Z.to_nat (x - 4294967168))) in Hl by lia.
  rewrite lookup_replicate_2 in Hl by lia.
  replace (4294967168 + Z.of_nat (Z.to_nat (x - 4294967168))) with x in Hl by lia.
  by injection Hl.
Qed.

End Binary32Hash.

Lemma UniformHash_binary32_top_witness :
  4294967168 <= 4294967200 <= 4294967295 /\
  UniformHash (ops := Binary32.scalar no_libm no_libm no_libm) 4294967200 4294967295 =
    Binary32.of_Z 1 /\
  UniformHash (ops := Binary32.scalar no_libm no_libm no_libm) 4294967167 4294967295 =
    S754_finite false 16777215 (-24).
Proof.
  assert (H : 4294967168 <= 4294967200 <= 4294967295) by lia.
  split; [assumption|].
  exact (UniformHash_binary32_top no_libm no_libm no_libm 4294967200 H).
Defined.

(** ** Instances, in real arithmetic, of the properties of every arithmetic *)

Section FrameInstances.
#[local] Open Scope R_scope.

Lemma initSplineTable_effect_witness :
  (0 <= 4 <= Z.of_nat (length (spline unit_gen)))%Z /\
  (forall i, (0 <= i < 4)%Z ->
     rd 0 (spline (initSplineTable unit_gen 4)) i = s_curve2 (IZR i / IZR 4)) /\
  (forall i, (4 <= i)%Z ->
     rd 0 (spline (initSplineTable unit_gen 4)) i = rd 0 (spline unit_gen) i) /\
  length (spline (initSplineTable unit_gen 4)) = length (spline unit_gen) /\
  edge_tables (initSplineTable unit_gen 4) = edge_tables unit_gen /\
  seed (initSplineTable unit_gen 4) = seed unit_gen /\
  model (initSplineTable unit_gen 4) = model unit_gen /\
  exp_scale (initSplineTable unit_gen 4) = exp_scale unit_gen.
Proof.
  assert (H : (0 <= 4 <= Z.of_nat (length (spline unit_gen)))%Z) by (simpl; lia).
  split; [assumption|]. exact (initSplineTable_effect 0 unit_gen 4 H).
Defined.

Lemma initEdgeTables_frame_witness :
  (1 <= 4)%Z /\ (4 <= 6)%Z /\
  (fun t => rd 0 t 6) <$> edge_tables (initEdgeTables (hash := column_hash) terrain_gen 2 0 4) =
    (fun t => rd 0 t 6) <$> edge_tables terrain_gen /\
  length <$> edge_tables (initEdgeTables (hash := column_hash) terrain_gen 2 0 4) =
    length <$> edge_tables terrain_gen /\
  spline (initEdgeTables (hash := column_hash) terrain_gen 2 0 4) = spline terrain_gen /\
  seed (initEdgeTables (hash := column_hash) terrain_gen 2 0 4) = seed terrain_gen /\
  model (initEdgeTables (hash := column_hash) terrain_gen 2 0 4) = model terrain_gen /\
  static_scale (exp_scale (initEdgeTables (hash := column_hash) terrain_gen 2 0 4)) hash_max =
    static_scale (exp_scale terrain_gen) hash_max.
Proof.
  assert (H1 : (1 <= 4)%Z) by lia. assert (H2 : (4 <= 6)%Z) by lia.
  repeat (split; [assumption|]).
  exact (initEdgeTables_frame (hash := column_hash) 0 terrain_gen 2 0 4 6 H1 H2).
Defined.

Lemma getNoise_cell_effect_witness :
  square 8 cell8' /\ (0 <= 4)%Z /\ (0 <= 0)%Z /\ (0 <= 4)%Z /\
  (4 + 4 <= 8)%Z /\ (0 + 4 <= 8)%Z /\
  square 8 (getNoise_cell unit_gen 4 4 0 cell8') /\
  forall p q,
    rd2 0 (getNoise_cell unit_gen 4 4 0 cell8') p q =
    if decide ((4 <= p < 4 + 4)%Z /\ (0 <= q < 0 + 4)%Z)
    then getNoise unit_gen (p - 4) (q - 0)
    else rd2 0 cell8' p q.
Proof.
  assert (H1 : square 8 cell8') by (apply (square_replicate 8); lia).
  assert (H2 : (0 <= 4)%Z) by lia. assert (H3 : (0 <= 0)%Z) by lia.
  assert (H4 : (4 + 4 <= 8)%Z) by lia. assert (H5 : (0 + 4 <= 8)%Z) by lia.
  repeat (split; [assumption|]).
  exact (getNoise_cell_effect unit_gen 8 4 4 0 cell8' H1 H2 H3 H2 H4 H5).
Defined.

Lemma addNoise_effect_witness :
  square 8 cell8' /\ (0 <= 4)%Z /\ (0 <= 0)%Z /\ (0 <= 4)%Z /\
  (4 + 4 <= 8)%Z /\ (0 + 4 <= 8)%Z /\
  square 8 (addNoise unit_gen 4 4 0 (/ 2) cell8') /\
  forall p q,
    rd2 0 (addNoise unit_gen 4 4 0 (/ 2) cell8') p q =
    if decide ((4 <= p < 4 + 4)%Z /\ (0 <= q < 0 + 4)%Z)
    then rd2 0 cell8' p q + / 2 * getNoise unit_gen (p - 4) (q - 0)
    else rd2 0 cell8' p q.
Proof.
  assert (H1 : square 8 cell8') by (apply (square_replicate 8); lia).
  assert (H2 : (0 <= 4)%Z) by lia. assert (H3 : (0 <= 0)%Z) by lia.
  assert (H4 : (4 + 4 <= 8)%Z) by lia. assert (H5 : (0 + 4 <= 8)%Z) by lia.
  repeat (split; [assumption|]).
  exact (addNoise_effect unit_gen 8 4 4 0 (/ 2) cell8' H1 H2 H3 H2 H4 H5).
Defined.

Lemma next_octave_effect_witness :
  (1 <= 4)%Z /\ (0 <= 2)%Z /\ (2 * 4 <= 8)%Z /\
  tables_fit (initSplineTable terrain_gen 4) 4 /\
  spline_ready (initSplineTable terrain_gen 4) 4 /\ square 8 cell8' /\
  forall p q,
    rd2 0 (next_octave (hash := column_hash) (initSplineTable terrain_gen 4)
             0 0 4 2 (/ 2) cell8').2 p q =
    if decide (covered 2 4 p q)
    then rd2 0 cell8' p q +
         / 2 * octave_value (gradient_of (hash := column_hash)
                               (initSplineTable terrain_gen 4)) 0 0 4 p q
    else rd2 0 cell8' p q.
Proof.
  assert (H1 : (1 <= 4)%Z) by lia. assert (H2 : (0 <= 2)%Z) by lia.
  assert (H3 : (2 * 4 <= 8)%Z) by lia.
  assert (H0 : tables_fit terrain_gen 4) by (apply tables_fit_new; lia).
  assert (H4 : tables_fit (initSplineTable terrain_gen 4) 4)
    by (by apply initSplineTable_keeps_fit).
  assert (H5 : spline_ready (initSplineTable terrain_gen 4) 4)
    by (apply initSplineTable_ready; [lia | done]).
  assert (H6 : square 8 cell8') by (apply (square_replicate 8); lia).
  repeat (split; [assumption|]).
  exact (next_octave_effect (hash := column_hash) (initSplineTable terrain_gen 4)
           0 0 4 2 (/ 2) cell8' 8 H1 H2 H3 H4 H5 H6).
Defined.

Lemma generate_contents_witness :
  (2 <= (skip_octaves 2 8).1)%Z /\ tables_fit terrain_gen 8 /\ square 8 cell8' /\
  forall p q,
    rd2 0 (generate (hash := column_hash) terrain_gen 0 0 2 4 8 cell8').1.2 p q =
    if decide (covered (skip_octaves 2 8).2 (skip_octaves 2 8).1 p q)
    then accumulate (Z.to_nat (4 - 2)) (gradient_of (hash := column_hash) terrain_gen) 0 0
           (skip_octaves 2 8).1 (skip_octaves 2 8).2 1 p q
           (octave_value (gradient_of (hash := column_hash) terrain_gen) 0 0
              (skip_octaves 2 8).1 p q)
    else rd2 0 cell8' p q.
Proof.
  assert (H1 : (2 <= (skip_octaves 2 8).1)%Z) by (vm_compute; discriminate).
  assert (H2 : tables_fit terrain_gen 8) by (apply tables_fit_new; lia).
  assert (H3 : square 8 cell8') by (apply (square_replicate 8); lia).
  repeat (split; [assumption|]).
  exact (generate_contents (hash := column_hash) terrain_gen 0 0 2 4 8 cell8' H1 H2 H3).
Defined.

Lemma generate_keeps_object_witness :
  tables_fit terrain_gen 8 /\ square 8 cell8' /\
  same_config terrain_gen
    (generate (hash := column_hash) terrain_gen 0 0 2 4 8 cell8').1.1 /\
  tables_fit (generate (hash := column_hash) terrain_gen 0 0 2 4 8 cell8').1.1 8 /\
  square 8 (generate (hash := column_hash) terrain_gen 0 0 2 4 8 cell8').1.2.
Proof.
  assert (H2 : tables_fit terrain_gen 8) by (apply tables_fit_new; lia).
  assert (H3 : square 8 cell8') by (apply (square_replicate 8); lia).
  repeat (split; [assumption|]).
  exact (generate_keeps_object (hash := column_hash) terrain_gen 0 0 2 4 8 cell8' 8 8
           H2 H3).
Defined.

Lemma skip_octaves_corner_witness :
  (0 <= 4097)%Z /\ (5 <= 31)%Z /\
  (1 <= (skip_octaves 5 4097).2 <= 2 ^ 30)%Z /\ (0 <= (skip_octaves 5 4097).1)%Z /\
  ((skip_octaves 5 4097).2 * (skip_octaves 5 4097).1 <= 4097)%Z /\
  (4097 < (skip_octaves 5 4097).2 * (skip_octaves 5 4097).1 + (skip_octaves 5 4097).2)%Z.
Proof.
  assert (H1 : (0 <= 4097)%Z) by lia. assert (H2 : (5 <= 31)%Z) by lia.
  repeat (split; [assumption|]). exact (skip_octaves_corner 5 4097 H1 H2).
Defined.

Lemma getNoise_bounded_witness :
  (1 <= 4)%Z /\ tables_fit terrain_gen 4 /\ static_fresh terrain_gen /\
  (0 <= 1 < 4)%Z /\ (0 <= 3 < 4)%Z /\
  Rabs (getNoise (initEdgeTables (hash := column_hash)
                    (initSplineTable terrain_gen 4) 2 0 4) 1 3) <= sqrt 2 / 2.
Proof.
  assert (H1 : (1 <= 4)%Z) by lia.
  assert (H2 : tables_fit terrain_gen 4) by (apply tables_fit_new; lia).
  assert (H3 : static_fresh terrain_gen) by reflexivity.
  assert (H4 : (0 <= 1 < 4)%Z) by lia. assert (H5 : (0 <= 3 < 4)%Z) by lia.
  repeat (split; [assumption|]).
  exact (getNoise_bounded (hash := column_hash) terrain_gen 2 0 4 1 3 H1 H2 H3 H4 H5).
Defined.

Lemma getNoise_on_edges_witness :
  (1 <= 4)%Z /\ tables_fit unit_gen 4 /\ (0 <= 3 < 4)%Z /\
  getNoise (initEdgeTables (hash := column_hash) (initSplineTable unit_gen 4) 2 0 4) 0 3 =
    lerp (s_curve2 (IZR 3 / IZR 4))
      (IZR 3 / IZR 4 * (gradient_of (hash := column_hash) unit_gen 2 0).1)
      ((IZR 3 / IZR 4 - 1) * (gradient_of (hash := column_hash) unit_gen 2 (0 + 1)%Z).1) /\
  getNoise (initEdgeTables (hash := column_hash) (initSplineTable unit_gen 4) 2 0 4) 3 0 =
    lerp (s_curve2 (IZR 3 / IZR 4))
      (IZR 3 / IZR 4 * (gradient_of (hash := column_hash) unit_gen 2 0).2)
      ((IZR 3 / IZR 4 - 1) * (gradient_of (hash := column_hash) unit_gen (2 + 1)%Z 0).2).
Proof.
  assert (H1 : (1 <= 4)%Z) by lia.
  assert (H2 : tables_fit unit_gen 4) by (apply tables_fit_new; lia).
  assert (H3 : (0 <= 3 < 4)%Z) by lia.
  repeat (split; [assumption|]).
  exact (getNoise_on_edges (hash := column_hash) unit_gen 2 0 4 3 H1 H2 H3).
Defined.

End FrameInstances.

(** ** Tiles: a part of a large cell and the same tile generated alone *)

Section Tiles.
Context {F : Type} {ops : Scalar F} {hash : Murmur}.
#[local] Open Scope fl_scope.

Lemma octave_value_shift (G : Z -> Z -> F * F) x y n a b i j :
  1 <= n ->
  octave_value G x y n (a * n + i) (b * n + j) = octave_value G (x + a) (y + b) n i j.
Proof.
  intros Hn. unfold octave_value.
  rewrite !Z.div_add_l, !(Z.add_comm (_ * n)), !Z.mod_add by lia.
  f_equal; lia.
Qed.

(** When every halving of the granularity is exact, the octaves seen from
    the subcell [(a, b)] are the octaves of the run that starts at that
    subcell's lattice point. *)
Lemma accumulate_shift todo (G : Z -> Z -> F * F) x y n r r' s a b i j v :
  1 <= n -> n mod 2 ^ Z.of_nat todo = 0 ->
  covered r n (a * n + i) (b * n + j) -> covered r' n i j ->
  accumulate todo G x y n r s (a * n + i) (b * n + j) v =
  accumulate todo G (x + a) (y + b) n r' s i j v.
Proof.
  revert x y n r r' s a b v.
  induction todo as [|todo IH]; intros x y n r r' s a b v Hn Hdiv Hc Hc'; [done|].
  cbn [accumulate]. destruct (Z.leb_spec 2 n) as [Hn2|]; [|done].
  replace (Z.of_nat (S todo)) with (Z.succ (Z.of_nat todo)) in Hdiv by lia.
  rewrite Z.pow_succ_r in Hdiv by lia.
  apply Z.mod_divide in Hdiv as [c Hc0]; [|lia].
  set (m := c * 2 ^ Z.of_nat todo) in *.
  assert (Hnm : n = m * 2) by (unfold m; lia).
  assert (Hhalf : n ÷ 2 = m) by (rewrite Hnm; apply Z.quot_mul; lia).
  rewrite Hhalf.
  assert (Hmd : m mod 2 ^ Z.of_nat todo = 0) by (apply Z.mod_mul; lia).
  replace (a * n + i) with (a * 2 * m + i) in * by lia.
  replace (b * n + j) with (b * 2 * m + j) in * by lia.
  assert (Hc2 : covered (r + r) m (a * 2 * m + i) (b * 2 * m + j))
    by (unfold covered in *; lia).
  assert (Hc2' : covered (r' + r') m i j) by (unfold covered in *; lia).
  rewrite !decide_True by done.
  rewrite octave_value_shift by lia.
  replace (x + a + (x + a)) with (x + x + a * 2) by lia.
  replace (y + b + (y + b)) with (y + y + b * 2) by lia.
  apply IH; (done || lia).
Qed.

(** X30.  The generator is consistent across tiles.  When every halving
    of the granularity is exact (the first granularity [n0] is a multiple
    of [2^(m1 - m0)]), what a run at origin [(x, y)] leaves in its subcell
    [(a, b)], at offset [(i, j)], is what a run of the same number of
    octaves on a cell of side [n0] at origin [(x + a, y + b)] leaves at
    [(i, j)], by any generator with the same seeds and omega; the two runs
    return the same factor. *)
Theorem generate_tile_consistent (g g' : Generator F) x y m0 m1 n cell cell' a b i j :
  2 <= (skip_octaves m0 n).1 ->
  (skip_octaves m0 n).1 mod 2 ^ Z.max 0 (m1 - m0) = 0 ->
  tables_fit g n -> square n cell ->
  same_config g g' -> tables_fit g' (skip_octaves m0 n).1 ->
  square (skip_octaves m0 n).1 cell' ->
  0 <= a < (skip_octaves m0 n).2 -> 0 <= b < (skip_octaves m0 n).2 ->
  0 <= i < (skip_octaves m0 n).1 -> 0 <= j < (skip_octaves m0 n).1 ->
  rd2 #0 (generate g x y m0 m1 n cell).1.2
    (a * (skip_octaves m0 n).1 + i) (b * (skip_octaves m0 n).1 + j) =
  rd2 #0 (generate g' (x + a) (y + b) 1 (m1 - m0 + 1) (skip_octaves m0 n).1 cell').1.2
    i j /\
  (generate g x y m0 m1 n cell).2 =
  (generate g' (x + a) (y + b) 1 (m1 - m0 + 1) (skip_octaves m0 n).1 cell').2.
Proof.
  intros Hn0 Hdiv Hfit Hsq Hcfg Hfit' Hsq' Ha Hb Hi Hj.
  destruct (skip_octaves_valid m0 n Hn0) as (Hn & Hle & Hrn).
  assert (Hfit0 : tables_fit g (skip_octaves m0 n).1) by (by eapply tables_fit_le).
  destruct (generate_spec g x y m0 m1 n cell n) as (Hs & _ & _ & Hv);
    [lia | lia | lia | done..|].
  pose proof (generate_spec g' (x + a) (y + b) 1 (m1 - m0 + 1) (skip_octaves m0 n).1
    cell' (skip_octaves m0 n).1) as Hspec'.
  rewrite skip_octaves_none in Hspec' by lia. cbn [fst snd] in Hspec'.
  destruct Hspec' as (Hs' & _ & _ & Hv'); [lia | lia | lia | done..|].
  replace (Z.to_nat (m1 - m0 + 1 - 1)) with (Z.to_nat (m1 - m0)) in Hs', Hv' by lia.
  rewrite (same_config_gradient g g' Hcfg) in Hv'.
  set (n0 := (skip_octaves m0 n).1) in *. set (r0 := (skip_octaves m0 n).2) in *.
  split; [|by rewrite Hs, Hs'].
  rewrite Hv, Hv'.
  assert (Hc : covered r0 n0 (a * n0 + i) (b * n0 + j)) by (unfold covered; nia).
  assert (Hc' : covered 1 n0 i j) by (unfold covered; lia).
  rewrite !decide_True by done.
  rewrite octave_value_shift by lia.
  replace (Z.max 0 (m1 - m0)) with (Z.of_nat (Z.to_nat (m1 - m0))) in Hdiv by lia.
  apply accumulate_shift; (done || lia).
Qed.

(** X25.  The caller's tile [(nRow, nCol)] is generated at the lattice
    origin [2^(m0-1) * (nRow, nCol)] (the factor is 1 when [m0 < 1]), rows
    along the first coordinate of [generate]: the two exchanges of the
    coordinates on the way, in [GenerateAndSave2DNoise] and in
    [Generate2DNoise], cancel. *)
Theorem GenerateAndSave2DNoise_origin (g : Generator F) (fresh : Cell F) opened
    nRow nCol m0 m1 (altitude : F) n :
  GenerateAndSave2DNoise g fresh opened nRow nCol m0 m1 altitude n =
  let '(g', cell, scale) :=
    generate g (2 ^ Z.max 0 (m0 - 1) * nRow) (2 ^ Z.max 0 (m0 - 1) * nCol) m0 m1 n fresh in
  (g', SaveDEMFile opened cell n scale altitude).
Proof.
  unfold GenerateAndSave2DNoise, Generate2DNoise.
  assert (Hloop : for_up 1 m0 (fun _ '(nCol, nRow) => (nCol * 2, nRow * 2)) (nCol, nRow) =
                  (2 ^ Z.max 0 (m0 - 1) * nCol, 2 ^ Z.max 0 (m0 - 1) * nRow)).
  { destruct (Z.le_gt_cases 1 m0) as [Hm|Hm].
    - replace (Z.max 0 (m0 - 1)) with (m0 - 1) by lia.
      apply (for_up_ind (fun k s => s = (2 ^ (k - 1) * nCol, 2 ^ (k - 1) * nRow)));
        [done | simpl; f_equal; lia |].
      intros k [c r] Hk [= -> ->].
      replace (k + 1 - 1) with (Z.succ (k - 1)) by lia.
      rewrite Z.pow_succ_r by lia. f_equal; lia.
    - rewrite for_up_nil by lia. replace (Z.max 0 (m0 - 1)) with 0 by lia.
      simpl. f_equal; lia. }
  rewrite Hloop. done.
Qed.

End Tiles.

Section TileInstances.
#[local] Open Scope R_scope.

Lemma generate_tile_consistent_witness :
  (2 <= (skip_octaves 2 8).1)%Z /\
  ((skip_octaves 2 8).1 mod 2 ^ Z.max 0 (3 - 2) = 0)%Z /\
  tables_fit terrain_gen 8 /\ square 8 cell8 /\
  same_config terrain_gen terrain_gen' /\ tables_fit terrain_gen' (skip_octaves 2 8).1 /\
  square (skip_octaves 2 8).1 (replicate 4 (replicate 4 5)) /\
  (0 <= 1 < (skip_octaves 2 8).2)%Z /\ (0 <= 0 < (skip_octaves 2 8).2)%Z /\
  (0 <= 3 < (skip_octaves 2 8).1)%Z /\ (0 <= 2 < (skip_octaves 2 8).1)%Z /\
  rd2 0 (generate (hash := column_hash) terrain_gen 2 0 2 3 8 cell8).1.2
    (1 * (skip_octaves 2 8).1 + 3) (0 * (skip_octaves 2 8).1 + 2) =
  rd2 0 (generate (hash := column_hash) terrain_gen' (2 + 1) (0 + 0) 1 (3 - 2 + 1)
           (skip_octaves 2 8).1 (replicate 4 (replicate 4 5))).1.2 3 2 /\
  (generate (hash := column_hash) terrain_gen 2 0 2 3 8 cell8).2 =
  (generate (hash := column_hash) terrain_gen' (2 + 1) (0 + 0) 1 (3 - 2 + 1)
     (skip_octaves 2 8).1 (replicate 4 (replicate 4 5))).2.
Proof.
  assert (H1 : (2 <= (skip_octaves 2 8).1)%Z) by (vm_compute; discriminate).
  assert (H2 : ((skip_octaves 2 8).1 mod 2 ^ Z.max 0 (3 - 2) = 0)%Z) by reflexivity.
  assert (H3 : tables_fit terrain_gen 8) by (apply tables_fit_new; lia).
  assert (H4 : square 8 cell8) by (apply (square_replicate 8); lia).
  assert (H5 : same_config terrain_gen terrain_gen') by done.
  assert (H6 : tables_fit terrain_gen' (skip_octaves 2 8).1)
    by (apply tables_fit_new; vm_compute; discriminate).
  assert (H7 : square (skip_octaves 2 8).1 (replicate 4 (replicate 4 5)))
    by (apply (square_replicate 4); lia).
  assert (H8 : (0 <= 1 < (skip_octaves 2 8).2)%Z) by (vm_compute; intuition discriminate).
  assert (H9 : (0 <= 0 < (skip_octaves 2 8).2)%Z) by (vm_compute; intuition discriminate).
  assert (H10 : (0 <= 3 < (skip_octaves 2 8).1)%Z) by (vm_compute; intuition discriminate).
  assert (H11 : (0 <= 2 < (skip_octaves 2 8).1)%Z) by (vm_compute; intuition discriminate).
  repeat (split; [assumption|]).
  exact (generate_tile_consistent (hash := column_hash) terrain_gen terrain_gen'
           2 0 2 3 8 cell8 (replicate 4 (replicate 4 5)) 1 0 3 2
           H1 H2 H3 H4 H5 H6 H7 H8 H9 H10 H11).
Defined.

End TileInstances.
